(** * Order execution engine: a shallow embedding and its verified properties

    The development follows the layout of the repository:
    - [Js]         the few JavaScript primitives the code relies on
                   (binary64 arithmetic, truthiness, [Number(...)], object
                   spread, [toString(radix)], [toFixed]);
    - [Types]      src/types.ts;
    - [MockDex]    src/dex/mockDex.ts;
    - [Runtime]    the process state shared by the modules (orders table,
                   routing log, event emitter, sockets, queue) and the
                   monad of computations that change it and may throw;
    - [Logger]     src/utils/logger.ts;
    - [Database]   src/db/database.ts over src/db/schema.sql;
    - [Bus]        the [orderEvents] emitter of src/orders/worker.ts;
    - [Worker]     the job handler and the [failed] listener of worker.ts;
    - [Controller] src/orders/controller.ts;
    - [Dispatcher] the retry policy of the queue library;
    - [Admission]  the admission policy of the queue library;
    - [Observe]    what is read off a run: views of the trace, blocks of the
                   handler, the messages of a socket;
    - [Sample]     concrete inputs;
    - [Reads]      the readers of database.ts;
    - [Routes]     the GET routes of controller.ts;
    - [Views]      what is read off the table and the sockets.
    The properties follow, from the monad upwards.

    JavaScript numbers are binary64 doubles.  A finite double is modelled by
    the rational it denotes, and comparison of finite doubles is comparison
    of these rationals.  An arithmetic operation yields the double nearest to
    the exact result, ties to even ([Js.fl]), and a decimal literal of the
    code denotes the double nearest to it ([Js.lit]).  What the code draws
    from [Math.random()] is an input of the function that draws it, and the
    clock is part of the process state. *)

From Stdlib Require Import List String Ascii Bool Arith ZArith NArith QArith Lia.
From Stdlib Require Import Qminmax Qround Qpower Qabs Lqa Permutation Sorted.
Import ListNotations.

Set Implicit Arguments.
Set Warnings "-register-all".

(* ===================================================================== *)
(** ** JavaScript primitives *)
(* ===================================================================== *)

Module Js.

Local Open Scope string_scope.

(** Values that travel through [JSON.parse] / [JSON.stringify] and through
    the untyped [data?: any] and event payloads.  A number is the double
    [JSON.parse] reads it as: [JNum] for a finite one, [JInf] for
    [Infinity] or [-Infinity], which a number beyond the range of the
    doubles is read as.  A string is the sequence of its code units, those
    below 256 in this model. *)
Inductive Json : Type :=
| JNull
| JBool (b : bool)
| JNum (q : Q)
| JInf (negative : bool)
| JStr (s : string)
| JArr (items : list Json)
| JObj (fields : list (string * Json)).

(** Property read [o.k]; [None] is [undefined]. *)
Fixpoint assoc (k : string) (fields : list (string * Json)) : option Json :=
  match fields with
  | [] => None
  | (k', v) :: rest => if String.eqb k k' then Some v else assoc k rest
  end.

Definition get (k : string) (v : Json) : option Json :=
  match v with
  | JObj fields => assoc k fields
  | _ => None
  end.

(** Property write [o.k = v] on an object literal: an existing key keeps its
    position, a new key is appended.  This is what the spread
    [{...ev, k: v}] produces. *)
Fixpoint set_field (k : string) (v : Json) (fields : list (string * Json))
  : list (string * Json) :=
  match fields with
  | [] => [(k, v)]
  | (k', v') :: rest =>
      if String.eqb k k' then (k, v) :: rest
      else (k', v') :: set_field k v rest
  end.

(** Truthiness of a string ([!s] is [true] for [undefined] and [""]). *)
Definition truthy_str (s : option string) : bool :=
  match s with
  | Some s' => negb (String.eqb s' "")
  | None => false
  end.

(** Truthiness of a value: [null], [false], [0] and [""] are falsy, every
    other value that comes out of JSON is truthy, arrays and objects
    included. *)
Definition truthy (v : Json) : bool :=
  match v with
  | JNull => false
  | JBool b => b
  | JNum q => negb (Z.eqb (Qnum q) 0)
  | JInf _ => true
  | JStr s => negb (String.eqb s "")
  | JArr _ => true
  | JObj _ => true
  end.

(** Truthiness of a property read; [undefined] is falsy. *)
Definition truthy_opt (v : option Json) : bool :=
  match v with
  | Some x => truthy x
  | None => false
  end.

(** [a || b] *)
Definition or_default (a : option Json) (b : Json) : Json :=
  match a with
  | Some x => if truthy x then x else b
  | None => b
  end.

(** *** Binary64 arithmetic

    The doubles between [2^e] and [2^(e+1)] are the multiples of
    [2^(e-52)]; below [2^-1022] they are the multiples of [2^-1074]. *)

(** The integer nearest to [y]; of two that are equally near, the even
    one. *)
Definition round_even (y : Q) : Z :=
  let f := Qfloor y in
  match Qcompare (y - inject_Z f) (1 # 2) with
  | Lt => f
  | Gt => (f + 1)%Z
  | Eq => if Z.even f then f else (f + 1)%Z
  end.

(** For [x > 0], the [e] with [2^e <= x < 2^(e+1)]. *)
Definition ilog2 (x : Q) : Z :=
  let e := (Z.log2 (Qnum x) - Z.log2 (Zpos (Qden x)))%Z in
  if Qle_bool (2 ^ e) x then e else (e - 1)%Z.

(** The exponent of the spacing of the doubles around [x > 0]. *)
Definition ulp_exp (x : Q) : Z := (Z.max (ilog2 x) (-1022) - 52)%Z.

Definition round_pos (x : Q) : Q :=
  let k := ulp_exp x in
  Qred (inject_Z (round_even (x * 2 ^ (- k))) * 2 ^ k).

(** The double nearest to [x], ties to even, as a fraction in lowest terms;
    meant for [|x| < 2^1024], beyond which the double is infinite
    ([round_number] below). *)
Definition fl (x : Q) : Q :=
  match Qnum x with
  | Z0 => 0
  | Zpos _ => round_pos x
  | Zneg _ => - round_pos (- x)
  end.

(** The double a decimal literal of the code denotes. *)
Definition lit (q : Q) : Q := fl q.

(** [a + b] and [a * b] on doubles. *)
Definition fadd (a b : Q) : Q := fl (a + b).
Definition fmul (a b : Q) : Q := fl (a * b).

(** [Math.floor(x)] for a finite [x]. *)
Definition floor (x : Q) : Z := Qfloor x.

(** *** [Number(value)] *)

(** A number as [Number] returns it.  The two zeros are not told apart. *)
Inductive JsNumber : Type :=
| Finite (q : Q)
| Infinite (negative : bool)
| NaN.

(** The double a numeric literal of the value [x] is read as. *)
Definition round_number (x : Q) : JsNumber :=
  let y := fl x in
  if Qle_bool (2 ^ 1024) (Qabs y) then Infinite (negb (Qle_bool 0 y)) else Finite y.

(** White space and line terminators among the code units below 256: tab,
    line feed, vertical tab, form feed, carriage return, space and the
    no-break space. *)
Definition is_blank (c : ascii) : bool :=
  let n := nat_of_ascii c in
  ((9 <=? n) && (n <=? 13) || (n =? 32) || (n =? 160))%nat.

Fixpoint drop_blanks (cs : list ascii) : list ascii :=
  match cs with
  | [] => []
  | c :: rest => if is_blank c then drop_blanks rest else cs
  end.

Definition trim (cs : list ascii) : list ascii :=
  rev (drop_blanks (rev (drop_blanks cs))).

(** The value of a digit or letter as a digit of a radix up to 36. *)
Definition digit_value (c : ascii) : option N :=
  let n := N_of_ascii c in
  if ((48 <=? n) && (n <=? 57))%N then Some (n - 48)%N
  else if ((97 <=? n) && (n <=? 122))%N then Some (n - 87)%N
  else if ((65 <=? n) && (n <=? 90))%N then Some (n - 55)%N
  else None.

Fixpoint digits_value (radix : N) (cs : list ascii) (acc : N) : option N :=
  match cs with
  | [] => Some acc
  | c :: rest =>
      match digit_value c with
      | Some d => if (d <? radix)%N then digits_value radix rest (acc * radix + d)%N
                  else None
      | None => None
      end
  end.

(** The value of a non-empty run of digits of the radix. *)
Definition number_in (radix : N) (cs : list ascii) : option N :=
  match cs with
  | [] => None
  | _ => digits_value radix cs 0
  end.

Definition is_decimal_digit (c : ascii) : bool :=
  let n := N_of_ascii c in ((48 <=? n) && (n <=? 57))%N.

(** The decimal digits [cs] starts with, and what follows them. *)
Fixpoint span_digits (cs : list ascii) : list ascii * list ascii :=
  match cs with
  | [] => ([], [])
  | c :: rest =>
      if is_decimal_digit c
      then let (ds, r) := span_digits rest in (c :: ds, r)
      else ([], cs)
  end.

(** [ExponentPart], if there is one, up to the end of the literal. *)
Definition exponent_of (cs : list ascii) : option Z :=
  match cs with
  | [] => Some 0%Z
  | c :: rest =>
      if Ascii.eqb c "e" || Ascii.eqb c "E" then
        let (negative, ds) :=
          match rest with
          | s :: r => if Ascii.eqb s "+" then (false, r)
                      else if Ascii.eqb s "-" then (true, r)
                      else (false, rest)
          | [] => (false, rest)
          end in
        match number_in 10 ds with
        | Some n => Some (if negative then (- Z.of_N n)%Z else Z.of_N n)
        | None => None
        end
      else None
  end.

(** [StrUnsignedDecimalLiteral] other than [Infinity]: digits with an
    optional fraction, or a fraction alone, and an optional exponent. *)
Definition unsigned_decimal (cs : list ascii) : option Q :=
  let (int_part, r1) := span_digits cs in
  let (frac_part, r2) :=
    match r1 with
    | c :: r => if Ascii.eqb c "." then span_digits r else ([], r1)
    | [] => ([], r1)
    end in
  match (int_part ++ frac_part)%list with
  | [] => None
  | ds =>
      match digits_value 10 ds 0, exponent_of r2 with
      | Some m, Some e =>
          Some (inject_Z (Z.of_N m) * 10 ^ (e - Z.of_nat (List.length frac_part)))
      | _, _ => None
      end
  end.

(** [StrDecimalLiteral]: an optional sign before [Infinity] or a literal. *)
Definition signed_decimal (cs : list ascii) : JsNumber :=
  let (negative, body) :=
    match cs with
    | s :: r => if Ascii.eqb s "+" then (false, r)
                else if Ascii.eqb s "-" then (true, r)
                else (false, cs)
    | [] => (false, cs)
    end in
  if String.eqb (string_of_list_ascii body) "Infinity" then Infinite negative
  else
    match unsigned_decimal body with
    | Some q => round_number (if negative then - q else q)
    | None => NaN
    end.

(** The radix a prefix [0x], [0o] or [0b] announces. *)
Definition radix_of (c : ascii) : option N :=
  if Ascii.eqb c "x" || Ascii.eqb c "X" then Some 16%N
  else if Ascii.eqb c "o" || Ascii.eqb c "O" then Some 8%N
  else if Ascii.eqb c "b" || Ascii.eqb c "B" then Some 2%N
  else None.

(** [StringToNumber]: white space around the literal is dropped; the empty
    string is 0; what is no numeric literal is [NaN]. *)
Definition string_to_number (s : string) : JsNumber :=
  let cs := trim (list_ascii_of_string s) in
  match cs with
  | [] => Finite 0
  | z :: x :: rest =>
      match (if Ascii.eqb z "0" then radix_of x else None) with
      | Some radix =>
          match number_in radix rest with
          | Some n => round_number (inject_Z (Z.of_N n))
          | None => NaN
          end
      | None => signed_decimal cs
      end
  | _ => signed_decimal cs
  end.

(** [Number(v)] for a value that came out of JSON.  An array is first
    turned into the string of its elements joined by commas, [null]
    counting as the empty string: so the empty array is 0, an array of one
    element is what that element's string is read as, and an array of more
    elements is [NaN].  An object is [NaN]. *)
Fixpoint to_number (v : Json) : JsNumber :=
  match v with
  | JNull => Finite 0
  | JBool b => Finite (if b then 1 else 0)
  | JNum q => Finite q
  | JInf negative => Infinite negative
  | JStr s => string_to_number s
  | JArr [] => Finite 0
  | JArr [x] =>
      match x with
      | JNull => Finite 0
      | JBool _ => NaN
      | JObj _ => NaN
      | _ => to_number x
      end
  | JArr _ => NaN
  | JObj _ => NaN
  end.

(** [Number(o.k)]; [Number(undefined)] is [NaN]. *)
Definition Number (v : option Json) : JsNumber :=
  match v with
  | Some x => to_number x
  | None => NaN
  end.

(** One digit of [Number.prototype.toString(radix)], radix at most 36. *)
Definition digit_char (d : N) : ascii :=
  if (d <? 10)%N then ascii_of_N (48 + d) else ascii_of_N (87 + d).

Fixpoint digits_from (radix : N) (fuel : nat) (n : N) (acc : string) : string :=
  match fuel with
  | O => acc
  | S fuel' =>
      let acc' := String (digit_char (n mod radix)) acc in
      if (n / radix =? 0)%N then acc'
      else digits_from radix fuel' (n / radix) acc'
  end.

(** [n.toString(radix)] for a non-negative integer [n]: the fuel is the
    number of binary digits of [n], which bounds the number of digits in
    any radix from 2 on. *)
Definition toString_radix (radix : N) (n : N) : string :=
  digits_from radix (S (N.to_nat (N.log2 n))) n "".

Definition toString10 (n : N) : string := toString_radix 10 n.

Fixpoint indexed {A} (f : A -> Json) (i : N) (l : list A) : list (string * Json) :=
  match l with
  | [] => []
  | x :: rest => (toString10 i, f x) :: indexed f (i + 1) rest
  end.

(** The own enumerable properties a spread [{...v}] copies: the fields of
    an object, the elements of an array and the characters of a string
    under their indices, and nothing from any other value. *)
Definition own_properties (v : Json) : list (string * Json) :=
  match v with
  | JObj fields => fields
  | JArr items => indexed (fun x => x) 0 items
  | JStr s => indexed (fun c => JStr (String c EmptyString)) 0 (list_ascii_of_string s)
  | _ => []
  end.

(** [{...ev, k: v}] *)
Definition spread_with (ev : Json) (k : string) (v : Json) : Json :=
  JObj (set_field k v (own_properties ev)).

Fixpoint zeros (k : nat) : string :=
  match k with
  | O => ""
  | S k' => String "0" (zeros k')
  end.

(** [x.toFixed(f)] for [|x| < 10^21]: let [n] be the integer for which
    [n / 10^f - x] is closest to zero, the larger one on a tie; print [n]
    padded to [f + 1] digits with the point before the last [f]. *)
Definition toFixed_nonneg (f : nat) (x : Q) : string :=
  let n := Z.to_N (Qfloor (x * inject_Z (10 ^ Z.of_nat f) + (1 # 2))) in
  let m := toString10 n in
  let m' := zeros (S f - String.length m) ++ m in
  let k := (String.length m' - f)%nat in
  if Nat.eqb f 0 then m'
  else substring 0 k m' ++ "." ++ substring k f m'.

Definition toFixed (f : nat) (x : Q) : string :=
  if Qle_bool 0 x then toFixed_nonneg f x
  else "-" ++ toFixed_nonneg f (- x).

(** A thrown [Error]; only its message is ever inspected. *)
Record JsError : Type := { message : string }.

(** [err?.message || String(err)]: an [Error] with an empty message
    stringifies to ["Error"]. *)
Definition error_text (err : JsError) : string :=
  if String.eqb (message err) "" then "Error" else message err.

End Js.

(* ===================================================================== *)
(** ** src/types.ts *)
(* ===================================================================== *)

Module Types.

Local Open Scope string_scope.

(** [createdAt] and every other timestamp is represented by the instant it
    denotes, in milliseconds. *)
Record Order : Type := {
  orderId : string;
  tokenIn : string;
  tokenOut : string;
  amount : Q;
  type : string;
  createdAt : option N
}.

Inductive Dex : Type := raydium | meteora.

Definition dex_name (d : Dex) : string :=
  match d with
  | raydium => "raydium"
  | meteora => "meteora"
  end.

Record DexQuote : Type := {
  dex : Dex;
  price : Q;
  fee : Q
}.

Record SwapResult : Type := {
  txHash : string;
  executedPrice : Q
}.

End Types.

(* ===================================================================== *)
(** ** src/dex/mockDex.ts *)
(* ===================================================================== *)

Module MockDex.

Import Js Types.
Local Open Scope string_scope.
Local Open Scope Q_scope.

(** The values one call of a quote method obtains from [Math.random()],
    in call order.  Each is a double in [[0, 1)]. *)
Record QuoteDraws : Type := {
  q_sleep : Q;
  q_price : Q
}.

(** The values one call of [executeSwap] obtains from [Math.random()], in
    call order; the last two are drawn only when the call does not throw. *)
Record SwapDraws : Type := {
  s_sleep : Q;
  s_fail : Q;
  s_price : Q;
  s_hash : Q
}.

Definition unit_interval (r : Q) : Prop := 0 <= r /\ r < 1.

Definition basePrice : Q := 100.

(** Milliseconds after which [sleep(ms)] resumes (timers count whole
    milliseconds). *)
Definition sleep_ms (ms : Q) : N := Z.to_N (Qfloor ms).

(** [200 + Math.random() * 200] *)
Definition raydium_sleep (d : QuoteDraws) : N :=
  sleep_ms (fadd 200 (fmul (q_sleep d) 200)).

Definition getRaydiumQuote (d : QuoteDraws) (tokenIn tokenOut : string) (amount : Q)
  : DexQuote :=
  let price := fmul basePrice (fadd (lit (98 # 100)) (fmul (q_price d) (lit (4 # 100)))) in
  {| dex := raydium; price := price; fee := lit (3 # 1000) |}.

Definition meteora_sleep (d : QuoteDraws) : N :=
  sleep_ms (fadd 200 (fmul (q_sleep d) 200)).

Definition getMeteoraQuote (d : QuoteDraws) (tokenIn tokenOut : string) (amount : Q)
  : DexQuote :=
  let price := fmul basePrice (fadd (lit (97 # 100)) (fmul (q_price d) (lit (5 # 100)))) in
  {| dex := meteora; price := price; fee := lit (2 # 1000) |}.

(** [2000 + Math.random() * 1000] *)
Definition swap_sleep (d : SwapDraws) : N :=
  sleep_ms (fadd 2000 (fmul (s_sleep d) 1000)).

(** [`MOCK_TX_${Date.now().toString(36)}_${Math.floor(Math.random() * 10000)}`] *)
Definition mock_tx (now : N) (r : Q) : string :=
  ("MOCK_TX_" ++ toString_radix 36 now ++ "_"
     ++ toString10 (Z.to_N (floor (fmul r 10000))))%string.

(** [executeSwap] after its sleep; [now] is what [Date.now()] reads then.
    The venue and the order are accepted and not inspected. *)
Definition executeSwap (d : SwapDraws) (now : N) (venue : Dex) (order : Order)
  : JsError + SwapResult :=
  if negb (Qle_bool (lit (2 # 100)) (s_fail d))
  then inl {| message := "Simulated network execution failure" |}
  else
    let executedPrice :=
      fmul basePrice (fadd (lit (98 # 100)) (fmul (s_price d) (lit (4 # 100)))) in
    let txHash := mock_tx now (s_hash d) in
    inr {| txHash := txHash; executedPrice := executedPrice |}.

End MockDex.

(* ===================================================================== *)
(** ** Process state and effects *)
(* ===================================================================== *)

Module Runtime.

Import Js Types.
Local Open Scope string_scope.

(** One row of the [orders] table of src/db/schema.sql.  The serial [id]
    column is never read by the code and is left out. *)
Record Row : Type := {
  order_id : string;
  token_in : string;
  token_out : string;
  r_amount : Q;
  order_type : string;
  status : string;
  chosen_dex : option string;
  tx_hash : option string;
  executed_price : option Q;
  error_message : option string;
  created_at : N;
  updated_at : N
}.

(** The two statements database.ts sends to the pool for writing. *)
Inductive Query : Type :=
| InsertOrder (oid tin tout : string) (amt : Q) (otype st : string) (created : N)
| UpdateOrder (oid st : string) (dex tx : option string) (px : option Q)
              (err : option string).

(** src/utils/logger.ts [LogEntry]. *)
Record LogEntry : Type := {
  timestamp : N;
  l_orderId : string;
  event : string;
  data : option Json
}.

Definition SocketId : Type := nat.

(** A listener on [orderEvents]: the closure [handler] of controller.ts,
    which captures its socket and the order id it was created for. *)
Record Listener : Type := {
  on_event : string;
  h_socket : SocketId;
  h_orderId : string
}.

(** A websocket connection as seen by the server: whether it is open, what
    was sent to the client, the connection's [subscribedId] variable and
    the listeners whose removal was registered for the [close] event. *)
Record Socket : Type := {
  is_open : bool;
  outbox : list Json;
  subscribedId : option string;
  on_close : list Listener
}.

(** The options [ordersQueue.add] is called with in controller.ts. *)
Inductive BackoffType : Type := fixed | exponential.

Record JobOpts : Type := {
  jobId : string;
  attempts : nat;
  backoff_type : BackoffType;
  backoff_delay : N
}.

(** A job as the handler of the worker takes it, [job.data as Order]: its
    name, its payload and its options. *)
Record Job : Type := {
  job_name : string;
  job_data : Order;
  opts : JobOpts
}.

(** The [order] object controller.ts builds, as it is at run time.  The
    cast [request.body as Partial<Order>] checks nothing: a token is
    whatever value the body holds under that name ([None] is [undefined]),
    the amount is what [Number] makes of the body's amount, and the type is
    the body's type unless that is falsy. *)
Record Payload : Type := {
  p_orderId : string;
  p_tokenIn : option Json;
  p_tokenOut : option Json;
  p_amount : JsNumber;
  p_type : Json;
  p_createdAt : N
}.

(** What [ordersQueue.add(name, data, opts)] was called with. *)
Record Submission : Type := {
  sub_name : string;
  sub_data : Payload;
  sub_opts : JobOpts
}.

(** What happens, in program order.  The trace is the only place where the
    relative order of effects on different components is visible; what a
    socket was sent is kept, in order, in its [outbox]. *)
Inductive Effect : Type :=
| EEmit (name : string) (ev : Json)
| EQuery (q : Query) (succeeded : bool)
| ELog (entry : LogEntry)
| EConsoleError (label : string)
| EAttempt (jobId : string) (attempt : nat)
| ERetryIn (jobId : string) (delay : N).

Record World : Type := {
  now : N;
  rows : list Row;
  db_outage : list bool;
  logs : list LogEntry;
  listeners : list Listener;
  sockets : list (SocketId * Socket);
  socket_of_order : list (string * SocketId);
  queue : list Submission;
  uuid : nat -> string;
  minted : nat;
  trace : list Effect
}.

(** Field by field:
    - [now]: wall clock, in milliseconds;
    - [rows]: the orders table;
    - [db_outage]: which of the coming pool.query calls reject;
    - [logs]: the logs array of logger.ts;
    - [listeners]: listeners of orderEvents, in registration order;
    - [sockets]: the websocket connections;
    - [socket_of_order]: the sockets map of controller.ts;
    - [queue]: what was added to ordersQueue;
    - [uuid]: the identifiers the generator yields, in order;
    - [minted]: how many identifiers were generated;
    - [trace]: the effects so far, oldest first. *)

Definition set_now (x : N) (w : World) : World :=
  {| now := x; rows := rows w; db_outage := db_outage w; logs := logs w;
     listeners := listeners w; sockets := sockets w;
     socket_of_order := socket_of_order w; queue := queue w; uuid := uuid w;
     minted := minted w; trace := trace w |}.

Definition set_rows (x : list Row) (w : World) : World :=
  {| now := now w; rows := x; db_outage := db_outage w; logs := logs w;
     listeners := listeners w; sockets := sockets w;
     socket_of_order := socket_of_order w; queue := queue w; uuid := uuid w;
     minted := minted w; trace := trace w |}.

Definition set_db_outage (x : list bool) (w : World) : World :=
  {| now := now w; rows := rows w; db_outage := x; logs := logs w;
     listeners := listeners w; sockets := sockets w;
     socket_of_order := socket_of_order w; queue := queue w; uuid := uuid w;
     minted := minted w; trace := trace w |}.

Definition set_logs (x : list LogEntry) (w : World) : World :=
  {| now := now w; rows := rows w; db_outage := db_outage w; logs := x;
     listeners := listeners w; sockets := sockets w;
     socket_of_order := socket_of_order w; queue := queue w; uuid := uuid w;
     minted := minted w; trace := trace w |}.

Definition set_listeners (x : list Listener) (w : World) : World :=
  {| now := now w; rows := rows w; db_outage := db_outage w; logs := logs w;
     listeners := x; sockets := sockets w;
     socket_of_order := socket_of_order w; queue := queue w; uuid := uuid w;
     minted := minted w; trace := trace w |}.

Definition set_sockets (x : list (SocketId * Socket)) (w : World) : World :=
  {| now := now w; rows := rows w; db_outage := db_outage w; logs := logs w;
     listeners := listeners w; sockets := x;
     socket_of_order := socket_of_order w; queue := queue w; uuid := uuid w;
     minted := minted w; trace := trace w |}.

Definition set_socket_of_order (x : list (string * SocketId)) (w : World) : World :=
  {| now := now w; rows := rows w; db_outage := db_outage w; logs := logs w;
     listeners := listeners w; sockets := sockets w; socket_of_order := x;
     queue := queue w; uuid := uuid w; minted := minted w; trace := trace w |}.

Definition set_queue (x : list Submission) (w : World) : World :=
  {| now := now w; rows := rows w; db_outage := db_outage w; logs := logs w;
     listeners := listeners w; sockets := sockets w;
     socket_of_order := socket_of_order w; queue := x; uuid := uuid w;
     minted := minted w; trace := trace w |}.

Definition set_minted (x : nat) (w : World) : World :=
  {| now := now w; rows := rows w; db_outage := db_outage w; logs := logs w;
     listeners := listeners w; sockets := sockets w;
     socket_of_order := socket_of_order w; queue := queue w; uuid := uuid w;
     minted := x; trace := trace w |}.

Definition record (e : Effect) (w : World) : World :=
  {| now := now w; rows := rows w; db_outage := db_outage w; logs := logs w;
     listeners := listeners w; sockets := sockets w;
     socket_of_order := socket_of_order w; queue := queue w; uuid := uuid w;
     minted := minted w; trace := trace w ++ [e] |}.

(** Computations that read and write the process state and either return
    or throw. *)
Inductive Res (A : Type) : Type :=
| Ok (a : A)
| Throw (e : JsError).

Arguments Ok {A} a.
Arguments Throw {A} e.

Definition M (A : Type) : Type := World -> Res A * World.

Definition ret {A} (a : A) : M A := fun w => (Ok a, w).

Definition throw {A} (e : JsError) : M A := fun w => (Throw e, w).

Definition bind {A B} (c : M A) (k : A -> M B) : M B :=
  fun w =>
    match c w with
    | (Ok a, w') => k a w'
    | (Throw e, w') => (Throw e, w')
    end.

(** [try { c } catch (err) { h err }] *)
Definition try_catch {A} (c : M A) (h : JsError -> M A) : M A :=
  fun w =>
    match c w with
    | (Ok a, w') => (Ok a, w')
    | (Throw e, w') => h e w'
    end.

Definition modify (f : World -> World) : M unit := fun w => (Ok tt, f w).

Definition read {A} (f : World -> A) : M A := fun w => (Ok (f w), w).

Definition of_sum {A} (r : JsError + A) : M A :=
  match r with
  | inl e => throw e
  | inr a => ret a
  end.

(** [await sleep(ms)] *)
Definition sleep (ms : N) : M unit := modify (fun w => set_now (now w + ms)%N w).

(** Run [c] and hand its outcome, returned or thrown, to the caller. *)
Definition settle {A} (c : M A) : M (Res A) :=
  fun w => (Ok (fst (c w)), snd (c w)).

Definition result {A} (c : M A) (w : World) : Res A := fst (c w).
Definition after {A} (c : M A) (w : World) : World := snd (c w).

End Runtime.

Declare Scope effect_scope.
Delimit Scope effect_scope with effect.
Notation "x <- c ;; k" := (Runtime.bind c (fun x => k))
(at level 61, c at next level, right associativity) : effect_scope.
Notation "c ;; k" := (Runtime.bind c (fun _ => k))
(at level 61, right associativity) : effect_scope.

(* ===================================================================== *)
(** ** src/utils/logger.ts *)
(* ===================================================================== *)

Module Logger.

Import Js Types Runtime.
Local Open Scope string_scope.
Local Open Scope effect_scope.

Definition logRouting (orderId : string) (event : string) (data : option Json)
  : M unit :=
  t <- read now ;;
  let entry := {| timestamp := t; l_orderId := orderId; event := event;
                  data := data |} in
  modify (fun w => record (ELog entry) (set_logs (logs w ++ [entry]) w)).

Definition getLogs (orderId : option string) (w : World) : list LogEntry :=
  if truthy_str orderId
  then filter (fun l => String.eqb (l_orderId l) (match orderId with
                                                  | Some i => i
                                                  | None => ""
                                                  end)) (logs w)
  else logs w.

Definition clearLogs : M unit := modify (set_logs []).

End Logger.

(* ===================================================================== *)
(** ** src/db/database.ts over src/db/schema.sql *)
(* ===================================================================== *)

Module Database.

Import Js Types Runtime.
Local Open Scope string_scope.
Local Open Scope effect_scope.

Definition has_order (oid : string) (table : list Row) : bool :=
  existsb (fun r => String.eqb (order_id r) oid) table.

Definition or_else {A} (new old : option A) : option A :=
  match new with
  | Some _ => new
  | None => old
  end.

(** [UPDATE orders SET status = $2, updated_at = CURRENT_TIMESTAMP, ...
     WHERE order_id = $1] applied to one row; a column that is not in the
    SET list keeps its value. *)
Definition update_row (t : N) (oid st : string) (dex tx : option string)
           (px : option Q) (err : option string) (r : Row) : Row :=
  if String.eqb (order_id r) oid then
    {| order_id := order_id r; token_in := token_in r; token_out := token_out r;
       r_amount := r_amount r; order_type := order_type r;
       status := st;
       chosen_dex := or_else dex (chosen_dex r);
       tx_hash := or_else tx (tx_hash r);
       executed_price := or_else px (executed_price r);
       error_message := or_else err (error_message r);
       created_at := created_at r;
       updated_at := t |}
  else r.

(** The effect of one statement on the table at time [t].
    [order_id] is [UNIQUE]; [ON CONFLICT (order_id) DO NOTHING] skips the
    insert when a row with that [order_id] exists. *)
Definition run_query (t : N) (q : Query) (table : list Row) : list Row :=
  match q with
  | InsertOrder oid tin tout amt otype st created =>
      if has_order oid table then table
      else table ++ [{| order_id := oid; token_in := tin; token_out := tout;
                        r_amount := amt; order_type := otype; status := st;
                        chosen_dex := None; tx_hash := None;
                        executed_price := None; error_message := None;
                        created_at := created; updated_at := t |}]
  | UpdateOrder oid st dex tx px err =>
      map (update_row t oid st dex tx px err) table
  end.

(** [await pool.query(...)]: the statement either takes effect or the call
    rejects and the table is as before.  Whether it rejects is not under
    the program's control; [db_outage] lists, for the calls still to come,
    which ones reject. *)
Definition pool_query (q : Query) : M unit :=
  fun w =>
    let failed := match db_outage w with
                  | b :: _ => b
                  | [] => false
                  end in
    let w1 := set_db_outage (tl (db_outage w)) w in
    if failed
    then (Throw {| message := "query failed" |}, record (EQuery q false) w1)
    else (Ok tt, record (EQuery q true) (set_rows (run_query (now w) q (rows w)) w1)).

Definition console_error (label : string) : M unit :=
  modify (record (EConsoleError label)).

Definition saveOrder (order : Order) : M unit :=
  try_catch
    (t <- read now ;;
     pool_query (InsertOrder (orderId order) (tokenIn order) (tokenOut order)
                             (amount order) (type order) "pending"
                             (match createdAt order with
                              | Some c => c
                              | None => t
                              end)))
    (fun err => console_error "Save order error:").

(** The optional third argument of [updateOrderStatus]. *)
Record StatusData : Type := {
  chosenDex : option string;
  d_txHash : option string;
  d_executedPrice : option Q;
  error : option string
}.

Definition no_data : StatusData :=
  {| chosenDex := None; d_txHash := None; d_executedPrice := None; error := None |}.

(** [if (data?.field) { updates.push(...) }]: the column is set only for a
    non-empty string. *)
Definition if_truthy (s : option string) : option string :=
  if truthy_str s then s else None.

Definition updateOrderStatus (orderId : string) (status : string)
           (data : option StatusData) : M unit :=
  try_catch
    (let d := match data with
              | Some d => d
              | None => no_data
              end in
     pool_query (UpdateOrder orderId status
                             (if_truthy (chosenDex d))
                             (if_truthy (d_txHash d))
                             (d_executedPrice d)
                             (if_truthy (error d))))
    (fun err => console_error "Update order status error:").

(** The statement either writer sends. *)
Definition insert_of (order : Order) (t : N) : Query :=
  InsertOrder (orderId order) (tokenIn order) (tokenOut order)
              (amount order) (type order) "pending"
              (match createdAt order with
               | Some c => c
               | None => t
               end).

Definition update_of (orderId status : string) (data : option StatusData) : Query :=
  let d := match data with
           | Some d => d
           | None => no_data
           end in
  UpdateOrder orderId status (if_truthy (chosenDex d)) (if_truthy (d_txHash d))
              (d_executedPrice d) (if_truthy (error d)).

(** The shape both writers share: one statement inside [try], a
    [console.error] inside [catch]. *)
Definition guarded (q : Query) (label : string) : M unit :=
  try_catch (pool_query q) (fun err => console_error label).

Definition outage_now (w : World) : bool :=
  match db_outage w with
  | b :: _ => b
  | [] => false
  end.

Definition getOrder (orderId : string) (w : World) : option Row :=
  find (fun r => String.eqb (order_id r) orderId) (rows w).

End Database.

(* ===================================================================== *)
(** ** The [orderEvents] emitter *)
(* ===================================================================== *)

Module Bus.

Import Js Types Runtime.
Local Open Scope string_scope.
Local Open Scope effect_scope.

Fixpoint lookup_socket (s : SocketId) (l : list (SocketId * Socket)) : option Socket :=
  match l with
  | [] => None
  | (s', x) :: rest => if Nat.eqb s s' then Some x else lookup_socket s rest
  end.

Fixpoint update_socket (s : SocketId) (f : Socket -> Socket)
         (l : list (SocketId * Socket)) : list (SocketId * Socket) :=
  match l with
  | [] => []
  | (s', x) :: rest =>
      if Nat.eqb s s' then (s', f x) :: rest
      else (s', x) :: update_socket s f rest
  end.

Definition push_outbox (msg : Json) (x : Socket) : Socket :=
  {| is_open := is_open x; outbox := outbox x ++ [msg];
     subscribedId := subscribedId x; on_close := on_close x |}.

(** [socket.send(JSON.stringify(msg))]; the message is kept as the value
    that is serialised. *)
Definition socket_send (s : SocketId) (msg : Json) : M unit :=
  modify (fun w => set_sockets (update_socket s (push_outbox msg) (sockets w)) w).

Definition socket_is_open (s : SocketId) (w : World) : bool :=
  match lookup_socket s (sockets w) with
  | Some x => is_open x
  | None => false
  end.

(** The closure [handler] of controller.ts:
    [if (socket.readyState === socket.OPEN) socket.send({...ev, orderId})] *)
Definition run_listener (l : Listener) (ev : Json) : M unit :=
  is_open <- read (socket_is_open (h_socket l)) ;;
  if is_open
  then socket_send (h_socket l) (spread_with ev "orderId" (JStr (h_orderId l)))
  else ret tt.

Fixpoint run_listeners (ls : list Listener) (ev : Json) : M unit :=
  match ls with
  | [] => ret tt
  | l :: rest => run_listener l ev ;; run_listeners rest ev
  end.

(** [orderEvents.emit(name, ev)]: the listeners registered under [name]
    are called synchronously, in registration order.  The worker emits
    under order ids only, which the gateway takes from [genId]; the name
    ["error"], for which an emitter without a listener throws, is not among
    them. *)
Definition emit (name : string) (ev : Json) : M unit :=
  modify (record (EEmit name ev)) ;;
  ls <- read (fun w => filter (fun l => String.eqb (on_event l) name) (listeners w)) ;;
  run_listeners ls ev.

(** Whether the emitter has a listener under [name]. *)
Definition has_listener (name : string) (w : World) : bool :=
  existsb (fun l => String.eqb (on_event l) name) (listeners w).

(** [orderEvents.on(name, handler)].  An emitter that has listeners under
    ["newListener"] first emits that event, with the name and the listener
    that is about to be added; a [handler] of controller.ts registered
    under that name takes the name for its [ev]. *)
Definition on (l : Listener) : M unit :=
  announce <- read (has_listener "newListener") ;;
  (if announce then emit "newListener" (JStr (on_event l)) else ret tt) ;;
  modify (fun w => set_listeners (listeners w ++ [l]) w).

(** Whether two listeners are the same function.  Every subscribe message
    creates its own closure; one is told from another here by its socket
    and order id.  Two messages of one socket for one id give closures that
    are not told apart, which is harmless: they are registered under the
    same name, and each [off] removes one of them. *)
Definition same_handler (a b : Listener) : bool :=
  Nat.eqb (h_socket a) (h_socket b) && String.eqb (h_orderId a) (h_orderId b).

Fixpoint remove_first (name : string) (h : Listener) (ls : list Listener)
  : list Listener :=
  match ls with
  | [] => []
  | l :: rest =>
      if String.eqb (on_event l) name && same_handler l h then rest
      else l :: remove_first name h rest
  end.

Definition registered (name : string) (h : Listener) (w : World) : bool :=
  existsb (fun l => String.eqb (on_event l) name && same_handler l h) (listeners w).

(** [orderEvents.off(name, handler)].  When a listener was removed, an
    emitter that has listeners under ["removeListener"] emits that event,
    with the name and the removed listener. *)
Definition off (name : string) (h : Listener) : M unit :=
  found <- read (registered name h) ;;
  if found then
    modify (fun w => set_listeners (remove_first name h (listeners w)) w) ;;
    observed <- read (has_listener "removeListener") ;;
    if observed then emit "removeListener" (JStr name) else ret tt
  else ret tt.

End Bus.

(* ===================================================================== *)
(** ** src/orders/worker.ts *)
(* ===================================================================== *)

Module Worker.

Import Js Types MockDex Runtime Logger Database Bus.
Local Open Scope string_scope.
Local Open Scope effect_scope.

(** Everything one run of the handler draws from [Math.random()]. *)
Record Draws : Type := {
  rq : QuoteDraws;
  mq : QuoteDraws;
  sw : SwapDraws
}.

(** [rQ.price >= mQ.price ? rQ : mQ] *)
Definition choose (rQ mQ : DexQuote) : DexQuote :=
  if Qle_bool (price mQ) (price rQ) then rQ else mQ.

Definition quote_json (q : DexQuote) : Json :=
  JObj [("price", JNum (price q)); ("fee", JNum (fee q))].

Definition comparison (rQ mQ chosen : DexQuote) : Json :=
  JObj [("raydium", quote_json rQ);
        ("meteora", quote_json mQ);
        ("chosen", JStr (dex_name (dex chosen)));
        ("reason", JStr ("Better price: " ++ toFixed 4 (price chosen)))].

(** [Promise.all] of the two quote calls: both start at once and the
    handler resumes when the slower one has returned. *)
Definition fetch_quotes (d : Draws) (order : Order) : M (DexQuote * DexQuote) :=
  sleep (N.max (raydium_sleep (rq d)) (meteora_sleep (mq d))) ;;
  ret (getRaydiumQuote (rq d) (tokenIn order) (tokenOut order) (amount order),
       getMeteoraQuote (mq d) (tokenIn order) (tokenOut order) (amount order)).

Definition execute_swap (d : Draws) (venue : Dex) (order : Order) : M SwapResult :=
  sleep (swap_sleep (sw d)) ;;
  t <- read now ;;
  of_sum (executeSwap (sw d) t venue order).

Definition status_only (st id : string) : Json :=
  JObj [("status", JStr st); ("orderId", JStr id)].

Definition status_with (st id : string) (metadata : list (string * Json)) : Json :=
  JObj [("status", JStr st); ("orderId", JStr id); ("metadata", JObj metadata)].

Definition failed_event (id errorMsg : string) : Json :=
  status_with "failed" id [("error", JStr errorMsg)].

Definition error_data (errorMsg : string) : StatusData :=
  {| chosenDex := None; d_txHash := None; d_executedPrice := None;
     error := Some errorMsg |}.

(** The body of the [try] block of the job handler. *)
Definition lifecycle (d : Draws) (order : Order) : M SwapResult :=
  let id := orderId order in
  saveOrder order ;;
  updateOrderStatus id "pending" None ;;
  emit id (status_only "routing" id) ;;
  updateOrderStatus id "routing" None ;;
  logRouting id "Starting DEX routing"
    (Some (JObj [("tokenIn", JStr (tokenIn order));
                 ("tokenOut", JStr (tokenOut order));
                 ("amount", JNum (amount order))])) ;;
  quotes <- fetch_quotes d order ;;
  let rQ := fst quotes in
  let mQ := snd quotes in
  let chosen := choose rQ mQ in
  logRouting id "DEX comparison completed" (Some (comparison rQ mQ chosen)) ;;
  emit id (status_with "building" id
             [("dex", JStr (dex_name (dex chosen))); ("price", JNum (price chosen))]) ;;
  updateOrderStatus id "building"
    (Some {| chosenDex := Some (dex_name (dex chosen)); d_txHash := None;
             d_executedPrice := None; error := None |}) ;;
  logRouting id "Building transaction"
    (Some (JObj [("dex", JStr (dex_name (dex chosen)))])) ;;
  emit id (status_with "submitted" id [("dex", JStr (dex_name (dex chosen)))]) ;;
  updateOrderStatus id "submitted" None ;;
  logRouting id "Transaction submitted to network"
    (Some (JObj [("dex", JStr (dex_name (dex chosen)))])) ;;
  res <- execute_swap d (dex chosen) order ;;
  emit id (status_with "confirmed" id
             [("txHash", JStr (txHash res));
              ("executedPrice", JNum (executedPrice res));
              ("dex", JStr (dex_name (dex chosen)))]) ;;
  updateOrderStatus id "confirmed"
    (Some {| chosenDex := None; d_txHash := Some (txHash res);
             d_executedPrice := Some (executedPrice res); error := None |}) ;;
  logRouting id "Transaction confirmed"
    (Some (JObj [("txHash", JStr (txHash res));
                 ("executedPrice", JNum (executedPrice res))])) ;;
  ret res.

(** The [catch] block of the job handler. *)
Definition on_error (order : Order) (err : JsError) : M SwapResult :=
  let id := orderId order in
  let errorMsg := error_text err in
  emit id (failed_event id errorMsg) ;;
  updateOrderStatus id "failed" (Some (error_data errorMsg)) ;;
  logRouting id "Transaction failed" (Some (JObj [("error", JStr errorMsg)])) ;;
  throw err.

(** The processor given to [new Worker('orders', ...)]. *)
Definition handler (d : Draws) (job : Job) : M SwapResult :=
  let order := job_data job in
  try_catch (lifecycle d order) (on_error order).

(** [worker.on('failed', (job, err) => ...)].  The call of
    [updateOrderStatus] is not awaited; its statement is issued at that
    point of the listener and is modelled as taking effect there. *)
Definition on_failed (job : option Job) (err : JsError) : M unit :=
  match job with
  | Some j =>
      if truthy_str (Some (orderId (job_data j))) then
        let id := orderId (job_data j) in
        let errorMsg := error_text err in
        emit id (failed_event id errorMsg) ;;
        updateOrderStatus id "failed" (Some (error_data errorMsg)) ;;
        logRouting id "Job failed after retries" (Some (JObj [("error", JStr errorMsg)]))
      else ret tt
  | None => ret tt
  end.

(** The options of the worker. *)
Definition concurrency : nat := 10.
Definition limiter_max : nat := 100.
Definition limiter_duration : N := 60000.

End Worker.

(* ===================================================================== *)
(** ** src/orders/controller.ts *)
(* ===================================================================== *)

Module Controller.

Import Js Types Runtime Logger Database Bus.
Local Open Scope string_scope.
Local Open Scope effect_scope.

Inductive Reply : Type :=
| BadRequest (code : nat) (error : string)
| Accepted (code : nat) (orderId : string) (ws : string).

(** Modelled from the spec: [genId] of src/utils/id.ts, which is not among
    the sources.  It "generates a globally-unique opaque id
    (cryptographically random, effectively collision-free)": each call
    yields the next identifier of the environment's supply. *)
Definition genId : M string :=
  n <- read minted ;;
  id <- read (fun w => uuid w n) ;;
  modify (set_minted (S n)) ;;
  ret id.

(** [ordersQueue.add(name, data, opts)].  The connection to the queue is
    opened with [maxRetriesPerRequest: null], with which a command waits
    for the connection rather than fail; the call is taken to return. *)
Definition queue_add (name : string) (data : Payload) (o : JobOpts) : M unit :=
  modify (fun w => set_queue (queue w ++ [{| sub_name := name; sub_data := data;
                                             sub_opts := o |}]) w).

(** The guard of the route, negated:
    [!body || !body.tokenIn || !body.tokenOut || !body.amount].  The body
    is the JSON value of the request, [None] when there is none; a value
    that is no object has no properties of these names. *)
Definition valid (body : option Json) : bool :=
  match body with
  | None => false
  | Some b => truthy b && truthy_opt (get "tokenIn" b)
              && truthy_opt (get "tokenOut" b) && truthy_opt (get "amount" b)
  end.

(** [POST /api/orders/execute] *)
Definition post_execute (body : option Json) : M Reply :=
  match body with
  | Some b =>
      if valid body then
        orderId <- genId ;;
        t <- read now ;;
        let order := {| p_orderId := orderId;
                        p_tokenIn := get "tokenIn" b;
                        p_tokenOut := get "tokenOut" b;
                        p_amount := Number (get "amount" b);
                        p_type := or_default (get "type" b) (JStr "market");
                        p_createdAt := t |} in
        queue_add "exec" order
                  {| jobId := orderId; attempts := 3;
                     backoff_type := exponential; backoff_delay := 1000 |} ;;
        ret (Accepted 202 orderId "/api/orders/execute (websocket)")
      else ret (BadRequest 400 "tokenIn, tokenOut and amount required")
  | None => ret (BadRequest 400 "tokenIn, tokenOut and amount required")
  end.

Definition set_subscribed (id : string) (x : Socket) : Socket :=
  {| is_open := is_open x; outbox := outbox x; subscribedId := Some id;
     on_close := on_close x |}.

Definition add_on_close (l : Listener) (x : Socket) : Socket :=
  {| is_open := is_open x; outbox := outbox x; subscribedId := subscribedId x;
     on_close := on_close x ++ [l] |}.

Definition close_socket (x : Socket) : Socket :=
  {| is_open := false; outbox := outbox x; subscribedId := subscribedId x;
     on_close := on_close x |}.

Definition map_set (k : string) (s : SocketId) (m : list (string * SocketId))
  : list (string * SocketId) :=
  (k, s) :: filter (fun e => negb (String.eqb (fst e) k)) m.

Definition map_delete (k : string) (m : list (string * SocketId))
  : list (string * SocketId) :=
  filter (fun e => negb (String.eqb (fst e) k)) m.

(** [socket.on('message', ...)] of the websocket route.  [msg] is the
    result of [JSON.parse]: [None] when it throws. *)
Definition ws_message (s : SocketId) (msg : option Json) : M unit :=
  match msg with
  | None => socket_send s (JObj [("error", JStr "invalid subscribe payload")])
  | Some JNull => socket_send s (JObj [("error", JStr "invalid subscribe payload")])
  | Some data =>
      match get "orderId" data with
      | Some (JStr orderId) =>
          if truthy_str (Some orderId) then
            let h := {| on_event := orderId; h_socket := s; h_orderId := orderId |} in
            modify (fun w => set_sockets (update_socket s (set_subscribed orderId)
                                                        (sockets w)) w) ;;
            modify (fun w => set_socket_of_order
                               (map_set orderId s (socket_of_order w)) w) ;;
            socket_send s (JObj [("status", JStr "pending"); ("orderId", JStr orderId)]) ;;
            on h ;;
            modify (fun w => set_sockets (update_socket s (add_on_close h)
                                                        (sockets w)) w)
          else ret tt
      | _ => ret tt
      end
  end.

Fixpoint run_close (id : option string) (hs : list Listener) : M unit :=
  match hs with
  | [] => ret tt
  | h :: rest =>
      match id with
      | Some i =>
          off i h ;;
          modify (fun w => set_socket_of_order (map_delete i (socket_of_order w)) w) ;;
          run_close id rest
      | None => run_close id rest
      end
  end.

(** The client closes the connection: the socket leaves the open state
    and the registered [close] listeners run. *)
Definition ws_close (s : SocketId) : M unit :=
  x <- read (fun w => lookup_socket s (sockets w)) ;;
  match x with
  | Some sock =>
      modify (fun w => set_sockets (update_socket s close_socket (sockets w)) w) ;;
      run_close (subscribedId sock) (on_close sock)
  | None => ret tt
  end.

End Controller.

(* ===================================================================== *)
(** ** Retry policy of the queue *)
(* ===================================================================== *)

Module Dispatcher.

Import Js Types Runtime Worker.
Local Open Scope string_scope.
Local Open Scope effect_scope.

(** Modelled from the spec: the retry policy of the queue library that
    runs the worker, which is not among the sources.  "On an unrecovered
    exception from the lifecycle handler, the dispatcher schedules a retry
    with exponential backoff: delay = base x 2^(attempt-1) [...] total
    attempts capped [...]; after the cap the job is marked permanently
    failed and is never retried again.  A retried attempt restarts the
    lifecycle fully from pending."  The base and the cap are the job's
    [backoff_delay] and [attempts] options. *)
Definition backoff (o : JobOpts) (attempt : nat) : N :=
  match backoff_type o with
  | fixed => backoff_delay o
  | exponential => (backoff_delay o * 2 ^ N.of_nat (attempt - 1))%N
  end.

(** Modelled from the spec: how the queue library, which is not among the
    sources, leaves a job: completed with the handler's result, or failed
    for good with the error of the last attempt. *)
Inductive Outcome : Type :=
| Completed (res : SwapResult)
| Failed (err : JsError).

(** Modelled from the spec: attempt number [attempt] of a job that may
    still be attempted [S remaining'] times.  [draws k] is what the [k]-th
    run of the handler draws.  The worker's [failed] listeners are
    notified of every attempt that throws. *)
Fixpoint run_attempts (remaining attempt : nat) (draws : nat -> Draws) (job : Job)
  : M Outcome :=
  match remaining with
  | O => ret (Failed {| message := "no attempts left" |})
  | S remaining' =>
      modify (record (EAttempt (jobId (opts job)) attempt)) ;;
      r <- settle (handler (draws attempt) job) ;;
      match r with
      | Ok res => ret (Completed res)
      | Throw err =>
          on_failed (Some job) err ;;
          match remaining' with
          | O => ret (Failed err)
          | S _ =>
              let delay := backoff (opts job) attempt in
              modify (record (ERetryIn (jobId (opts job)) delay)) ;;
              sleep delay ;;
              run_attempts remaining' (S attempt) draws job
          end
      end
  end.

(** Modelled from the spec: the life of a job in the queue library, which
    is not among the sources.  The attempts are capped by the job's
    [attempts] option; a job is attempted at least once. *)
Definition process (draws : nat -> Draws) (job : Job) : M Outcome :=
  run_attempts (Nat.max 1 (attempts (opts job))) 1 draws job.

End Dispatcher.

(* ===================================================================== *)
(** ** Admission control of the queue *)
(* ===================================================================== *)

Module Admission.

Import Runtime Worker.

(** Modelled from the spec: the admission policy of the queue library that
    runs the worker, which is not among the sources; worker.ts only sets
    its parameters ([concurrency: 10], [limiter: { max: 100, duration:
    60000 }]).  "The dispatcher admits jobs for execution only when BOTH
    gates pass: Concurrency gate: fewer than N jobs are currently
    executing.  Rate gate: fewer than R job starts have occurred in the
    trailing 60-second window.  Jobs that cannot be admitted remain queued;
    none are dropped."  A job that is executing is in one of the phases the
    handler goes through. *)
Inductive Phase : Type := Routing | Building | Submitted.

(** Modelled from the spec: what the dispatcher of the queue library, which
    is not among the sources, keeps: the clock, the jobs that wait (new ones
    and scheduled retries), the jobs being run, the instants at which jobs
    were started, and the jobs that are done. *)
Record State : Type := {
  clock : N;
  waiting : list string;
  active : list (string * Phase);
  starts : list N;
  finished : list string
}.

Inductive Action : Type :=
| Enqueue (job : string)
| Pull
| Advance (job : string)
| Complete (job : string)
| Retry (job : string)
| Tick (ms : N).

Definition initial : State :=
  {| clock := 0; waiting := []; active := []; starts := []; finished := [] |}.

(** A start at [s] lies in the window of length [limiter_duration] that ends
    at [t]. *)
Definition in_window (t s : N) : bool :=
  ((s <=? t) && (t <? s + limiter_duration))%N.

Definition recent_starts (t : N) (l : list N) : nat :=
  List.length (filter (in_window t) l).

(** Modelled from the spec: "fewer than N jobs are currently executing". *)
Definition concurrency_gate (st : State) : bool :=
  Nat.ltb (List.length (active st)) concurrency.

(** Modelled from the spec: "fewer than R job starts have occurred in the
    trailing 60-second window". *)
Definition rate_gate (st : State) : bool :=
  Nat.ltb (recent_starts (clock st) (starts st)) limiter_max.

Definition is_active (job : string) (st : State) : bool :=
  existsb (fun a => String.eqb (fst a) job) (active st).

(** The first task that runs [job] leaves the pool. *)
Fixpoint drop_active (job : string) (l : list (string * Phase))
  : list (string * Phase) :=
  match l with
  | [] => []
  | a :: rest => if String.eqb (fst a) job then rest else a :: drop_active job rest
  end.

Definition next_phase (p : Phase) : Phase :=
  match p with
  | Routing => Building
  | Building => Submitted
  | Submitted => Submitted
  end.

Definition advance (job : string) (a : string * Phase) : string * Phase :=
  if String.eqb (fst a) job then (fst a, next_phase (snd a)) else a.

(** Modelled from the spec: one step of the dispatcher of the queue library,
    which is not among the sources.  A job is pulled from the head of the
    queue "only when BOTH gates pass", and otherwise "remains queued". *)
Definition step (st : State) (a : Action) : State :=
  match a with
  | Enqueue job =>
      {| clock := clock st; waiting := waiting st ++ [job]; active := active st;
         starts := starts st; finished := finished st |}
  | Pull =>
      match waiting st with
      | job :: rest =>
          if concurrency_gate st && rate_gate st then
            {| clock := clock st; waiting := rest;
               active := active st ++ [(job, Routing)];
               starts := clock st :: starts st; finished := finished st |}
          else st
      | [] => st
      end
  | Advance job =>
      {| clock := clock st; waiting := waiting st;
         active := map (advance job) (active st);
         starts := starts st; finished := finished st |}
  | Complete job =>
      if is_active job st then
        {| clock := clock st; waiting := waiting st;
           active := drop_active job (active st);
           starts := starts st; finished := finished st ++ [job] |}
      else st
  | Retry job =>
      if is_active job st then
        {| clock := clock st; waiting := waiting st ++ [job];
           active := drop_active job (active st);
           starts := starts st; finished := finished st |}
      else st
  | Tick ms =>
      {| clock := (clock st + ms)%N; waiting := waiting st; active := active st;
         starts := starts st; finished := finished st |}
  end.

Definition run (acts : list Action) : State := fold_left step acts initial.

Definition executing (st : State) : nat :=
  List.length (filter (fun a => match snd a with
                           | Routing => false
                           | _ => true
                           end) (active st)).

Fixpoint enqueued (acts : list Action) : list string :=
  match acts with
  | [] => []
  | Enqueue job :: rest => job :: enqueued rest
  | _ :: rest => enqueued rest
  end.

(** What holds of every state the dispatcher can be in. *)
Record Inv (st : State) : Prop := {
  inv_active : (List.length (active st) <= concurrency)%nat;
  inv_past : forall s, In s (starts st) -> (s <= clock st)%N;
  inv_rate : forall t, (recent_starts t (starts st) <= limiter_max)%nat
}.

(** The jobs a state knows of. *)
Definition jobs (st : State) : list string :=
  waiting st ++ map fst (active st) ++ finished st.

End Admission.

(* ===================================================================== *)
(** ** Observations on a run *)
(* ===================================================================== *)

Module Observe.

Import Js Types MockDex Runtime Database Bus Worker Controller.
Local Open Scope string_scope.






(** The job the gateway enqueues for an order. *)
Definition job_for (order : Order) : Job :=
  {| job_name := "exec"; job_data := order;
     opts := {| jobId := orderId order; attempts := 3;
                backoff_type := exponential; backoff_delay := 1000 |} |}.





(** The lifecycle-relevant part of an effect: an event published under a
    name with a status, or a statement issued for an order. *)
Inductive Step : Type :=
| Publish (name status : string)
| Persist (oid status : string)
| Insert (oid : string).

Definition status_of (ev : Json) : string :=
  match get "status" ev with
  | Some (JStr st) => st
  | _ => ""
  end.

Definition step_of (e : Effect) : list Step :=
  match e with
  | EEmit name ev => [Publish name (status_of ev)]
  | EQuery (UpdateOrder oid st _ _ _ _) _ => [Persist oid st]
  | EQuery (InsertOrder oid _ _ _ _ _ _) _ => [Insert oid]
  | _ => []
  end.

Definition steps (t : list Effect) : list Step := flat_map step_of t.

(** The statuses published for order [id], oldest first. *)
Definition published_of (id : string) (e : Effect) : list string :=
  match e with
  | EEmit name ev => if String.eqb name id then [status_of ev] else []
  | _ => []
  end.

Definition published (id : string) (t : list Effect) : list string :=
  flat_map (published_of id) t.

Definition events_of (id : string) (e : Effect) : list Json :=
  match e with
  | EEmit name ev => if String.eqb name id then [ev] else []
  | _ => []
  end.

Definition events (id : string) (t : list Effect) : list Json :=
  flat_map (events_of id) t.

Definition terminal (st : string) : bool :=
  String.eqb st "confirmed" || String.eqb st "failed".

Definition attempt_of (id : string) (e : Effect) : list nat :=
  match e with
  | EAttempt j k => if String.eqb j id then [k] else []
  | _ => []
  end.

(** The attempts started for job [id], oldest first. *)
Definition attempts_made (id : string) (t : list Effect) : list nat :=
  flat_map (attempt_of id) t.

Definition delay_of (id : string) (e : Effect) : list N :=
  match e with
  | ERetryIn j d => if String.eqb j id then [d] else []
  | _ => []
  end.

(** The delays of the retries scheduled for job [id], oldest first. *)
Definition retry_delays (id : string) (t : list Effect) : list N :=
  flat_map (delay_of id) t.

Definition log_of (e : Effect) : list LogEntry :=
  match e with
  | ELog entry => [entry]
  | _ => []
  end.

Definition sent (s : SocketId) (w : World) : list Json :=
  match lookup_socket s (sockets w) with
  | Some x => outbox x
  | None => []
  end.

(** What a write to the table leaves in the trace: the statement, and the
    [console.error] of the [catch] block when the pool rejected it. *)
Definition db_effects (q : Query) (label : string) (outage : list bool) : list Effect :=
  match outage with
  | true :: _ => [EQuery q false; EConsoleError label]
  | _ => [EQuery q true]
  end.

(** The two quotes a run of the handler obtains, and the one it picks. *)
Definition raydium_quote (d : Draws) (o : Order) : DexQuote :=
  getRaydiumQuote (rq d) (tokenIn o) (tokenOut o) (amount o).

Definition meteora_quote (d : Draws) (o : Order) : DexQuote :=
  getMeteoraQuote (mq d) (tokenIn o) (tokenOut o) (amount o).

Definition chosen_of (d : Draws) (o : Order) : DexQuote :=
  choose (raydium_quote d o) (meteora_quote d o).

Definition quote_wait (d : Draws) : N :=
  N.max (raydium_sleep (rq d)) (meteora_sleep (mq d)).

(** The instant at which [executeSwap] has finished sleeping, for a handler
    started at [t]. *)
Definition swap_time (d : Draws) (t : N) : N := (t + quote_wait d + swap_sleep (sw d))%N.

Definition swap_of (d : Draws) (o : Order) (t : N) : JsError + SwapResult :=
  executeSwap (sw d) (swap_time d t) (dex (chosen_of d o)) o.

(** Whether the draw of [executeSwap] makes it throw. *)
Definition fails (d : Draws) : bool := negb (Qle_bool (lit (2 # 100)) (s_fail (sw d))).

Definition network_failure : JsError :=
  {| message := "Simulated network execution failure" |}.

Definition log_entry (t : N) (id ev : string) (fields : list (string * Json)) : Effect :=
  ELog {| timestamp := t; l_orderId := id; event := ev; data := Some (JObj fields) |}.

Definition update_label : string := "Update order status error:".

Definition save_label : string := "Save order error:".

(** The effects of a run of the handler up to the call of [executeSwap],
    for a run that starts at [t] with the outages [o] ahead. *)
Definition routing_effects (d : Draws) (order : Order) (t : N) (o : list bool)
  : list Effect :=
  let id := orderId order in
  let chosen := chosen_of d order in
  let venue := JStr (dex_name (dex chosen)) in
  db_effects (insert_of order t) save_label o
  ++ db_effects (update_of id "pending" None) update_label (tl o)
  ++ [EEmit id (status_only "routing" id)]
  ++ db_effects (update_of id "routing" None) update_label (tl (tl o))
  ++ [log_entry t id "Starting DEX routing"
        [("tokenIn", JStr (tokenIn order)); ("tokenOut", JStr (tokenOut order));
         ("amount", JNum (amount order))]]
  ++ [ELog {| timestamp := (t + quote_wait d)%N; l_orderId := id;
              event := "DEX comparison completed";
              data := Some (comparison (raydium_quote d order)
                                       (meteora_quote d order) chosen) |}]
  ++ [EEmit id (status_with "building" id [("dex", venue); ("price", JNum (price chosen))])]
  ++ db_effects (update_of id "building"
                   (Some {| chosenDex := Some (dex_name (dex chosen)); d_txHash := None;
                            d_executedPrice := None; error := None |}))
                update_label (tl (tl (tl o)))
  ++ [log_entry (t + quote_wait d) id "Building transaction" [("dex", venue)]]
  ++ [EEmit id (status_with "submitted" id [("dex", venue)])]
  ++ db_effects (update_of id "submitted" None) update_label (tl (tl (tl (tl o))))
  ++ [log_entry (t + quote_wait d) id "Transaction submitted to network" [("dex", venue)]].

(** The effects after [executeSwap] has returned [res]. *)
Definition confirmed_effects (d : Draws) (order : Order) (res : SwapResult)
           (t : N) (o : list bool) : list Effect :=
  let id := orderId order in
  [EEmit id (status_with "confirmed" id
               [("txHash", JStr (txHash res));
                ("executedPrice", JNum (executedPrice res));
                ("dex", JStr (dex_name (dex (chosen_of d order))))])]
  ++ db_effects (update_of id "confirmed"
                   (Some {| chosenDex := None; d_txHash := Some (txHash res);
                            d_executedPrice := Some (executedPrice res);
                            error := None |}))
                update_label o
  ++ [log_entry t id "Transaction confirmed"
        [("txHash", JStr (txHash res)); ("executedPrice", JNum (executedPrice res))]].

(** The effects of reporting a failure, by the [catch] block or by the
    [failed] listener, told apart by the log line [line]. *)
Definition failed_effects (id : string) (err : JsError) (line : string)
           (t : N) (o : list bool) : list Effect :=
  [EEmit id (failed_event id (error_text err))]
  ++ db_effects (update_of id "failed" (Some (error_data (error_text err))))
                update_label o
  ++ [log_entry t id line [("error", JStr (error_text err))]].

(** All effects of one run of the handler. *)
Definition handler_effects (d : Draws) (order : Order) (t : N) (o : list bool)
  : list Effect :=
  routing_effects d order t o
  ++ match swap_of d order t with
     | inr res => confirmed_effects d order res (swap_time d t) (tl (tl (tl (tl (tl o)))))
     | inl err => failed_effects (orderId order) err "Transaction failed"
                                 (swap_time d t) (tl (tl (tl (tl (tl o)))))
     end.

Local Open Scope effect_scope.

(** The statements of the handler before [executeSwap] decides, those after
    it has returned, and those that report a failure, as blocks of their
    own. *)
Definition prepare (d : Draws) (order : Order) : M unit :=
  let id := orderId order in
  let chosen := chosen_of d order in
  saveOrder order ;;
  updateOrderStatus id "pending" None ;;
  emit id (status_only "routing" id) ;;
  updateOrderStatus id "routing" None ;;
  Logger.logRouting id "Starting DEX routing"
    (Some (JObj [("tokenIn", JStr (tokenIn order));
                 ("tokenOut", JStr (tokenOut order));
                 ("amount", JNum (amount order))])) ;;
  sleep (quote_wait d) ;;
  Logger.logRouting id "DEX comparison completed"
    (Some (comparison (raydium_quote d order) (meteora_quote d order) chosen)) ;;
  emit id (status_with "building" id
             [("dex", JStr (dex_name (dex chosen))); ("price", JNum (price chosen))]) ;;
  updateOrderStatus id "building"
    (Some {| chosenDex := Some (dex_name (dex chosen)); d_txHash := None;
             d_executedPrice := None; error := None |}) ;;
  Logger.logRouting id "Building transaction"
    (Some (JObj [("dex", JStr (dex_name (dex chosen)))])) ;;
  emit id (status_with "submitted" id [("dex", JStr (dex_name (dex chosen)))]) ;;
  updateOrderStatus id "submitted" None ;;
  Logger.logRouting id "Transaction submitted to network"
    (Some (JObj [("dex", JStr (dex_name (dex chosen)))])) ;;
  sleep (swap_sleep (sw d)).

Definition confirm (d : Draws) (order : Order) (res : SwapResult) : M unit :=
  let id := orderId order in
  emit id (status_with "confirmed" id
             [("txHash", JStr (txHash res));
              ("executedPrice", JNum (executedPrice res));
              ("dex", JStr (dex_name (dex (chosen_of d order))))]) ;;
  updateOrderStatus id "confirmed"
    (Some {| chosenDex := None; d_txHash := Some (txHash res);
             d_executedPrice := Some (executedPrice res); error := None |}) ;;
  Logger.logRouting id "Transaction confirmed"
    (Some (JObj [("txHash", JStr (txHash res));
                 ("executedPrice", JNum (executedPrice res))])).

Definition report (id : string) (err : JsError) (line : string) : M unit :=
  emit id (failed_event id (error_text err)) ;;
  updateOrderStatus id "failed" (Some (error_data (error_text err))) ;;
  Logger.logRouting id line (Some (JObj [("error", JStr (error_text err))])).

(** What the listeners of [name] on socket [s] forward when [ev] is
    emitted: one message per listener, in registration order, provided the
    socket is open. *)
Definition forwards (s : SocketId) (w : World) (name : string) (ev : Json) : list Json :=
  if socket_is_open s w
  then map (fun l => spread_with ev "orderId" (JStr (h_orderId l)))
           (filter (fun l => String.eqb (on_event l) name && Nat.eqb (h_socket l) s)
                   (listeners w))
  else [].

Definition forward_of (s : SocketId) (w : World) (e : Effect) : list Json :=
  match e with
  | EEmit name ev => forwards s w name ev
  | _ => []
  end.

(** What the [failed] listener of the worker leaves in the trace. *)
Definition notify_effects (job : Job) (err : JsError) (t : N) (o : list bool)
  : list Effect :=
  if truthy_str (Some (orderId (job_data job)))
  then failed_effects (orderId (job_data job)) err "Job failed after retries" t o
  else [].

(** How many attempts are made when [remaining] attempts are allowed from
    attempt number [attempt] on: one more as long as the attempt fails. *)
Fixpoint attempts_run (draws : nat -> Draws) (remaining attempt : nat) : nat :=
  match remaining with
  | O => O
  | S remaining' =>
      if fails (draws attempt) then S (attempts_run draws remaining' (S attempt))
      else 1%nat
  end.

Fixpoint all_fail (draws : nat -> Draws) (remaining attempt : nat) : bool :=
  match remaining with
  | O => true
  | S remaining' => fails (draws attempt) && all_fail draws remaining' (S attempt)
  end.

(** The statuses written for order [id] by [updateOrderStatus], oldest
    first. *)
Definition persisted_of (id : string) (e : Effect) : list string :=
  match e with
  | EQuery (UpdateOrder oid st _ _ _ _) _ => if String.eqb oid id then [st] else []
  | _ => []
  end.

Definition persisted (id : string) (t : list Effect) : list string :=
  flat_map (persisted_of id) t.

(** The statuses of the messages a socket was sent, oldest first. *)
Definition statuses (msgs : list Json) : list string := map status_of msgs.

(** No message follows one with a terminal status. *)
Fixpoint ends_at_terminal (sts : list string) : bool :=
  match sts with
  | [] => true
  | st :: rest => if terminal st then
                    match rest with
                    | [] => true
                    | _ :: _ => false
                    end
                  else ends_at_terminal rest
  end.

(** The columns of a row that no update statement of database.ts names. *)
Definition identity (r : Row) : string * string * string * Q * string * N :=
  (order_id r, token_in r, token_out r, r_amount r, order_type r, created_at r).

(** [order_id] is unique in a table. *)
Definition unique_ids (table : list Row) : Prop := NoDup (map order_id table).

(** The process state with another table and other outages ahead. *)
Definition with_database (table : list Row) (outage : list bool) (w : World) : World :=
  set_db_outage outage (set_rows table w).

(** Reading back what [toString(radix)] prints. *)
Definition digit_val (c : ascii) : N :=
  let k := N_of_ascii c in
  if (k <? 58)%N then (k - 48)%N else (k - 87)%N.

Fixpoint parse_radix (radix : N) (s : string) (acc : N) : N :=
  match s with
  | EmptyString => acc
  | String c rest => parse_radix radix rest (acc * radix + digit_val c)%N
  end.

Fixpoint underscore_free (s : string) : bool :=
  match s with
  | EmptyString => true
  | String c rest => negb (Ascii.eqb c "_") && underscore_free rest
  end.

(** The random part of a transaction identifier. *)
Definition hash_suffix (r : Q) : N := Z.to_N (floor (fmul r 10000)).

(** Two calls of [executeSwap]: what each draws, reads from the clock and
    is given. *)
Record SwapCall : Type := {
  c_draws : SwapDraws;
  c_now : N;
  c_venue : Dex;
  c_order : Order
}.

Definition call (c : SwapCall) : JsError + SwapResult :=
  executeSwap (c_draws c) (c_now c) (c_venue c) (c_order c).

(** A connection on which nothing has happened yet. *)
Definition fresh_socket : Socket :=
  {| is_open := true; outbox := []; subscribedId := None; on_close := [] |}.

(** The listener a subscription to [id] on socket [s] registers. *)
Definition listener_for (s : SocketId) (id : string) : Listener :=
  {| on_event := id; h_socket := s; h_orderId := id |}.

Definition pending_message (id : string) : Json :=
  JObj [("status", JStr "pending"); ("orderId", JStr id)].

(** The events of one run of the handler for [order], in order. *)
Definition run_events (d : Draws) (order : Order) (t : N) : list Json :=
  let id := orderId order in
  let chosen := chosen_of d order in
  [status_only "routing" id;
   status_with "building" id
     [("dex", JStr (dex_name (dex chosen))); ("price", JNum (price chosen))];
   status_with "submitted" id [("dex", JStr (dex_name (dex chosen)))]]
  ++ match swap_of d order t with
     | inr res => [status_with "confirmed" id
                     [("txHash", JStr (txHash res));
                      ("executedPrice", JNum (executedPrice res));
                      ("dex", JStr (dex_name (dex chosen)))]]
     | inl err => [failed_event id (error_text err)]
     end.

(** What a listener sends when it is called with [ev]. *)
Definition message_of (ev : Json) (l : Listener) : Json :=
  spread_with ev "orderId" (JStr (h_orderId l)).

End Observe.

(* ===================================================================== *)
(** ** Sample inputs *)
(* ===================================================================== *)

Module Sample.

Import Js Types MockDex Runtime Worker Controller Observe.
Local Open Scope string_scope.

(** A freshly started process with one open websocket connection. *)
Definition world : World :=
  {| now := 1000; rows := []; db_outage := []; logs := []; listeners := [];
     sockets := [(7%nat, {| is_open := true; outbox := []; subscribedId := None;
                            on_close := [] |})];
     socket_of_order := []; queue := [];
     uuid := fun n => "order-" ++ toString10 (N.of_nat n);
     minted := 0; trace := [] |}.

Definition body : Json :=
  JObj [("tokenIn", JStr "USDC"); ("tokenOut", JStr "SOL"); ("amount", JNum 100)].


(** A body whose amount is the text [value]. *)
Definition text_amount (value : string) : Json :=
  JObj [("tokenIn", JStr "USDC"); ("tokenOut", JStr "SOL"); ("amount", JStr value)].

Definition order : Order :=
  {| orderId := "order-0"; tokenIn := "USDC"; tokenOut := "SOL"; amount := 100;
     type := "market"; createdAt := Some 1000%N |}.

Definition job : Job :=
  {| job_name := "exec"; job_data := order;
     opts := {| jobId := "order-0"; attempts := 3; backoff_type := exponential;
                backoff_delay := 1000 |} |}.

(** Draws with which the swap succeeds, and draws with which it throws.
    A draw written as a decimal fraction is the double nearest to it. *)
Definition lucky : Draws :=
  {| rq := {| q_sleep := 1 # 2; q_price := 1 # 2 |};
     mq := {| q_sleep := 1 # 4; q_price := 3 # 4 |};
     sw := {| s_sleep := 1 # 2; s_fail := 1 # 2; s_price := 1 # 4;
              s_hash := lit (12341 # 100000) |} |}.

Definition unlucky : Draws :=
  {| rq := rq lucky; mq := mq lucky;
     sw := {| s_sleep := 1 # 2; s_fail := lit (1 # 100); s_price := 1 # 4;
              s_hash := lit (12341 # 100000) |} |}.

(** Draws with which both venues quote the same price. *)
Definition tie : Draws :=
  {| rq := {| q_sleep := 0; q_price := 1 # 2 |};
     mq := {| q_sleep := 0; q_price := lit (3 # 5) |};
     sw := sw lucky |}.

(** The first attempt throws, every later one succeeds. *)
Definition second_time_lucky (attempt : nat) : Draws :=
  if Nat.eqb attempt 1 then unlucky else lucky.

Definition subscribe : Json := JObj [("orderId", JStr "order-0")].

Definition other_order : Order :=
  {| orderId := "order-1"; tokenIn := "SOL"; tokenOut := "USDC"; amount := 7;
     type := "market"; createdAt := Some 1200%N |}.

(** Two calls of [executeSwap] for different orders on different venues,
    with different draws, that read the same millisecond from the clock. *)
Definition first_call : SwapCall :=
  {| c_draws := sw lucky; c_now := 3800; c_venue := meteora; c_order := order |}.

Definition second_call : SwapCall :=
  {| c_draws := {| s_sleep := lit (1 # 3); s_fail := lit (9 # 10); s_price := 3 # 4;
                   s_hash := lit (12345 # 100000) |};
     c_now := 3800; c_venue := raydium; c_order := other_order |}.

(** The sample connection subscribes to the sample order, which is then
    processed: its first attempt throws and its second succeeds. *)
Definition subscribed : World :=
  Runtime.after (ws_message 7%nat (Some subscribe)) world.

Definition retried : World :=
  Runtime.after (Dispatcher.process second_time_lucky job) subscribed.

End Sample.

(* ===================================================================== *)
(** ** The readers of src/db/database.ts *)
(* ===================================================================== *)

Module Reads.

Import Js Types Runtime Database.
Local Open Scope string_scope.
Local Open Scope effect_scope.

(** [await pool.query('SELECT ...')]: the query sees the table, or the call
    rejects; like a write it uses up one entry of [db_outage].  A read
    changes no row and is not entered in the trace, which lists what
    changes the process state. *)
Definition pool_select {A} (read : list Row -> A) : M A :=
  fun w =>
    let w1 := set_db_outage (tl (db_outage w)) w in
    if outage_now w then (Throw {| message := "query failed" |}, w1)
    else (Ok (read (rows w)), w1).

(** [SELECT * FROM orders WHERE order_id = $1] *)
Definition where_order_id (orderId : string) (table : list Row) : list Row :=
  filter (fun r => String.eqb (order_id r) orderId) table.

(** [getOrder]: [result.rows[0] || null], and [null] when the query
    rejects. *)
Definition getOrder (orderId : string) : M (option Row) :=
  try_catch
    (found <- pool_select (where_order_id orderId) ;;
     ret (hd_error found))
    (fun err => console_error "Get order error:" ;; ret None).

(** Put [r] into a list that is ordered by [created_at], newest first,
    before the first row that is not newer. *)
Fixpoint insert_desc (r : Row) (l : list Row) : list Row :=
  match l with
  | [] => [r]
  | x :: rest =>
      if (created_at x <=? created_at r)%N then r :: l
      else x :: insert_desc r rest
  end.

(** [ORDER BY created_at DESC].  SQL leaves the order of rows with equal
    [created_at] open; here they come in table order. *)
Definition order_by_created_at_desc (table : list Row) : list Row :=
  fold_right insert_desc [] table.

(** [getAllOrders(limit = 100)]: [None] is the omitted argument. *)
Definition getAllOrders (limit : option nat) : M (list Row) :=
  let n := match limit with
           | Some n => n
           | None => 100%nat
           end in
  try_catch
    (pool_select (fun table => firstn n (order_by_created_at_desc table)))
    (fun err => console_error "Get all orders error:" ;; ret []).

End Reads.

(* ===================================================================== *)
(** ** The read routes of src/orders/controller.ts *)
(* ===================================================================== *)

Module Routes.

Import Js Types Runtime Logger Reads.
Local Open Scope string_scope.
Local Open Scope effect_scope.

Inductive OrderReply : Type :=
| OrderNotFound (code : nat) (error : string)
| OrderFound (row : Row).

(** [GET /api/orders/:orderId] *)
Definition get_order (orderId : string) : M OrderReply :=
  order <- getOrder orderId ;;
  match order with
  | None => ret (OrderNotFound 404 "Order not found")
  | Some row => ret (OrderFound row)
  end.

(** [GET /api/orders] *)
Definition get_orders : M (list Row) := getAllOrders None.

(** [GET /api/logs], [orderId] being the optional query parameter. *)
Definition get_logs (orderId : option string) : M (list LogEntry) :=
  read (getLogs orderId).

End Routes.

(* ===================================================================== *)
(** ** Further observations *)
(* ===================================================================== *)

Module Views.

Import Js Types MockDex Runtime Database Bus Worker Controller Observe Reads.
Local Open Scope string_scope.

(** The store accepts every statement to come. *)
Definition healthy (w : World) : Prop := db_outage w = [].

(** The row [getOrder] would find in a table. *)
Definition row_of (id : string) (table : list Row) : option Row :=
  hd_error (where_order_id id table).

(** The row [saveOrder] inserts for an order at time [t]. *)
Definition new_row (order : Order) (t : N) : Row :=
  {| order_id := orderId order; token_in := tokenIn order; token_out := tokenOut order;
     r_amount := amount order; order_type := type order; status := "pending";
     chosen_dex := None; tx_hash := None; executed_price := None;
     error_message := None;
     created_at := match createdAt order with
                   | Some c => c
                   | None => t
                   end;
     updated_at := t |}.

(** The statements of a run of the handler that starts at [t], each with
    the time at which it is issued. *)
Definition run_writes (d : Draws) (order : Order) (t : N) : list (N * Query) :=
  let id := orderId order in
  let venue := dex_name (dex (chosen_of d order)) in
  [(t, insert_of order t);
   (t, update_of id "pending" None);
   (t, update_of id "routing" None);
   ((t + quote_wait d)%N,
    update_of id "building"
      (Some {| chosenDex := Some venue; d_txHash := None; d_executedPrice := None;
               error := None |}));
   ((t + quote_wait d)%N, update_of id "submitted" None);
   (swap_time d t,
    match swap_of d order t with
    | inr res =>
        update_of id "confirmed"
          (Some {| chosenDex := None; d_txHash := Some (txHash res);
                   d_executedPrice := Some (executedPrice res); error := None |})
    | inl err => update_of id "failed" (Some (error_data (error_text err)))
    end)].

Definition apply_writes (writes : list (N * Query)) (table : list Row) : list Row :=
  fold_left (fun tb w => run_query (fst w) (snd w) tb) writes table.

(** [b] is not newer than [a]. *)
Definition not_newer (a b : Row) : Prop := (created_at b <= created_at a)%N.

(** What the statements of a run that starts at [t] make of the order's
    row [r], apart from inserting it. *)
Definition finish (d : Draws) (order : Order) (t : N) (r : Row) : Row :=
  {| order_id := order_id r; token_in := token_in r; token_out := token_out r;
     r_amount := r_amount r; order_type := order_type r;
     status := match swap_of d order t with
               | inr _ => "confirmed"
               | inl _ => "failed"
               end;
     chosen_dex := Some (dex_name (dex (chosen_of d order)));
     tx_hash := match swap_of d order t with
                | inr res => Some (txHash res)
                | inl _ => tx_hash r
                end;
     executed_price := match swap_of d order t with
                       | inr res => Some (executedPrice res)
                       | inl _ => executed_price r
                       end;
     error_message := match swap_of d order t with
                      | inr _ => error_message r
                      | inl err => Some (error_text err)
                      end;
     created_at := created_at r;
     updated_at := swap_time d t |}.

(** What a socket is apart from what it was sent. *)
Definition channel_state (s : SocketId) (w : World)
  : option (bool * option string * list Listener) :=
  option_map (fun x => (is_open x, subscribedId x, on_close x))
             (lookup_socket s (sockets w)).

(** The listeners left when the [close] handlers registered on a socket
    have run, each calling [orderEvents.off(i, h)] for its own [h]. *)
Definition unsubscribe_all (i : string) (hs ls : list Listener) : list Listener :=
  fold_left (fun l h => remove_first i h l) hs ls.

Definition invalid_payload : Json := JObj [("error", JStr "invalid subscribe payload")].

(** A subscribe message whose [orderId] is a non-empty string. *)
Definition names_order (data : Json) : Prop :=
  exists id, get "orderId" data = Some (JStr id) /\ id <> "".

(** What the first listener of a socket forwards when the second one is
    registered: nothing, unless it listens for ["newListener"], and then
    the name of the new listener, spread into its characters. *)
Definition announced (id : string) : list Json :=
  if String.eqb id "newListener"
  then [spread_with (JStr id) "orderId" (JStr id)]
  else [].

End Views.

(* ===================================================================== *)
(** * Properties *)
(* ===================================================================== *)

Import Js Types MockDex Runtime Logger Database Bus Worker Controller Dispatcher Observe.
Local Open Scope string_scope.
Local Open Scope list_scope.
Local Open Scope effect_scope.

(** ** Rounding to binary64 *)

Section Binary64.

Local Open Scope Q_scope.

Lemma round_even_bounds y :
  (Qfloor y <= round_even y <= Qfloor y + 1)%Z.
Proof.
  unfold round_even.
  destruct (Qcompare (y - inject_Z (Qfloor y)) (1 # 2)); [destruct (Z.even (Qfloor y))| |]; lia.
Qed.

Lemma round_even_ge (m : Z) (y : Q) : inject_Z m <= y -> (m <= round_even y)%Z.
Proof.
  intro L. apply Qfloor_resp_le in L. rewrite Qfloor_Z in L.
  pose proof (round_even_bounds y). lia.
Qed.

Lemma round_even_le (m : Z) (y : Q) : y <= inject_Z m -> (round_even y <= m)%Z.
Proof.
  intro L. pose proof (round_even_bounds y) as B.
  pose proof (Qfloor_resp_le _ _ L) as F. rewrite Qfloor_Z in F.
  destruct (Z.eq_dec (Qfloor y) m) as [E|N]; [|lia].
  unfold round_even. rewrite E.
  assert (Y : y == inject_Z m).
  { apply Qle_antisym; [exact L|]. rewrite <- E. apply Qfloor_le. }
  destruct (Qcompare_spec (y - inject_Z m) (1 # 2)) as [H|H|H]; try lia.
  - rewrite Y in H. exfalso. lra.
  - rewrite Y in H. exfalso. lra.
Qed.

Lemma round_even_mono y1 y2 : y1 <= y2 -> (round_even y1 <= round_even y2)%Z.
Proof.
  intro L. pose proof (Qfloor_resp_le _ _ L) as F.
  pose proof (round_even_bounds y1) as B1. pose proof (round_even_bounds y2) as B2.
  destruct (Z.eq_dec (Qfloor y1) (Qfloor y2)) as [E|N]; [|lia].
  unfold round_even. rewrite <- E.
  destruct (Qcompare_spec (y1 - inject_Z (Qfloor y1)) (1 # 2)) as [H1|H1|H1];
    destruct (Qcompare_spec (y2 - inject_Z (Qfloor y1)) (1 # 2)) as [H2|H2|H2];
    try (destruct (Z.even (Qfloor y1))); try lia; exfalso; lra.
Qed.

Lemma two_neq_0 : ~ 2 == 0.
Proof. discriminate. Qed.

Lemma pow2_pos k : 0 < 2 ^ k.
Proof. apply Qpower_0_lt. reflexivity. Qed.

Lemma pow2_le a b : (a <= b)%Z -> 2 ^ a <= 2 ^ b.
Proof. intro L. apply Qpower_le_compat_l; [exact L | discriminate]. Qed.

Lemma pow2_lt a b : (a < b)%Z -> 2 ^ a < 2 ^ b.
Proof. intro L. apply Qpower_lt_compat_l; [exact L | reflexivity]. Qed.

Lemma pow2_plus a b : 2 ^ (a + b) == 2 ^ a * 2 ^ b.
Proof. apply Qpower_plus, two_neq_0. Qed.

Lemma pow2_cancel k : 2 ^ (- k) * 2 ^ k == 1.
Proof. rewrite <- pow2_plus. replace (- k + k)%Z with 0%Z by lia. reflexivity. Qed.

Lemma pow2_Z a : (0 <= a)%Z -> inject_Z (2 ^ a) == 2 ^ a.
Proof. intro L. now rewrite Zpower_Qpower. Qed.

(** [x] lies between the powers of two that [ilog2] names. *)
Lemma ilog2_spec x : 0 < x -> 2 ^ ilog2 x <= x /\ x < 2 ^ (ilog2 x + 1).
Proof.
  intro P. destruct x as [n d].
  assert (Pn : (0 < n)%Z) by (unfold Qlt in P; cbn in P; lia).
  unfold ilog2. cbn [Qnum Qden].
  set (a := Z.log2 n). set (b := Z.log2 (Z.pos d)).
  assert (Ha : (0 <= a)%Z) by apply Z.log2_nonneg.
  assert (Hb : (0 <= b)%Z) by apply Z.log2_nonneg.
  destruct (Z.log2_spec n Pn) as [A1 A2]. fold a in A1, A2.
  destruct (Z.log2_spec (Z.pos d) eq_refl) as [B1 B2]. fold b in B1, B2.
  assert (X : n # d == inject_Z n / inject_Z (Z.pos d)) by apply Qmake_Qdiv.
  assert (Dp : 0 < inject_Z (Z.pos d)) by reflexivity.
  assert (QA1 : 2 ^ a <= inject_Z n).
  { rewrite <- pow2_Z by exact Ha. now rewrite <- Zle_Qle. }
  assert (QA2 : inject_Z n < 2 ^ (a + 1)).
  { rewrite <- pow2_Z by lia. rewrite <- Zlt_Qlt.
    replace (a + 1)%Z with (Z.succ a) by lia. exact A2. }
  assert (QB1 : 2 ^ b <= inject_Z (Z.pos d)).
  { rewrite <- pow2_Z by exact Hb. now rewrite <- Zle_Qle. }
  assert (QB2 : inject_Z (Z.pos d) < 2 ^ (b + 1)).
  { rewrite <- pow2_Z by lia. rewrite <- Zlt_Qlt.
    replace (b + 1)%Z with (Z.succ b) by lia. exact B2. }
  (* the estimate is at most one too high *)
  assert (Lo : 2 ^ (a - b - 1) < n # d).
  { rewrite X. apply Qlt_shift_div_l; [exact Dp|].
    apply Qlt_le_trans with (2 ^ (a - b - 1) * 2 ^ (b + 1)).
    - apply Qmult_lt_l; [apply pow2_pos | exact QB2].
    - rewrite <- pow2_plus. replace (a - b - 1 + (b + 1))%Z with a by lia. exact QA1. }
  assert (Hi : n # d < 2 ^ (a - b + 1)).
  { rewrite X. apply Qlt_shift_div_r; [exact Dp|].
    apply Qlt_le_trans with (2 ^ (a + 1)); [exact QA2|].
    replace (a + 1)%Z with (a - b + 1 + b)%Z by lia. rewrite pow2_plus.
    apply Qmult_le_l; [apply pow2_pos | exact QB1]. }
  destruct (Qle_bool (2 ^ (a - b)) (n # d)) eqn:C.
  - apply Qle_bool_iff in C. split; [exact C | exact Hi].
  - split; [apply Qlt_le_weak; exact Lo|].
    replace (a - b - 1 + 1)%Z with (a - b)%Z by lia.
    apply Qnot_le_lt. intro L. apply Qle_bool_iff in L. congruence.
Qed.

Lemma ilog2_mono x y : 0 < x -> x <= y -> (ilog2 x <= ilog2 y)%Z.
Proof.
  intros P L.
  destruct (ilog2_spec P) as [X1 X2].
  destruct (ilog2_spec (Qlt_le_trans _ _ _ P L)) as [Y1 Y2].
  destruct (Z_le_gt_dec (ilog2 x) (ilog2 y)) as [H|H]; [exact H|]. exfalso.
  assert (K : 2 ^ (ilog2 y + 1) <= 2 ^ ilog2 x) by (apply pow2_le; lia).
  lra.
Qed.

Lemma ulp_exp_mono x y : 0 < x -> x <= y -> (ulp_exp x <= ulp_exp y)%Z.
Proof. intros P L. pose proof (ilog2_mono P L). unfold ulp_exp. lia. Qed.

Lemma round_pos_eq x :
  round_pos x == inject_Z (round_even (x * 2 ^ (- ulp_exp x))) * 2 ^ ulp_exp x.
Proof. unfold round_pos. apply Qred_correct. Qed.

Lemma scale_le x y k : x <= y -> x * 2 ^ k <= y * 2 ^ k.
Proof. intro L. apply Qmult_le_compat_r; [exact L | apply Qlt_le_weak, pow2_pos]. Qed.

(** A positive number is rounded to at most the power of two above it. *)
Lemma round_pos_below x :
  0 < x -> round_pos x <= 2 ^ (ulp_exp x + 53).
Proof.
  intro P. rewrite round_pos_eq. set (k := ulp_exp x).
  destruct (ilog2_spec P) as [_ U].
  assert (B : x * 2 ^ (- k) <= inject_Z (2 ^ 53)).
  { rewrite pow2_Z by lia.
    apply Qle_trans with (2 ^ (ilog2 x + 1) * 2 ^ (- k)).
    - apply scale_le, Qlt_le_weak, U.
    - rewrite <- pow2_plus. apply pow2_le. subst k. unfold ulp_exp. lia. }
  apply round_even_le in B.
  replace (k + 53)%Z with (53 + k)%Z by lia. rewrite pow2_plus.
  apply Qmult_le_compat_r; [|apply Qlt_le_weak, pow2_pos].
  rewrite <- (@pow2_Z 53) by lia. rewrite <- Zle_Qle. exact B.
Qed.

(** A positive number is rounded to at least the power of two below it. *)
Lemma round_pos_above x :
  0 < x -> (- 1022 <= ilog2 x)%Z -> 2 ^ ilog2 x <= round_pos x.
Proof.
  intros P N. rewrite round_pos_eq. set (k := ulp_exp x).
  assert (K : k = (ilog2 x - 52)%Z) by (subst k; unfold ulp_exp; lia).
  destruct (ilog2_spec P) as [L _].
  assert (B : inject_Z (2 ^ 52) <= x * 2 ^ (- k)).
  { rewrite pow2_Z by lia.
    apply Qle_trans with (2 ^ ilog2 x * 2 ^ (- k)).
    - rewrite <- pow2_plus. apply pow2_le. lia.
    - apply scale_le, L. }
  apply round_even_ge in B.
  replace (ilog2 x) with (52 + k)%Z at 1 by lia. rewrite pow2_plus.
  apply Qmult_le_compat_r; [|apply Qlt_le_weak, pow2_pos].
  rewrite <- (@pow2_Z 52) by lia. rewrite <- Zle_Qle. exact B.
Qed.

Lemma round_pos_nonneg x : 0 <= x -> 0 <= round_pos x.
Proof.
  intro P. rewrite round_pos_eq.
  apply Qmult_le_0_compat; [|apply Qlt_le_weak, pow2_pos].
  change 0 with (inject_Z 0). rewrite <- Zle_Qle. apply round_even_ge.
  change (inject_Z 0) with 0.
  apply Qmult_le_0_compat; [exact P | apply Qlt_le_weak, pow2_pos].
Qed.

(** Rounding keeps the order of positive numbers. *)
Lemma round_pos_mono x y : 0 < x -> x <= y -> round_pos x <= round_pos y.
Proof.
  intros P L. assert (Py : 0 < y) by (eapply Qlt_le_trans; eassumption).
  pose proof (ulp_exp_mono P L) as K.
  destruct (Z.eq_dec (ulp_exp x) (ulp_exp y)) as [E|N].
  - rewrite !round_pos_eq, E.
    apply Qmult_le_compat_r; [|apply Qlt_le_weak, pow2_pos].
    rewrite <- Zle_Qle. apply round_even_mono, scale_le, L.
  - apply Qle_trans with (2 ^ (ulp_exp x + 53)); [now apply round_pos_below|].
    apply Qle_trans with (2 ^ ilog2 y).
    + apply pow2_le. unfold ulp_exp in *. lia.
    + apply round_pos_above; [exact Py | unfold ulp_exp in *; lia].
Qed.

Lemma Qnum_pos x : 0 < x -> exists p, Qnum x = Z.pos p.
Proof.
  destruct x as [[|p|p] d]; unfold Qlt; cbn; intro H; try lia. now exists p.
Qed.

Lemma fl_pos x : 0 < x -> fl x = round_pos x.
Proof. intro P. destruct (Qnum_pos P) as (p & E). unfold fl. now rewrite E. Qed.

Lemma fl_zero x : x == 0 -> fl x = 0.
Proof.
  destruct x as [[|p|p] d]; unfold Qeq; cbn; intro H; try lia. reflexivity.
Qed.

Lemma fl_nonneg x : 0 <= x -> 0 <= fl x.
Proof.
  intro P. destruct (Qlt_le_dec 0 x) as [H|H].
  - rewrite fl_pos by exact H. now apply round_pos_nonneg.
  - rewrite fl_zero; [apply Qle_refl | now apply Qle_antisym].
Qed.

(** Rounding to the nearest double keeps the order. *)
Theorem fl_mono x y : 0 <= x -> x <= y -> fl x <= fl y.
Proof.
  intros P L. destruct (Qlt_le_dec 0 x) as [H|H].
  - rewrite (fl_pos H), (fl_pos (Qlt_le_trans _ _ _ H L)). now apply round_pos_mono.
  - rewrite (@fl_zero x) by now apply Qle_antisym.
    apply fl_nonneg. eapply Qle_trans; eassumption.
Qed.

Lemma fl_mono_to x c v : 0 <= x -> x <= c -> fl c = v -> fl x <= v.
Proof. intros P L <-. now apply fl_mono. Qed.

Lemma fl_mono_from x c v : 0 <= c -> c <= x -> fl c = v -> v <= fl x.
Proof. intros P L <-. now apply fl_mono. Qed.

(** [a + r * c] for a draw [r]: between [a] and [a + c], rounded. *)
Lemma ramp_bounds a c r :
  0 <= a -> 0 <= c -> fl c = c -> 0 <= r -> r <= 1 ->
  fl a <= fadd a (fmul r c) <= fl (a + c).
Proof.
  intros A C F L U. unfold fadd, fmul.
  assert (P : 0 <= r * c) by now apply Qmult_le_0_compat.
  assert (B : fl (r * c) <= c).
  { apply fl_mono_to with (c := c); [exact P | | exact F].
    rewrite <- (Qmult_1_l c) at 2. now apply Qmult_le_compat_r. }
  pose proof (fl_nonneg P) as N.
  split; apply fl_mono; lra.
Qed.

(** [k * x] for [x] between two bounds. *)
Lemma scaled_bounds k x lo hi :
  0 <= k -> 0 <= lo -> lo <= x -> x <= hi ->
  fl (k * lo) <= fmul k x <= fl (k * hi).
Proof.
  intros K L A B. unfold fmul.
  assert (k * lo <= k * x) by (rewrite !(Qmult_comm k); now apply Qmult_le_compat_r).
  assert (k * x <= k * hi) by (rewrite !(Qmult_comm k); now apply Qmult_le_compat_r).
  assert (0 <= k * lo) by now apply Qmult_le_0_compat.
  split; apply fl_mono; lra.
Qed.


End Binary64.

(** In the proofs below a rounded value is computed only where a proof
    asks for it. *)
Local Opaque fl round_pos.

(** ** Running effectful code *)

(** A statement that always returns. *)
Class Total (c : M unit) : Prop :=
  total : forall w, result c w = Ok tt.

Lemma run_eq {A} (c : M A) (w : World) : c w = (result c w, after c w).
Proof. unfold result, after. now destruct (c w). Qed.

Lemma bind_total {B} (c : M unit) `{!Total c} (k : unit -> M B) (w : World) :
  bind c k w = k tt (after c w).
Proof.
  unfold bind. rewrite (run_eq c w), total. reflexivity.
Qed.

Lemma bind_ret {A B} (a : A) (k : A -> M B) (w : World) : bind (ret a) k w = k a w.
Proof. reflexivity. Qed.

Lemma bind_read {A B} (f : World -> A) (k : A -> M B) (w : World) :
  bind (read f) k w = k (f w) w.
Proof. reflexivity. Qed.

Lemma bind_modify {B} (f : World -> World) (k : unit -> M B) (w : World) :
  bind (modify f) k w = k tt (f w).
Proof. reflexivity. Qed.

Lemma after_bind_total {B} (c : M unit) `{!Total c} (k : unit -> M B) (w : World) :
  after (bind c k) w = after (k tt) (after c w).
Proof. unfold after at 1. now rewrite bind_total. Qed.

Lemma result_bind_total {B} (c : M unit) `{!Total c} (k : unit -> M B) (w : World) :
  result (bind c k) w = result (k tt) (after c w).
Proof. unfold result at 1. now rewrite bind_total. Qed.

#[export] Instance ret_total : Total (ret tt).
Proof. intro w. reflexivity. Qed.

#[export] Instance modify_total (f : World -> World) : Total (modify f).
Proof. intro w. reflexivity. Qed.

#[export] Instance sleep_total (ms : N) : Total (sleep ms).
Proof. intro w. reflexivity. Qed.

#[export] Instance bind_is_total (c : M unit) (k : unit -> M unit)
  `{!Total c} `{!Total (k tt)} : Total (bind c k).
Proof.
  intro w. rewrite result_bind_total by assumption. now apply (@total (k tt)).
Qed.

#[export] Instance logRouting_total id ev d : Total (logRouting id ev d).
Proof. intro w. reflexivity. Qed.

#[export] Instance console_error_total l : Total (console_error l).
Proof. intro w. reflexivity. Qed.

#[export] Instance socket_send_total s msg : Total (socket_send s msg).
Proof. intro w. reflexivity. Qed.

#[export] Instance run_listener_total l ev : Total (run_listener l ev).
Proof.
  intro w. unfold run_listener, result. rewrite bind_read.
  now destruct (socket_is_open (h_socket l) w).
Qed.

#[export] Instance run_listeners_total ls ev : Total (run_listeners ls ev).
Proof.
  induction ls as [|l ls IH]; cbn [run_listeners]; [apply ret_total|].
  apply bind_is_total; [apply run_listener_total | exact IH].
Qed.

#[export] Instance emit_total name ev : Total (emit name ev).
Proof.
  intro w. unfold emit, result. rewrite bind_modify, bind_read.
  apply (run_listeners_total _ ev).
Qed.

(** ** The two writers of database.ts *)

Lemma saveOrder_eq order w :
  saveOrder order w = guarded (insert_of order (now w)) "Save order error:" w.
Proof. reflexivity. Qed.

Lemma updateOrderStatus_eq id st d :
  updateOrderStatus id st d = guarded (update_of id st d) "Update order status error:".
Proof. destruct d; reflexivity. Qed.

Lemma guarded_run q l w :
  guarded q l w =
  (Ok tt,
   if outage_now w
   then record (EConsoleError l) (record (EQuery q false) (set_db_outage (tl (db_outage w)) w))
   else record (EQuery q true)
               (set_rows (run_query (now w) q (rows w)) (set_db_outage (tl (db_outage w)) w))).
Proof.
  unfold guarded, try_catch, pool_query, outage_now.
  destruct (db_outage w) as [|[] rest]; reflexivity.
Qed.

#[export] Instance guarded_total q l : Total (guarded q l).
Proof. intro w. unfold result. now rewrite guarded_run. Qed.

#[export] Instance updateOrderStatus_total id st d : Total (updateOrderStatus id st d).
Proof. rewrite updateOrderStatus_eq. apply guarded_total. Qed.

#[export] Instance saveOrder_total order : Total (saveOrder order).
Proof. intro w. unfold result. rewrite saveOrder_eq. apply guarded_total. Qed.

Lemma after_saveOrder order w :
  after (saveOrder order) w = after (guarded (insert_of order (now w)) "Save order error:") w.
Proof. unfold after. now rewrite saveOrder_eq. Qed.

Section GuardedFrame.

Variables (q : Query) (l : string) (w : World).

Let w' := after (guarded q l) w.

Lemma guarded_trace : trace w' = trace w ++ db_effects q l (db_outage w).
Proof.
  subst w'. unfold after. rewrite guarded_run. unfold outage_now, db_effects.
  destruct (db_outage w) as [|[] rest]; cbn; now rewrite <- ?app_assoc.
Qed.

Lemma guarded_rows :
  rows w' = if outage_now w then rows w else run_query (now w) q (rows w).
Proof. subst w'. unfold after. rewrite guarded_run. now destruct (outage_now w). Qed.

Lemma guarded_db_outage : db_outage w' = tl (db_outage w).
Proof. subst w'. unfold after. rewrite guarded_run. now destruct (outage_now w). Qed.

Lemma guarded_now : now w' = now w.
Proof. subst w'. unfold after. rewrite guarded_run. now destruct (outage_now w). Qed.

Lemma guarded_logs : logs w' = logs w.
Proof. subst w'. unfold after. rewrite guarded_run. now destruct (outage_now w). Qed.

Lemma guarded_listeners : listeners w' = listeners w.
Proof. subst w'. unfold after. rewrite guarded_run. now destruct (outage_now w). Qed.

Lemma guarded_sockets : sockets w' = sockets w.
Proof. subst w'. unfold after. rewrite guarded_run. now destruct (outage_now w). Qed.

Lemma guarded_queue : queue w' = queue w.
Proof. subst w'. unfold after. rewrite guarded_run. now destruct (outage_now w). Qed.

Lemma guarded_minted : minted w' = minted w.
Proof. subst w'. unfold after. rewrite guarded_run. now destruct (outage_now w). Qed.

End GuardedFrame.

(** ** The emitter *)

Section ListenersFrame.

Variable ev : Json.

(** Calling listeners changes nothing but the sockets they send on. *)
Lemma run_listener_frame l w :
  after (run_listener l ev) w = set_sockets (sockets (after (run_listener l ev) w)) w.
Proof.
  unfold run_listener, after. rewrite bind_read.
  destruct (socket_is_open (h_socket l) w); destruct w; reflexivity.
Qed.

Lemma run_listeners_frame ls w :
  after (run_listeners ls ev) w = set_sockets (sockets (after (run_listeners ls ev) w)) w.
Proof.
  revert w. induction ls as [|l ls IH]; intro w; cbn [run_listeners].
  - destruct w; reflexivity.
  - rewrite after_bind_total by typeclasses eauto.
    rewrite IH. rewrite (run_listener_frame l w) at 2. reflexivity.
Qed.

Lemma emit_frame name w :
  after (emit name ev) w =
  set_sockets (sockets (after (emit name ev) w)) (record (EEmit name ev) w).
Proof.
  unfold emit, after. rewrite bind_modify, bind_read.
  change (snd (run_listeners ?ls ev ?x)) with (after (run_listeners ls ev) x).
  now rewrite run_listeners_frame at 1.
Qed.

End ListenersFrame.

Section EmitFrame.

Variables (name : string) (ev : Json) (w : World).

Let w' := after (emit name ev) w.

Lemma emit_trace : trace w' = trace w ++ [EEmit name ev].
Proof. subst w'. now rewrite emit_frame. Qed.

Lemma emit_rows : rows w' = rows w.
Proof. subst w'. now rewrite emit_frame. Qed.

Lemma emit_db_outage : db_outage w' = db_outage w.
Proof. subst w'. now rewrite emit_frame. Qed.

Lemma emit_now : now w' = now w.
Proof. subst w'. now rewrite emit_frame. Qed.

Lemma emit_logs : logs w' = logs w.
Proof. subst w'. now rewrite emit_frame. Qed.

Lemma emit_listeners : listeners w' = listeners w.
Proof. subst w'. now rewrite emit_frame. Qed.

Lemma emit_queue : queue w' = queue w.
Proof. subst w'. now rewrite emit_frame. Qed.

Lemma emit_minted : minted w' = minted w.
Proof. subst w'. now rewrite emit_frame. Qed.

End EmitFrame.

(** ** The logger and the clock *)

Section LogFrame.

Variables (id ev : string) (d : option Json) (w : World).

Let w' := after (logRouting id ev d) w.

Lemma log_trace :
  trace w' = trace w ++ [ELog {| timestamp := now w; l_orderId := id; event := ev;
                                 data := d |}].
Proof. reflexivity. Qed.

Lemma log_logs :
  logs w' = logs w ++ [{| timestamp := now w; l_orderId := id; event := ev; data := d |}].
Proof. reflexivity. Qed.

Lemma log_rows : rows w' = rows w.
Proof. reflexivity. Qed.

Lemma log_db_outage : db_outage w' = db_outage w.
Proof. reflexivity. Qed.

Lemma log_now : now w' = now w.
Proof. reflexivity. Qed.

Lemma log_listeners : listeners w' = listeners w.
Proof. reflexivity. Qed.

Lemma log_sockets : sockets w' = sockets w.
Proof. reflexivity. Qed.

End LogFrame.

Section SleepFrame.

Variables (ms : N) (w : World).

Let w' := after (sleep ms) w.

Lemma sleep_trace : trace w' = trace w.
Proof. reflexivity. Qed.

Lemma sleep_logs : logs w' = logs w.
Proof. reflexivity. Qed.

Lemma sleep_rows : rows w' = rows w.
Proof. reflexivity. Qed.

Lemma sleep_db_outage : db_outage w' = db_outage w.
Proof. reflexivity. Qed.

Lemma sleep_now : now w' = (now w + ms)%N.
Proof. reflexivity. Qed.

Lemma sleep_listeners : listeners w' = listeners w.
Proof. reflexivity. Qed.

Lemma sleep_sockets : sockets w' = sockets w.
Proof. reflexivity. Qed.

End SleepFrame.

Create Rewrite HintDb frame.

#[export] Hint Rewrite
  guarded_trace guarded_rows guarded_db_outage guarded_now guarded_logs
  guarded_listeners guarded_sockets
  emit_trace emit_rows emit_db_outage emit_now emit_logs emit_listeners
  log_trace log_logs log_rows log_db_outage log_now log_listeners log_sockets
  sleep_trace sleep_logs sleep_rows sleep_db_outage sleep_now sleep_listeners
  sleep_sockets : frame.

(** ** One run of the job handler *)

Lemma bind_assoc {A B C} (c : M A) (f : A -> M B) (k : B -> M C) (w : World) :
  bind (bind c f) k w = bind c (fun a => bind (f a) k) w.
Proof. unfold bind. destruct (c w) as [[a|e] w1]; reflexivity. Qed.

Lemma bind_throw {A B} (e : JsError) (k : A -> M B) (w : World) :
  bind (throw e) k w = (Throw e, w).
Proof. reflexivity. Qed.

Ltac thrown :=
  match goal with
  | |- context [@bind ?a ?b (@throw _ ?e) ?k ?x] => rewrite (@bind_throw a b e k x)
  end.

Ltac returned :=
  match goal with
  | |- context [@bind ?a ?b (@ret _ ?v) ?k ?x] => rewrite (@bind_ret a b v k x)
  end.

(** Step through a sequence of statements that always return. *)
Ltac steps_through :=
  repeat first
    [ rewrite bind_total by typeclasses eauto
    | rewrite bind_assoc
    | rewrite bind_ret
    | rewrite bind_read
    | rewrite bind_modify ];
  cbv beta.

Ltac run_effects :=
  repeat (progress steps_through);
  cbn [fst snd].

(** Normalise what is known of a world that statements were run in. *)
Ltac frame :=
  rewrite ?updateOrderStatus_eq, ?after_saveOrder;
  autorewrite with frame;
  rewrite <- ?app_assoc.

#[export] Instance prepare_total d order : Total (prepare d order).
Proof. unfold prepare. typeclasses eauto. Qed.

#[export] Instance confirm_total d order res : Total (confirm d order res).
Proof. unfold confirm. typeclasses eauto. Qed.

#[export] Instance report_total id err line : Total (report id err line).
Proof. unfold report. typeclasses eauto. Qed.

(** Evaluate a block of statements and normalise the resulting world. *)
Ltac block :=
  unfold after at 1; run_effects;
  repeat match goal with
         | |- context [snd (?c ?x)] => change (snd (c x)) with (after c x)
         end;
  frame.

Section PrepareFrame.

Variables (d : Draws) (order : Order) (w : World).

Let w' := after (prepare d order) w.

Lemma prepare_trace :
  trace w' = trace w ++ routing_effects d order (now w) (db_outage w).
Proof.
  subst w'. unfold prepare, routing_effects, log_entry, update_label, save_label.
  block. reflexivity.
Qed.

Lemma prepare_logs :
  logs w' = logs w ++ flat_map log_of (routing_effects d order (now w) (db_outage w)).
Proof.
  subst w'. unfold prepare, routing_effects, log_entry, update_label, save_label.
  block. rewrite !flat_map_app.
  unfold db_effects.
  destruct (db_outage w) as [|[] [|[] [|[] [|[] [|[] o]]]]]; reflexivity.
Qed.

Lemma prepare_now : now w' = swap_time d (now w).
Proof. subst w'. unfold prepare, swap_time. block. reflexivity. Qed.

Lemma prepare_db_outage : db_outage w' = tl (tl (tl (tl (tl (db_outage w))))).
Proof. subst w'. unfold prepare. block. reflexivity. Qed.

Lemma prepare_listeners : listeners w' = listeners w.
Proof. subst w'. unfold prepare. block. reflexivity. Qed.

End PrepareFrame.

Section ConfirmFrame.

Variables (d : Draws) (order : Order) (res : SwapResult) (w : World).

Let w' := after (confirm d order res) w.

Lemma confirm_trace :
  trace w' = trace w ++ confirmed_effects d order res (now w) (db_outage w).
Proof.
  subst w'. unfold confirm, confirmed_effects, log_entry, update_label.
  block. reflexivity.
Qed.

Lemma confirm_logs :
  logs w' = logs w ++ flat_map log_of (confirmed_effects d order res (now w) (db_outage w)).
Proof.
  subst w'. unfold confirm, confirmed_effects, log_entry, update_label.
  block. rewrite !flat_map_app. unfold db_effects.
  destruct (db_outage w) as [|[] o]; reflexivity.
Qed.

Lemma confirm_now : now w' = now w.
Proof. subst w'. unfold confirm. block. reflexivity. Qed.

Lemma confirm_db_outage : db_outage w' = tl (db_outage w).
Proof. subst w'. unfold confirm. block. reflexivity. Qed.

Lemma confirm_listeners : listeners w' = listeners w.
Proof. subst w'. unfold confirm. block. reflexivity. Qed.

End ConfirmFrame.

Section ReportFrame.

Variables (id : string) (err : JsError) (line : string) (w : World).

Let w' := after (report id err line) w.

Lemma report_trace :
  trace w' = trace w ++ failed_effects id err line (now w) (db_outage w).
Proof.
  subst w'. unfold report, failed_effects, log_entry, update_label.
  block. reflexivity.
Qed.

Lemma report_logs :
  logs w' = logs w ++ flat_map log_of (failed_effects id err line (now w) (db_outage w)).
Proof.
  subst w'. unfold report, failed_effects, log_entry, update_label.
  block. rewrite !flat_map_app. unfold db_effects.
  destruct (db_outage w) as [|[] o]; reflexivity.
Qed.

Lemma report_now : now w' = now w.
Proof. subst w'. unfold report. block. reflexivity. Qed.

Lemma report_db_outage : db_outage w' = tl (db_outage w).
Proof. subst w'. unfold report. block. reflexivity. Qed.

Lemma report_listeners : listeners w' = listeners w.
Proof. subst w'. unfold report. block. reflexivity. Qed.

End ReportFrame.

#[export] Hint Rewrite
  prepare_trace prepare_logs prepare_now prepare_db_outage prepare_listeners
  confirm_trace confirm_logs confirm_now confirm_db_outage confirm_listeners
  report_trace report_logs report_now report_db_outage report_listeners : frame.

(** The handler is the preparation followed, according to what
    [executeSwap] does, by the confirmation or by the failure report. *)
Lemma handler_run d job w :
  handler d job w =
  match swap_of d (job_data job) (now w) with
  | inr res => (Ok res, after (confirm d (job_data job) res)
                              (after (prepare d (job_data job)) w))
  | inl err => (Throw err, after (report (orderId (job_data job)) err "Transaction failed")
                                 (after (prepare d (job_data job)) w))
  end.
Proof.
  assert (E : now (after (prepare d (job_data job)) w) = swap_time d (now w))
    by apply prepare_now.
  unfold swap_of. rewrite <- E. clear E.
  unfold handler, try_catch, lifecycle, fetch_quotes, execute_swap, prepare, after.
  run_effects.
  fold (raydium_quote d (job_data job)) (meteora_quote d (job_data job)).
  fold (chosen_of d (job_data job)) (quote_wait d).
  repeat match goal with
         | |- context [snd (?c ?x)] => change (snd (c x)) with (after c x)
         end.
  match goal with
  | |- context [executeSwap ?a ?b ?c ?o] => destruct (executeSwap a b c o) as [err|res]
  end; cbn [of_sum].
  - thrown. unfold on_error, report. run_effects. reflexivity.
  - returned. unfold confirm. run_effects. reflexivity.
Qed.

Lemma swap_of_cases d order t :
  swap_of d order t =
  if fails d then inl network_failure
  else inr {| txHash := mock_tx (swap_time d t) (s_hash (sw d));
              executedPrice := fmul basePrice
                                 (fadd (lit (98 # 100))
                                       (fmul (s_price (sw d)) (lit (4 # 100)))) |}.
Proof. reflexivity. Qed.

Lemma handler_result d job w :
  result (handler d job) w =
  match swap_of d (job_data job) (now w) with
  | inr res => Ok res
  | inl err => Throw err
  end.
Proof.
  unfold result. rewrite handler_run.
  now destruct (swap_of d (job_data job) (now w)).
Qed.

Section HandlerFrame.

Variables (d : Draws) (job : Job) (w : World).

Let w' := after (handler d job) w.

Lemma handler_trace :
  trace w' = trace w ++ handler_effects d (job_data job) (now w) (db_outage w).
Proof.
  subst w'. unfold after, handler_effects. rewrite handler_run.
  destruct (swap_of d (job_data job) (now w)); cbn [snd]; frame; reflexivity.
Qed.

Lemma handler_logs :
  logs w' = logs w ++ flat_map log_of (handler_effects d (job_data job) (now w) (db_outage w)).
Proof.
  subst w'. unfold after, handler_effects. rewrite handler_run.
  destruct (swap_of d (job_data job) (now w)); cbn [snd]; frame;
    now rewrite flat_map_app.
Qed.

Lemma handler_now : now w' = swap_time d (now w).
Proof.
  subst w'. unfold after. rewrite handler_run.
  destruct (swap_of d (job_data job) (now w)); cbn [snd]; frame; reflexivity.
Qed.

Lemma handler_db_outage :
  db_outage w' = tl (tl (tl (tl (tl (tl (db_outage w)))))).
Proof.
  subst w'. unfold after. rewrite handler_run.
  destruct (swap_of d (job_data job) (now w)); cbn [snd]; frame; reflexivity.
Qed.

Lemma handler_listeners : listeners w' = listeners w.
Proof.
  subst w'. unfold after. rewrite handler_run.
  destruct (swap_of d (job_data job) (now w)); cbn [snd]; frame; reflexivity.
Qed.

End HandlerFrame.

(** ** What the effects of a run show *)

Lemma steps_app t1 t2 : steps (t1 ++ t2) = steps t1 ++ steps t2.
Proof. apply flat_map_app. Qed.

Lemma steps_update id st data l o :
  steps (db_effects (update_of id st data) l o) = [Persist id st].
Proof. destruct o as [|[] o]; reflexivity. Qed.

Lemma steps_insert order t l o :
  steps (db_effects (insert_of order t) l o) = [Insert (orderId order)].
Proof. destruct o as [|[] o]; reflexivity. Qed.

Lemma steps_routing d order t o :
  steps (routing_effects d order t o) =
  let id := orderId order in
  [Insert id; Persist id "pending";
   Publish id "routing"; Persist id "routing";
   Publish id "building"; Persist id "building";
   Publish id "submitted"; Persist id "submitted"].
Proof.
  unfold routing_effects. rewrite !steps_app, steps_insert, !steps_update.
  reflexivity.
Qed.

Lemma steps_confirmed d order res t o :
  steps (confirmed_effects d order res t o) =
  [Publish (orderId order) "confirmed"; Persist (orderId order) "confirmed"].
Proof.
  unfold confirmed_effects. rewrite !steps_app, !steps_update. reflexivity.
Qed.

Lemma steps_failed id err line t o :
  steps (failed_effects id err line t o) = [Publish id "failed"; Persist id "failed"].
Proof.
  unfold failed_effects. rewrite !steps_app, !steps_update. reflexivity.
Qed.

Lemma events_app id t1 t2 : events id (t1 ++ t2) = events id t1 ++ events id t2.
Proof. apply flat_map_app. Qed.

Lemma events_db id q l o : events id (db_effects q l o) = [].
Proof. destruct o as [|[] o]; reflexivity. Qed.

Lemma events_routing d order t o :
  events (orderId order) (routing_effects d order t o) =
  let id := orderId order in
  let chosen := chosen_of d order in
  [status_only "routing" id;
   status_with "building" id
     [("dex", JStr (dex_name (dex chosen))); ("price", JNum (price chosen))];
   status_with "submitted" id [("dex", JStr (dex_name (dex chosen)))]].
Proof.
  unfold routing_effects. rewrite !events_app, !events_db.
  cbn. rewrite String.eqb_refl. reflexivity.
Qed.

Lemma events_confirmed d order res t o :
  events (orderId order) (confirmed_effects d order res t o) =
  [status_with "confirmed" (orderId order)
     [("txHash", JStr (txHash res));
      ("executedPrice", JNum (executedPrice res));
      ("dex", JStr (dex_name (dex (chosen_of d order))))]].
Proof.
  unfold confirmed_effects. rewrite !events_app, !events_db.
  cbn. rewrite String.eqb_refl. reflexivity.
Qed.

Lemma events_failed id err line t o :
  events id (failed_effects id err line t o) = [failed_event id (error_text err)].
Proof.
  unfold failed_effects. rewrite !events_app, !events_db.
  cbn. rewrite String.eqb_refl. reflexivity.
Qed.

(** ** Routing *)

Lemma choose_either rQ mQ : choose rQ mQ = rQ \/ choose rQ mQ = mQ.
Proof. unfold choose. destruct (Qle_bool (price mQ) (price rQ)); auto. Qed.

Lemma choose_max rQ mQ : (price (choose rQ mQ) == Qmax (price rQ) (price mQ))%Q.
Proof.
  unfold choose. destruct (Qle_bool (price mQ) (price rQ)) eqn:E.
  - apply Qle_bool_iff in E. symmetry. now apply Q.max_l.
  - assert (L : (price rQ <= price mQ)%Q).
    { apply Qlt_le_weak, Qnot_le_lt. intro H. apply Qle_bool_iff in H. congruence. }
    symmetry. now apply Q.max_r.
Qed.

Lemma choose_tie rQ mQ : (price rQ == price mQ)%Q -> choose rQ mQ = rQ.
Proof.
  intro E. unfold choose.
  assert (L : Qle_bool (price mQ) (price rQ) = true).
  { apply Qle_bool_iff. rewrite E. apply Qle_refl. }
  now rewrite L.
Qed.

Lemma log_of_in entry t : In (ELog entry) t -> In entry (flat_map log_of t).
Proof. intro H. apply in_flat_map. exists (ELog entry). split; [exact H | now left]. Qed.

(** C1.  In every run of the handler the quote that is chosen is one of the
    two venue quotes and its price is the maximum of the two prices; on
    equal prices it is the raydium quote; and the routing log receives an
    entry "DEX comparison completed" for the order that holds the price and
    fee of both quotes, the name of the chosen venue and the reason
    "Better price: " followed by the chosen price with four decimals. *)
Theorem routing_selects_best_price (d : Draws) (job : Job) (w : World) :
  let order := job_data job in
  let rQ := getRaydiumQuote (rq d) (tokenIn order) (tokenOut order) (amount order) in
  let mQ := getMeteoraQuote (mq d) (tokenIn order) (tokenOut order) (amount order) in
  let chosen := choose rQ mQ in
  (chosen = rQ \/ chosen = mQ)
  /\ (price chosen == Qmax (price rQ) (price mQ))%Q
  /\ ((price rQ == price mQ)%Q -> chosen = rQ /\ dex chosen = raydium)
  /\ In {| timestamp := (now w + quote_wait d)%N;
           l_orderId := orderId order;
           event := "DEX comparison completed";
           data := Some (JObj [("raydium", JObj [("price", JNum (price rQ));
                                                 ("fee", JNum (fee rQ))]);
                               ("meteora", JObj [("price", JNum (price mQ));
                                                 ("fee", JNum (fee mQ))]);
                               ("chosen", JStr (dex_name (dex chosen)));
                               ("reason", JStr ("Better price: "
                                                ++ toFixed 4 (price chosen))%string)]) |}
        (getLogs (Some (orderId order)) (after (handler d job) w)).
Proof.
  intros order rQ mQ chosen. split; [|split; [|split]].
  - apply choose_either.
  - apply choose_max.
  - intro E. subst chosen. rewrite (choose_tie rQ mQ E). split; reflexivity.
  - assert (L : In {| timestamp := (now w + quote_wait d)%N;
                      l_orderId := orderId order;
                      event := "DEX comparison completed";
                      data := Some (comparison rQ mQ chosen) |}
                   (logs (after (handler d job) w))).
    { rewrite handler_logs. apply in_or_app. right.
      unfold handler_effects. rewrite flat_map_app. apply in_or_app. left.
      apply log_of_in. unfold routing_effects.
      do 5 (apply in_or_app; right). apply in_or_app. left. now left. }
    unfold getLogs, truthy_str.
    destruct (String.eqb (orderId order) "") eqn:E; cbn [negb]; [exact L|].
    apply filter_In. split; [exact L|]. cbn. apply String.eqb_refl.
Qed.

(** At draws for which both venues quote 100, the raydium quote wins. *)
Lemma routing_selects_best_price_witness :
  dex (choose (getRaydiumQuote (rq Sample.tie) "USDC" "SOL" 100)
              (getMeteoraQuote (mq Sample.tie) "USDC" "SOL" 100)) = raydium.
Proof.
  destruct (routing_selects_best_price Sample.tie Sample.job Sample.world)
    as (_ & _ & T & _).
  apply T. reflexivity.
Defined.
(** ** The submission gateway *)









(** The guard tests presence, not type.  An amount given as text is
    accepted and queued as what [Number] reads it as: "0" as 0, which as a
    number is refused, "1e3" as 1000, "abc" as [NaN]; an empty array is
    queued as 0 and an object as [NaN]; a token may be any truthy value.
    The number 0 for a token is refused like the empty string. *)
Lemma unchecked_types :
  let queued body :=
    map (fun e => p_amount (sub_data e))
        (queue (after (post_execute (Some body)) Sample.world)) in
  let with_amount v :=
    JObj [("tokenIn", JStr "USDC"); ("tokenOut", JStr "SOL"); ("amount", v)] in
  queued (Sample.text_amount "0") = [Finite 0]
  /\ queued (with_amount (JNum 0)) = []
  /\ queued (Sample.text_amount "1e3") = [Finite 1000]
  /\ queued (Sample.text_amount " 0x1F ") = [Finite 31]
  /\ queued (Sample.text_amount "abc") = [NaN]
  /\ queued (Sample.text_amount "1e999") = [Infinite false]
  /\ queued (with_amount (JArr [])) = [Finite 0]
  /\ queued (with_amount (JArr [JStr "7"])) = [Finite 7]
  /\ queued (with_amount (JArr [JNum 1; JNum 2])) = [NaN]
  /\ queued (with_amount (JObj [])) = [NaN]
  /\ queued (with_amount (JBool true)) = [Finite 1]
  /\ valid (Some (JObj [("tokenIn", JNum 0); ("tokenOut", JStr "SOL");
                        ("amount", JNum 1)])) = false
  /\ valid (Some (JObj [("tokenIn", JArr []); ("tokenOut", JNum 1);
                        ("amount", JNum 1)])) = true
  /\ valid (Some (JStr "text")) = false.
Proof. cbv zeta. repeat split; vm_compute; reflexivity. Qed.

(** ** Attempts and retries *)

Lemma bind_settle {A B} (c : M A) (k : Res A -> M B) (w : World) :
  bind (settle c) k w = k (result c w) (after c w).
Proof. reflexivity. Qed.

Lemma on_failed_eq job err :
  on_failed (Some job) err =
  if truthy_str (Some (orderId (job_data job)))
  then report (orderId (job_data job)) err "Job failed after retries"
  else ret tt.
Proof. reflexivity. Qed.

#[export] Instance on_failed_total job err : Total (on_failed job err).
Proof.
  destruct job as [job|]; [|apply ret_total].
  rewrite on_failed_eq.
  destruct (truthy_str (Some (orderId (job_data job)))); typeclasses eauto.
Qed.

Section NotifyFrame.

Variables (job : Job) (err : JsError) (w : World).

Let w' := after (on_failed (Some job) err) w.

Lemma on_failed_trace :
  trace w' = trace w ++ notify_effects job err (now w) (db_outage w).
Proof.
  subst w'. rewrite on_failed_eq. unfold notify_effects.
  destruct (truthy_str (Some (orderId (job_data job)))).
  - now frame.
  - cbn. now rewrite app_nil_r.
Qed.

Lemma on_failed_logs :
  logs w' = logs w ++ flat_map log_of (notify_effects job err (now w) (db_outage w)).
Proof.
  subst w'. rewrite on_failed_eq. unfold notify_effects.
  destruct (truthy_str (Some (orderId (job_data job)))).
  - now frame.
  - cbn. now rewrite app_nil_r.
Qed.

Lemma on_failed_now : now w' = now w.
Proof.
  subst w'. rewrite on_failed_eq.
  destruct (truthy_str (Some (orderId (job_data job)))); [now frame | reflexivity].
Qed.

Lemma on_failed_listeners : listeners w' = listeners w.
Proof.
  subst w'. rewrite on_failed_eq.
  destruct (truthy_str (Some (orderId (job_data job)))); [now frame | reflexivity].
Qed.

End NotifyFrame.

Lemma record_trace e w : trace (record e w) = trace w ++ [e].
Proof. reflexivity. Qed.

Lemma record_now e w : now (record e w) = now w.
Proof. reflexivity. Qed.

Lemma record_db_outage e w : db_outage (record e w) = db_outage w.
Proof. reflexivity. Qed.

Lemma record_logs e w : logs (record e w) = logs w.
Proof. reflexivity. Qed.

Lemma record_listeners e w : listeners (record e w) = listeners w.
Proof. reflexivity. Qed.

#[export] Hint Rewrite
  handler_trace handler_logs handler_now handler_db_outage handler_listeners
  on_failed_trace on_failed_logs on_failed_now on_failed_listeners
  record_trace record_now record_db_outage record_logs record_listeners : frame.

(** An attempt whose swap succeeds completes the job. *)
Lemma run_attempts_success remaining attempt draws job w :
  fails (draws attempt) = false ->
  exists res,
    swap_of (draws attempt) (job_data job) (now w) = inr res
    /\ run_attempts (S remaining) attempt draws job w
       = (Ok (Completed res),
          after (handler (draws attempt) job)
                (record (EAttempt (jobId (opts job)) attempt) w)).
Proof.
  intro F. eexists. split.
  - rewrite swap_of_cases, F. reflexivity.
  - cbn [run_attempts]. rewrite bind_modify, bind_settle, handler_result.
    rewrite record_now, swap_of_cases, F. reflexivity.
Qed.

(** An attempt whose swap throws is reported to the [failed] listener and,
    if attempts remain, is followed by the next one after the backoff. *)
Lemma run_attempts_failure remaining attempt draws job w :
  fails (draws attempt) = true ->
  run_attempts (S remaining) attempt draws job w =
  let w1 := after (on_failed (Some job) network_failure)
                  (after (handler (draws attempt) job)
                         (record (EAttempt (jobId (opts job)) attempt) w)) in
  match remaining with
  | O => (Ok (Failed network_failure), w1)
  | S _ =>
      run_attempts remaining (S attempt) draws job
        (after (sleep (backoff (opts job) attempt))
               (record (ERetryIn (jobId (opts job)) (backoff (opts job) attempt)) w1))
  end.
Proof.
  intro F.
  cbn [run_attempts]. rewrite bind_modify, bind_settle, handler_result.
  rewrite record_now, swap_of_cases, F.
  rewrite bind_total by typeclasses eauto.
  destruct remaining; [reflexivity|].
  rewrite bind_modify. rewrite bind_total by typeclasses eauto. reflexivity.
Qed.


Section DispatchViews.

Variable id : string.

Lemma attempts_made_app t1 t2 :
  attempts_made id (t1 ++ t2) = attempts_made id t1 ++ attempts_made id t2.
Proof. apply flat_map_app. Qed.

Lemma retry_delays_app t1 t2 :
  retry_delays id (t1 ++ t2) = retry_delays id t1 ++ retry_delays id t2.
Proof. apply flat_map_app. Qed.

Lemma attempts_made_db q l o : attempts_made id (db_effects q l o) = [].
Proof. destruct o as [|[] o]; reflexivity. Qed.

Lemma retry_delays_db q l o : retry_delays id (db_effects q l o) = [].
Proof. destruct o as [|[] o]; reflexivity. Qed.

Lemma attempts_made_failed i err line t o :
  attempts_made id (failed_effects i err line t o) = [].
Proof.
  unfold failed_effects. now rewrite !attempts_made_app, attempts_made_db.
Qed.

Lemma retry_delays_failed i err line t o :
  retry_delays id (failed_effects i err line t o) = [].
Proof.
  unfold failed_effects. now rewrite !retry_delays_app, retry_delays_db.
Qed.

Lemma attempts_made_handler d order t o :
  attempts_made id (handler_effects d order t o) = [].
Proof.
  unfold handler_effects, routing_effects.
  rewrite !attempts_made_app, !attempts_made_db.
  destruct (swap_of d order t).
  - now rewrite attempts_made_failed.
  - unfold confirmed_effects. now rewrite !attempts_made_app, attempts_made_db.
Qed.

Lemma retry_delays_handler d order t o :
  retry_delays id (handler_effects d order t o) = [].
Proof.
  unfold handler_effects, routing_effects.
  rewrite !retry_delays_app, !retry_delays_db.
  destruct (swap_of d order t).
  - now rewrite retry_delays_failed.
  - unfold confirmed_effects. now rewrite !retry_delays_app, retry_delays_db.
Qed.

Lemma attempts_made_notify job err t o :
  attempts_made id (notify_effects job err t o) = [].
Proof.
  unfold notify_effects. destruct (truthy_str _); [|reflexivity].
  apply attempts_made_failed.
Qed.

Lemma retry_delays_notify job err t o :
  retry_delays id (notify_effects job err t o) = [].
Proof.
  unfold notify_effects. destruct (truthy_str _); [|reflexivity].
  apply retry_delays_failed.
Qed.

End DispatchViews.

Section Attempts.

Variables (draws : nat -> Draws) (job : Job).

Let jid := jobId (opts job).

(** The attempts of a job are numbered consecutively and there are as many
    as [attempts_run] says. *)
Lemma attempts_made_run remaining : forall attempt w,
  attempts_made jid (trace (after (run_attempts remaining attempt draws job) w))
  = attempts_made jid (trace w) ++ seq attempt (attempts_run draws remaining attempt).
Proof.
  induction remaining as [|r IH]; intros attempt w.
  - cbn. now rewrite app_nil_r.
  - cbn [attempts_run]. destruct (fails (draws attempt)) eqn:F.
    + unfold after at 1. rewrite (run_attempts_failure r attempt draws job w F).
      cbv zeta. destruct r as [|r].
      * cbn [snd attempts_run seq]. frame.
        rewrite !attempts_made_app, attempts_made_handler, attempts_made_notify.
        cbn. fold jid. now rewrite String.eqb_refl.
      * change (snd (run_attempts ?a ?b ?c ?d ?x)) with (after (run_attempts a b c d) x).
        rewrite IH. frame.
        rewrite !attempts_made_app, attempts_made_handler, attempts_made_notify.
        cbn [attempts_made flat_map attempt_of app seq]. fold jid.
        rewrite String.eqb_refl, !app_nil_r, <- app_assoc. reflexivity.
    + destruct (run_attempts_success r attempt draws job w F) as (res & _ & E).
      unfold after at 1. rewrite E. cbn [snd seq]. frame.
      rewrite !attempts_made_app, attempts_made_handler.
      cbn. fold jid. now rewrite String.eqb_refl.
Qed.

(** A retry is scheduled after every attempt but the last, with the
    backoff of the attempt that failed. *)
Lemma retry_delays_run remaining : forall attempt w,
  retry_delays jid (trace (after (run_attempts remaining attempt draws job) w))
  = retry_delays jid (trace w)
    ++ map (backoff (opts job)) (seq attempt (attempts_run draws remaining attempt - 1)).
Proof.
  induction remaining as [|r IH]; intros attempt w.
  - cbn. now rewrite app_nil_r.
  - cbn [attempts_run]. destruct (fails (draws attempt)) eqn:F.
    + unfold after at 1. rewrite (run_attempts_failure r attempt draws job w F).
      cbv zeta. destruct r as [|r].
      * cbn [snd attempts_run seq Nat.sub map]. frame.
        rewrite !retry_delays_app, retry_delays_handler, retry_delays_notify.
        cbn. now rewrite !app_nil_r.
      * change (snd (run_attempts ?a ?b ?c ?d ?x)) with (after (run_attempts a b c d) x).
        rewrite IH. frame.
        rewrite !retry_delays_app, retry_delays_handler, retry_delays_notify.
        cbn [retry_delays flat_map delay_of app]. fold jid.
        rewrite String.eqb_refl.
        assert (P : (0 < attempts_run draws (S r) (S attempt))%nat).
        { cbn [attempts_run]. destruct (fails (draws (S attempt))); lia. }
        destruct (attempts_run draws (S r) (S attempt)) as [|k]; [lia|].
        cbn [Nat.sub seq map app]. rewrite Nat.sub_0_r, <- app_assoc. reflexivity.
    + destruct (run_attempts_success r attempt draws job w F) as (res & _ & E).
      unfold after at 1. rewrite E. cbn [snd seq Nat.sub map]. frame.
      rewrite !retry_delays_app, retry_delays_handler.
      cbn. now rewrite !app_nil_r.
Qed.

Lemma attempts_run_bounds remaining : forall attempt,
  (attempts_run draws remaining attempt <= remaining)%nat
  /\ (0 < remaining -> 0 < attempts_run draws remaining attempt)%nat.
Proof.
  induction remaining as [|r IH]; intro attempt; cbn; [lia|].
  destruct (fails (draws attempt)); [|lia].
  specialize (IH (S attempt)). lia.
Qed.

Lemma all_fail_attempts_run remaining : forall attempt,
  all_fail draws remaining attempt = true ->
  attempts_run draws remaining attempt = remaining.
Proof.
  induction remaining as [|r IH]; intros attempt A; cbn in *; [reflexivity|].
  apply andb_true_iff in A as [F A]. rewrite F. now rewrite IH.
Qed.

Lemma ends_with_failed (pre : list Step) (id : string) :
  exists before,
    pre ++ [Publish id "failed"; Persist id "failed"] = before ++ [Persist id "failed"].
Proof.
  exists (pre ++ [Publish id "failed"]). now rewrite <- app_assoc.
Qed.

(** The job ends failed when every allowed attempt fails, and the last
    statement issued for the order then sets the status [failed]. *)
Lemma run_attempts_failed remaining : forall attempt w,
  all_fail draws (S remaining) attempt = true ->
  result (run_attempts (S remaining) attempt draws job) w = Ok (Failed network_failure)
  /\ exists before,
       steps (trace (after (run_attempts (S remaining) attempt draws job) w))
       = before ++ [Persist (orderId (job_data job)) "failed"].
Proof.
  induction remaining as [|r IH]; intros attempt w A;
    cbn [all_fail] in A; apply andb_true_iff in A as [F A].
  - unfold result, after. rewrite (run_attempts_failure 0 attempt draws job w F).
    cbv zeta. cbn [fst snd]. split; [reflexivity|]. frame.
    unfold handler_effects, notify_effects.
    rewrite swap_of_cases, F.
    rewrite !steps_app, !steps_failed.
    destruct (truthy_str (Some (orderId (job_data job)))).
    + rewrite steps_failed, !app_assoc. apply ends_with_failed.
    + change (steps (@nil Effect)) with (@nil Step).
      rewrite !app_nil_r, !app_assoc. apply ends_with_failed.
  - unfold result, after. rewrite (run_attempts_failure (S r) attempt draws job w F).
    cbv zeta.
    change (fst (run_attempts ?a ?b ?c ?d ?x)) with (result (run_attempts a b c d) x).
    change (snd (run_attempts ?a ?b ?c ?d ?x)) with (after (run_attempts a b c d) x).
    apply IH. exact A.
Qed.

(** Otherwise it ends completed, with the result of the first attempt that
    succeeds. *)
Lemma run_attempts_completed remaining : forall attempt w,
  all_fail draws (S remaining) attempt = false ->
  exists res, result (run_attempts (S remaining) attempt draws job) w = Ok (Completed res).
Proof.
  induction remaining as [|r IH]; intros attempt w A; cbn [all_fail] in A.
  - rewrite andb_true_r in A.
    destruct (run_attempts_success 0 attempt draws job w A) as (res & _ & E).
    exists res. unfold result. now rewrite E.
  - destruct (fails (draws attempt)) eqn:F.
    + unfold result. rewrite (run_attempts_failure (S r) attempt draws job w F).
      cbv zeta. apply IH. exact A.
    + destruct (run_attempts_success (S r) attempt draws job w F) as (res & _ & E).
      exists res. unfold result. now rewrite E.
Qed.

End Attempts.


(** ** Claims on retries and on the lifecycle *)

(** C5.  A job queued by the gateway is attempted at least once and at most
    three times, the attempts being numbered 1, 2, ...; after attempt [k]
    has thrown and while attempts remain, the next attempt is scheduled
    [1000 * 2^(k-1)] ms later; when all three attempts throw the job ends
    failed, the last status written for the order is [failed], and no
    fourth attempt is made; otherwise the job ends completed. *)
Theorem retry_policy (order : Order) (draws : nat -> Draws) (w : World) :
  let job := job_for order in
  let id := orderId order in
  let w' := after (process draws job) w in
  let n := attempts_run draws 3 1 in
  (1 <= n <= 3)%nat
  /\ attempts_made id (trace w') = attempts_made id (trace w) ++ seq 1 n
  /\ retry_delays id (trace w')
     = retry_delays id (trace w)
       ++ map (fun k => (1000 * 2 ^ N.of_nat (k - 1))%N) (seq 1 (n - 1))
  /\ (if all_fail draws 3 1
      then n = 3%nat
           /\ result (process draws job) w = Ok (Failed network_failure)
           /\ exists before, steps (trace w') = before ++ [Persist id "failed"]
      else exists res, result (process draws job) w = Ok (Completed res)).
Proof.
  intros job id w' n. subst w' n. unfold process.
  change (Nat.max 1 (attempts (opts job))) with 3%nat.
  split; [|split; [|split]].
  - pose proof (attempts_run_bounds draws 3 1). lia.
  - apply (attempts_made_run draws job 3 1 w).
  - etransitivity; [apply (retry_delays_run draws job 3 1 w)|]. reflexivity.
  - destruct (all_fail draws 3 1) eqn:A.
    + split; [now apply all_fail_attempts_run|].
      apply (run_attempts_failed draws job 2 1 w A).
    + apply (run_attempts_completed draws job 2 1 w A).
Qed.

(** C3, evaluated.  With the sample order, whose first attempt throws and
    whose second attempt succeeds, the statuses published for the order are
    [failed], twice, and later [confirmed], and the job ends completed. *)
Theorem failed_then_confirmed :
  let w' := after (process Sample.second_time_lucky Sample.job) Sample.world in
  published "order-0" (trace w')
  = ["routing"; "building"; "submitted"; "failed"; "failed";
     "routing"; "building"; "submitted"; "confirmed"]
  /\ attempts_made "order-0" (trace w') = [1; 2]%nat
  /\ exists res,
       result (process Sample.second_time_lucky Sample.job) Sample.world
       = Ok (Completed res).
Proof.
  cbv zeta. split; [|split].
  - vm_compute. reflexivity.
  - vm_compute. reflexivity.
  - eexists. vm_compute. reflexivity.
Qed.

(** C4 as stated fails: the sample order reaches [confirmed], and the
    statuses written for it and those published for it are not the five
    statuses in order. *)
Lemma confirmed_after_retry_repeats_statuses :
  let w' := after (process Sample.second_time_lucky Sample.job) Sample.world in
  (exists res, result (process Sample.second_time_lucky Sample.job) Sample.world
               = Ok (Completed res))
  /\ persisted "order-0" (trace w')
     = ["pending"; "routing"; "building"; "submitted"; "failed"; "failed";
        "pending"; "routing"; "building"; "submitted"; "confirmed"]
  /\ persisted "order-0" (trace w')
     <> ["pending"; "routing"; "building"; "submitted"; "confirmed"]
  /\ published "order-0" (trace w')
     <> ["routing"; "building"; "submitted"; "confirmed"].
Proof.
  cbv zeta. split; [|split; [|split]].
  - eexists. vm_compute. reflexivity.
  - vm_compute. reflexivity.
  - vm_compute. discriminate.
  - vm_compute. discriminate.
Qed.

Lemma handler_steps d job w :
  steps (trace (after (handler d job) w))
  = steps (trace w) ++ steps (handler_effects d (job_data job) (now w) (db_outage w)).
Proof. now rewrite handler_trace, steps_app. Qed.

Lemma handler_events d job w :
  events (orderId (job_data job)) (trace (after (handler d job) w))
  = events (orderId (job_data job)) (trace w)
    ++ events (orderId (job_data job))
              (handler_effects d (job_data job) (now w) (db_outage w)).
Proof. now rewrite handler_trace, events_app. Qed.

(** C4, as the code has it.  In every run of the handler that returns, that
    is, that reaches [confirmed], the statements and events of the run are,
    in this order: the insert, the write of [pending], and then for each of
    [routing], [building], [submitted], [confirmed] the event followed by
    the write of the status; every event is published under the order id and
    carries it, with the metadata of its stage.  A job whose first attempt
    returns consists of this one run. *)
Theorem confirmed_run_sequence (d : Draws) (job : Job) (w : World) (res : SwapResult) :
  result (handler d job) w = Ok res ->
  let id := orderId (job_data job) in
  let chosen := chosen_of d (job_data job) in
  let w' := after (handler d job) w in
  steps (trace w')
  = steps (trace w)
    ++ [Insert id; Persist id "pending";
        Publish id "routing"; Persist id "routing";
        Publish id "building"; Persist id "building";
        Publish id "submitted"; Persist id "submitted";
        Publish id "confirmed"; Persist id "confirmed"]
  /\ events id (trace w')
     = events id (trace w)
       ++ [status_only "routing" id;
           status_with "building" id
             [("dex", JStr (dex_name (dex chosen))); ("price", JNum (price chosen))];
           status_with "submitted" id [("dex", JStr (dex_name (dex chosen)))];
           status_with "confirmed" id
             [("txHash", JStr (txHash res));
              ("executedPrice", JNum (executedPrice res));
              ("dex", JStr (dex_name (dex chosen)))]]
  /\ forall draws, draws 1%nat = d ->
       steps (trace (after (process draws job) w))
       = steps (trace w')
       /\ result (process draws job) w = Ok (Completed res).
Proof.
  intros R. cbv zeta.
  rewrite handler_result in R.
  destruct (swap_of d (job_data job) (now w)) as [err|res'] eqn:S; [discriminate|].
  injection R as ->.
  split; [|split].
  - rewrite handler_steps. unfold handler_effects. rewrite S.
    now rewrite steps_app, steps_routing, steps_confirmed.
  - rewrite handler_events. unfold handler_effects. rewrite S.
    now rewrite events_app, events_routing, events_confirmed.
  - intros draws <-.
    assert (F : fails (draws 1%nat) = false).
    { rewrite swap_of_cases in S. now destruct (fails (draws 1%nat)). }
    unfold process.
    destruct (Nat.max 1 (attempts (opts job))) as [|r] eqn:M; [lia|].
    destruct (run_attempts_success r 1 draws job w F) as (res'' & S' & E).
    rewrite S in S'. injection S' as <-.
    unfold after at 1, result. rewrite E. cbn [fst snd]. split; [|reflexivity].
    rewrite !handler_steps. now rewrite record_trace, steps_app, app_nil_r.
Qed.

(** The sample order run with draws for which the swap succeeds. *)
Lemma confirmed_run_sequence_witness :
  steps (trace (after (handler Sample.lucky Sample.job) Sample.world))
  = [Insert "order-0"; Persist "order-0" "pending";
     Publish "order-0" "routing"; Persist "order-0" "routing";
     Publish "order-0" "building"; Persist "order-0" "building";
     Publish "order-0" "submitted"; Persist "order-0" "submitted";
     Publish "order-0" "confirmed"; Persist "order-0" "confirmed"].
Proof.
  refine (proj1 (confirmed_run_sequence Sample.lucky Sample.job Sample.world
                   (res := {| txHash := "MOCK_TX_2xk_1234";
                              executedPrice := 99 |}) _)).
  vm_compute. reflexivity.
Defined.


(** ** The orders table *)

Lemma has_order_In oid table : has_order oid table = true <-> In oid (map order_id table).
Proof.
  unfold has_order. rewrite existsb_exists, in_map_iff. split.
  - intros (r & I & E). apply String.eqb_eq in E. now exists r.
  - intros (r & E & I). exists r. split; [exact I | now apply String.eqb_eq].
Qed.

Lemma update_row_identity t oid st dex tx px err r :
  identity (update_row t oid st dex tx px err r) = identity r.
Proof. unfold update_row. now destruct (String.eqb (order_id r) oid). Qed.

Lemma update_row_id t oid st dex tx px err r :
  order_id (update_row t oid st dex tx px err r) = order_id r.
Proof. unfold update_row. now destruct (String.eqb (order_id r) oid). Qed.

Lemma run_query_unique t q table : unique_ids table -> unique_ids (run_query t q table).
Proof.
  unfold unique_ids. intro U. destruct q as [oid tin tout amt otype st created|oid st dex tx px err];
    cbn [run_query].
  - destruct (has_order oid table) eqn:H; [exact U|].
    rewrite map_app. cbn [map order_id].
    apply NoDup_app; [exact U | repeat constructor; intros [] |].
    intros a I [<-|[]]. apply has_order_In in I. congruence.
  - rewrite map_map. erewrite map_ext; [exact U|].
    intro r. apply update_row_id.
Qed.

Lemma run_query_insert_existing t oid tin tout amt otype st created table :
  has_order oid table = true ->
  run_query t (InsertOrder oid tin tout amt otype st created) table = table.
Proof. intro H. cbn. now rewrite H. Qed.

Lemma run_query_update_identity t oid st dex tx px err table :
  map identity (run_query t (UpdateOrder oid st dex tx px err) table) = map identity table.
Proof.
  cbn. rewrite map_map. apply map_ext. intro r. apply update_row_identity.
Qed.

Lemma guarded_unique q l w :
  unique_ids (rows w) -> unique_ids (rows (after (guarded q l) w)).
Proof.
  intro U. rewrite guarded_rows. destruct (outage_now w); [exact U|].
  now apply run_query_unique.
Qed.

(** C10.  From a table in which [order_id] is unique, [saveOrder] leaves a
    table in which it is unique; when the order already has a row the table
    is left exactly as it was, so the row of the first call, its
    [created_at] included, stays; and [updateOrderStatus], the only other
    writer, keeps [order_id] unique, adds and removes no row, and leaves the
    identifying columns and [created_at] of every row as they were. *)
Theorem saveOrder_idempotent (order : Order) (w : World) :
  unique_ids (rows w) ->
  let w1 := after (saveOrder order) w in
  unique_ids (rows w1)
  /\ (has_order (orderId order) (rows w) = true -> rows w1 = rows w)
  /\ (forall again, orderId again = orderId order ->
        has_order (orderId order) (rows w1) = true ->
        rows (after (saveOrder again) w1) = rows w1)
  /\ forall id st data,
       let w2 := after (updateOrderStatus id st data) w in
       unique_ids (rows w2) /\ map identity (rows w2) = map identity (rows w).
Proof.
  intros U w1. subst w1. split; [|split; [|split]].
  - rewrite after_saveOrder. now apply guarded_unique.
  - intro H. rewrite after_saveOrder, guarded_rows.
    destruct (outage_now w); [reflexivity|].
    now apply run_query_insert_existing.
  - intros again E H. rewrite (after_saveOrder again), guarded_rows.
    destruct (outage_now _); [reflexivity|].
    unfold insert_of. rewrite E. now apply run_query_insert_existing.
  - intros id st data w2. subst w2. rewrite updateOrderStatus_eq. split.
    + now apply guarded_unique.
    + rewrite guarded_rows. destruct (outage_now w); [reflexivity|].
      apply run_query_update_identity.
Qed.

(** Saving the sample order twice into the empty table leaves one row. *)
Lemma saveOrder_idempotent_witness :
  rows (after (saveOrder Sample.order) (after (saveOrder Sample.order) Sample.world))
  = rows (after (saveOrder Sample.order) Sample.world).
Proof.
  destruct (saveOrder_idempotent Sample.order Sample.world) as (_ & _ & A & _).
  - constructor.
  - apply A; reflexivity.
Defined.

(** ** Failures of the store *)

Section Outages.

Variables (B : Type) (f : Effect -> list B).
Hypothesis f_query : forall q ok, f (EQuery q ok) = [].
Hypothesis f_console : forall l, f (EConsoleError l) = [].

Lemma view_db q l o : flat_map f (db_effects q l o) = [].
Proof.
  destruct o as [|[] o]; cbn; now rewrite ?f_query, ?f_console.
Qed.

(** A view that shows no statement and no console line shows the same
    whatever the store does. *)
Lemma view_handler d order t o1 o2 :
  flat_map f (handler_effects d order t o1) = flat_map f (handler_effects d order t o2).
Proof.
  unfold handler_effects, routing_effects.
  rewrite !flat_map_app, !view_db.
  destruct (swap_of d order t); unfold failed_effects, confirmed_effects;
    now rewrite !flat_map_app, !view_db.
Qed.

End Outages.

Lemma with_database_now table outage w : now (with_database table outage w) = now w.
Proof. reflexivity. Qed.

Lemma with_database_logs table outage w : logs (with_database table outage w) = logs w.
Proof. reflexivity. Qed.

Lemma with_database_trace table outage w : trace (with_database table outage w) = trace w.
Proof. reflexivity. Qed.

(** C8.  [saveOrder] and [updateOrderStatus] return normally in every
    state, and when the pool rejects the statement they log the error to the
    console.  A run of the handler returns or throws the same, publishes the
    same events, writes the same routing log and takes the same time
    whatever the table holds and whichever statements the pool rejects. *)
Theorem persistence_failure_is_not_fatal
        (d : Draws) (job : Job) (w : World) (table : list Row) (outage : list bool) :
  (forall order, result (saveOrder order) w = Ok tt)
  /\ (forall id st data, result (updateOrderStatus id st data) w = Ok tt)
  /\ (forall order, outage_now w = true ->
        In (EConsoleError "Save order error:") (trace (after (saveOrder order) w))
        /\ rows (after (saveOrder order) w) = rows w)
  /\ (forall id st data, outage_now w = true ->
        In (EConsoleError "Update order status error:")
           (trace (after (updateOrderStatus id st data) w))
        /\ rows (after (updateOrderStatus id st data) w) = rows w)
  /\ let w2 := with_database table outage w in
     result (handler d job) w2 = result (handler d job) w
     /\ (forall name, events name (trace (after (handler d job) w2))
                      = events name (trace (after (handler d job) w)))
     /\ logs (after (handler d job) w2) = logs (after (handler d job) w)
     /\ now (after (handler d job) w2) = now (after (handler d job) w).
Proof.
  split; [|split; [|split; [|split]]].
  - intro order. apply total.
  - intros id st data. apply total.
  - intros order O. rewrite after_saveOrder, guarded_trace, guarded_rows, O.
    split; [|reflexivity]. apply in_or_app. right.
    unfold outage_now in O. unfold db_effects.
    destruct (db_outage w) as [|[] o]; try discriminate. right. now left.
  - intros id st data O.
    rewrite updateOrderStatus_eq, guarded_trace, guarded_rows, O.
    split; [|reflexivity]. apply in_or_app. right.
    unfold outage_now in O. unfold db_effects.
    destruct (db_outage w) as [|[] o]; try discriminate. right. now left.
  - cbv zeta. split; [|split; [|split]].
    + now rewrite !handler_result, with_database_now.
    + intro name. rewrite !handler_trace, !events_app.
      rewrite with_database_trace, with_database_now. f_equal.
      apply view_handler; reflexivity.
    + rewrite !handler_logs, with_database_logs, with_database_now. f_equal.
      apply view_handler; reflexivity.
    + now rewrite !handler_now, with_database_now.
Qed.

(** With the store rejecting the first statement, [saveOrder] returns and
    the error is on the console. *)
Lemma persistence_failure_is_not_fatal_witness :
  In (EConsoleError "Save order error:")
     (trace (after (saveOrder Sample.order) (with_database [] [true] Sample.world))).
Proof.
  destruct (persistence_failure_is_not_fatal Sample.lucky Sample.job
              (with_database [] [true] Sample.world) [] [])
    as (_ & _ & S & _).
  apply (S Sample.order). reflexivity.
Defined.


(** ** Printing numbers *)

Lemma digit_val_char d : (d < 36)%N -> digit_val (digit_char d) = d.
Proof.
  intro H. unfold digit_val, digit_char.
  destruct (N.ltb_spec d 10).
  - rewrite N_ascii_embedding by lia.
    destruct (N.ltb_spec (48 + d) 58); lia.
  - rewrite N_ascii_embedding by lia.
    destruct (N.ltb_spec (87 + d) 58); lia.
Qed.

Lemma digit_char_not_underscore d : (d < 36)%N -> Ascii.eqb (digit_char d) "_" = false.
Proof.
  intro H. apply Ascii.eqb_neq. intro E.
  apply (f_equal N_of_ascii) in E. unfold digit_char in E.
  destruct (N.ltb_spec d 10); rewrite N_ascii_embedding in E by lia;
    change (N_of_ascii "_") with 95%N in E; lia.
Qed.

Section Radix.

Variable radix : N.
Hypothesis radix_lo : (2 <= radix)%N.
Hypothesis radix_hi : (radix <= 36)%N.

(** Reading the digits printed for [n] in front of [rest] gives [n] and
    goes on with [rest]. *)
Lemma parse_digits_from fuel : forall n rest,
  (n < 2 ^ N.of_nat fuel)%N ->
  parse_radix radix (digits_from radix fuel n rest) 0 = parse_radix radix rest n.
Proof.
  induction fuel as [|fuel IH]; intros n rest B.
  - cbn in B. assert (n = 0%N) by lia. now subst.
  - cbn [digits_from].
    assert (M : (n mod radix < radix)%N) by (apply N.mod_lt; lia).
    assert (D : n = (radix * (n / radix) + n mod radix)%N) by (apply N.div_mod; lia).
    destruct (N.eqb_spec (n / radix) 0) as [Z|Z].
    + cbn [parse_radix]. rewrite digit_val_char by lia.
      f_equal. rewrite Z in D. lia.
    + rewrite IH.
      * cbn [parse_radix]. rewrite digit_val_char by lia. f_equal. lia.
      * rewrite Nat2N.inj_succ, N.pow_succ_r' in B.
        apply N.Div0.div_lt_upper_bound.
        nia.
Qed.

Lemma parse_toString n : parse_radix radix (toString_radix radix n) 0 = n.
Proof.
  unfold toString_radix. rewrite parse_digits_from; [reflexivity|].
  rewrite Nat2N.inj_succ, N2Nat.id.
  destruct n as [|p]; [reflexivity|].
  apply N.log2_spec. lia.
Qed.

Lemma toString_radix_inj n m : toString_radix radix n = toString_radix radix m -> n = m.
Proof.
  intro E. rewrite <- (parse_toString n), <- (parse_toString m). now rewrite E.
Qed.

Lemma digits_from_underscore_free fuel : forall n rest,
  underscore_free rest = true ->
  underscore_free (digits_from radix fuel n rest) = true.
Proof.
  induction fuel as [|fuel IH]; intros n rest U; cbn [digits_from]; [exact U|].
  assert (M : (n mod radix < radix)%N) by (apply N.mod_lt; lia).
  assert (U' : underscore_free (String (digit_char (n mod radix)) rest) = true).
  { cbn [underscore_free]. rewrite digit_char_not_underscore by lia. exact U. }
  destruct (n / radix =? 0)%N; [exact U' | now apply IH].
Qed.

Lemma toString_underscore_free n : underscore_free (toString_radix radix n) = true.
Proof. now apply digits_from_underscore_free. Qed.

End Radix.

(** Two strings without underscore that are followed by an underscore and
    more are equal as soon as the wholes are. *)
Lemma split_at_underscore (a b c e : string) :
  underscore_free a = true -> underscore_free b = true ->
  (a ++ "_" ++ c = b ++ "_" ++ e)%string -> a = b /\ c = e.
Proof.
  revert b. induction a as [|x a IH]; intros [|y b] Ua Ub E; cbn in *.
  - injection E as E. auto.
  - injection E as <- E. apply andb_true_iff in Ub as [Ub _]. discriminate.
  - injection E as -> E. apply andb_true_iff in Ua as [Ua _]. discriminate.
  - injection E as <- E.
    apply andb_true_iff in Ua as [_ Ua]. apply andb_true_iff in Ub as [_ Ub].
    destruct (IH b Ua Ub E) as [-> ->]. auto.
Qed.

(** The identifier tells the clock reading and the random suffix, and
    nothing else. *)
Lemma mock_tx_inj t r t' r' :
  mock_tx t r = mock_tx t' r' <-> t = t' /\ hash_suffix r = hash_suffix r'.
Proof.
  unfold mock_tx. fold (hash_suffix r) (hash_suffix r'). split.
  - intro E. cbn in E. repeat injection E as E.
    apply split_at_underscore in E as [E1 E2];
      try (apply toString_underscore_free; lia).
    split.
    + apply toString_radix_inj with (radix := 36%N); [lia | lia | exact E1].
    + apply toString_radix_inj with (radix := 10%N); [lia | lia | exact E2].
  - intros [-> ->]. reflexivity.
Qed.


(** ** The execution simulator *)

Lemma fails_iff (x : Q) :
  negb (Qle_bool (lit (2 # 100)) x) = true <-> (x < lit (2 # 100))%Q.
Proof.
  rewrite negb_true_iff. split.
  - intro H. apply Qnot_le_lt. intro L. apply Qle_bool_iff in L. congruence.
  - intro H. destruct (Qle_bool (lit (2 # 100)) x) eqn:E; [|reflexivity].
    apply Qle_bool_iff in E. exfalso. now apply (Qlt_not_le _ _ H).
Qed.

(** The ends of the price the simulator computes from a draw [p]:
    [100 * (0.98 + p * 0.04)], each operation rounded. *)
Lemma simulated_price_ends :
  fl (lit (4 # 100)) = lit (4 # 100)
  /\ fl (basePrice * fl (lit (98 # 100))) = 98%Q
  /\ fl (basePrice * fl (lit (98 # 100) + lit (4 # 100))) = 102%Q.
Proof. repeat split; vm_compute; reflexivity. Qed.

Lemma simulated_price_bounds (p : Q) :
  unit_interval p ->
  (98 <= fmul basePrice (fadd (lit (98 # 100)) (fmul p (lit (4 # 100)))) <= 102)%Q.
Proof.
  intros [L U]. destruct simulated_price_ends as (E0 & E1 & E2).
  assert (Pa : (0 <= lit (98 # 100))%Q) by (vm_compute; congruence).
  assert (Pc : (0 <= lit (4 # 100))%Q) by (vm_compute; congruence).
  assert (Pk : (0 <= basePrice)%Q) by (vm_compute; congruence).
  assert (Pl : (0 <= fl (lit (98 # 100)))%Q) by (vm_compute; congruence).
  destruct (ramp_bounds Pa Pc E0 L (Qlt_le_weak _ _ U)) as [A B].
  destruct (scaled_bounds Pk Pl A B) as [C D].
  rewrite E1 in C. rewrite E2 in D. split; assumption.
Qed.

(** The upper end is reached: the largest draw but one gives exactly 102. *)
Lemma simulated_price_reaches_102 :
  unit_interval (1 - (1 # 2) ^ 52)
  /\ fmul basePrice (fadd (lit (98 # 100)) (fmul (1 - (1 # 2) ^ 52) (lit (4 # 100))))
     = 102%Q.
Proof. split; [split|]; vm_compute; congruence. Qed.

Lemma mock_tx_not_empty t r : mock_tx t r <> "".
Proof. unfold mock_tx. cbn. discriminate. Qed.

(** C7, as the code has it.  A call of [executeSwap] throws the network
    failure when its failure draw is below 0.02 and otherwise returns; there
    is no third outcome.  What it returns is the identifier
    [MOCK_TX_<clock in base 36>_<suffix>], which is not empty, and a price
    that is computed from a fresh draw by the formula of the raydium quote,
    so lies between 98 and 102, the ends included, and is positive.  Two
    returned identifiers are equal exactly when the two calls read the same
    millisecond from the clock and drew the same suffix. *)
Theorem executeSwap_outcome (d : SwapDraws) (t : N) (venue : Dex) (order : Order) :
  unit_interval (s_price d) ->
  ((s_fail d < lit (2 # 100))%Q -> executeSwap d t venue order = inl network_failure)
  /\ ((lit (2 # 100) <= s_fail d)%Q ->
      exists res,
        executeSwap d t venue order = inr res
        /\ txHash res = mock_tx t (s_hash d)
        /\ txHash res <> ""
        /\ (98 <= executedPrice res <= 102)%Q
        /\ (0 < executedPrice res)%Q
        /\ executedPrice res
           = price (getRaydiumQuote {| q_sleep := s_sleep d; q_price := s_price d |}
                                    (tokenIn order) (tokenOut order) (amount order))
        /\ forall d' t' venue' order' res',
             executeSwap d' t' venue' order' = inr res' ->
             (txHash res' = txHash res
              <-> t' = t /\ hash_suffix (s_hash d') = hash_suffix (s_hash d))).
Proof.
  intro P. unfold executeSwap. split.
  - intro F. apply fails_iff in F. now rewrite F.
  - intro S.
    assert (F : negb (Qle_bool (lit (2 # 100)) (s_fail d)) = false).
    { apply negb_false_iff. now apply Qle_bool_iff. }
    rewrite F. eexists. split; [reflexivity|]. cbn [txHash executedPrice].
    pose proof (simulated_price_bounds P) as B.
    split; [reflexivity|]. split; [apply mock_tx_not_empty|].
    split; [exact B|]. split; [destruct B; lra|]. split; [reflexivity|].
    intros d' t' venue' order' res' E.
    destruct (negb (Qle_bool (lit (2 # 100)) (s_fail d'))); [discriminate|].
    injection E as <-. cbn [txHash]. apply mock_tx_inj.
Qed.

(** The swap of the sample run. *)
Lemma executeSwap_outcome_witness :
  exists res,
    executeSwap (sw Sample.lucky) 3800 meteora Sample.order = inr res
    /\ txHash res = "MOCK_TX_2xk_1234"
    /\ (0 < executedPrice res)%Q.
Proof.
  destruct (executeSwap_outcome (sw Sample.lucky) 3800 meteora Sample.order)
    as (_ & S).
  - split; [discriminate | reflexivity].
  - destruct S as (res & E & H & _ & _ & P & _).
    + vm_compute. discriminate.
    + exists res. split; [exact E|]. split; [|exact P].
      rewrite H. vm_compute. reflexivity.
Defined.

(** C7 as stated fails: two different calls return the same identifier. *)
Lemma transaction_ids_collide :
  Sample.first_call <> Sample.second_call
  /\ c_draws Sample.first_call <> c_draws Sample.second_call
  /\ exists r1 r2,
       call Sample.first_call = inr r1
       /\ call Sample.second_call = inr r2
       /\ txHash r1 = txHash r2.
Proof.
  split; [discriminate|]. split; [discriminate|].
  eexists. eexists. split; [vm_compute; reflexivity|].
  split; [vm_compute; reflexivity|]. reflexivity.
Qed.


(** ** Admission control *)

Module AdmissionFacts.

Import Admission.

Lemma filter_length_mono {A} (p q : A -> bool) (l : list A) :
  (forall x, In x l -> p x = true -> q x = true) ->
  (List.length (filter p l) <= List.length (filter q l))%nat.
Proof.
  induction l as [|x l IH]; intro H; cbn; [lia|].
  assert (IH' := IH (fun y I => H y (or_intror I))).
  destruct (p x) eqn:P.
  - rewrite (H x (or_introl eq_refl) P). cbn. lia.
  - destruct (q x); cbn; lia.
Qed.

Lemma drop_active_length job l :
  (List.length (drop_active job l) <= List.length l)%nat.
Proof.
  induction l as [|a l IH]; cbn; [lia|].
  destruct (String.eqb (fst a) job); cbn; lia.
Qed.

Lemma inv_initial : Inv initial.
Proof. split; cbn; [lia | tauto | intro; lia]. Qed.

Lemma inv_step st a : Inv st -> Inv (step st a).
Proof.
  intros [A P R]. destruct a as [job| |job|job|job|ms]; cbn [step].
  - split; assumption.
  - destruct (waiting st) as [|job rest]; [now split|].
    destruct (concurrency_gate st) eqn:C; cbn [andb]; [|now split].
    destruct (rate_gate st) eqn:G; [|now split].
    apply Nat.ltb_lt in C. apply Nat.ltb_lt in G.
    split; cbn [active starts clock].
    + rewrite length_app. cbn. lia.
    + intros s [<-|I]; [lia | now apply P].
    + intro t. unfold recent_starts in *. cbn [filter].
      destruct (in_window t (clock st)) eqn:W.
      * cbn [List.length].
        assert (L : (List.length (filter (in_window t) (starts st))
                     <= List.length (filter (in_window (clock st)) (starts st)))%nat).
        { apply filter_length_mono. intros s I Ws. specialize (P s I).
          unfold in_window in *.
          apply andb_true_iff in W as [W1 W2]. apply andb_true_iff in Ws as [S1 S2].
          apply N.leb_le in W1, S1. apply N.ltb_lt in W2, S2.
          apply andb_true_iff. split; [apply N.leb_le | apply N.ltb_lt]; lia. }
        lia.
      * apply R.
  - split; cbn [active starts clock]; try assumption.
    now rewrite length_map.
  - destruct (is_active job st); [|now split].
    split; cbn [active starts clock]; try assumption.
    pose proof (drop_active_length job (active st)). lia.
  - destruct (is_active job st); [|now split].
    split; cbn [active starts clock]; try assumption.
    pose proof (drop_active_length job (active st)). lia.
  - split; cbn [active starts clock]; try assumption.
    intros s I. specialize (P s I). lia.
Qed.

Lemma inv_fold acts : forall st, Inv st -> Inv (fold_left step acts st).
Proof.
  induction acts as [|a acts IH]; intros st I; cbn; [exact I|].
  apply IH. now apply inv_step.
Qed.

(** The jobs a state knows of. *)
Lemma drop_active_perm job l :
  existsb (fun a => String.eqb (fst a) job) l = true ->
  Permutation (map fst l) (job :: map fst (drop_active job l)).
Proof.
  induction l as [|a l IH]; cbn; [discriminate|].
  destruct (String.eqb_spec (fst a) job) as [E|E]; cbn.
  - intros _. now rewrite E.
  - intro H. cbn. rewrite (IH H). apply perm_swap.
Qed.

Lemma map_fst_advance job l : map fst (map (advance job) l) = map fst l.
Proof.
  rewrite map_map. apply map_ext. intro a. unfold advance.
  now destruct (String.eqb (fst a) job).
Qed.

Lemma jobs_step st a :
  Permutation (jobs (step st a)) (jobs st ++ enqueued [a]).
Proof.
  unfold jobs. destruct a as [job| |job|job|job|ms]; cbn [step enqueued];
    rewrite ?app_nil_r; try reflexivity.
  - cbn [waiting active finished].
    rewrite <- !app_assoc.
    apply Permutation_app_head. cbn [app]. rewrite app_assoc.
    apply Permutation_cons_append.
  - destruct (waiting st) as [|job rest] eqn:W; [now rewrite W|].
    destruct (concurrency_gate st && rate_gate st); [|now rewrite W].
    cbn [waiting active finished]. rewrite map_app. cbn [map fst].
    rewrite <- !app_assoc. cbn [app]. symmetry.
    rewrite (app_assoc rest _ (finished st)), (app_assoc rest _ (job :: finished st)).
    apply Permutation_middle.
  - cbn [waiting active finished]. now rewrite map_fst_advance.
  - destruct (is_active job st) eqn:A; [|reflexivity].
    cbn [waiting active finished]. unfold is_active in A.
    rewrite (drop_active_perm job (active st) A).
    apply Permutation_app_head. cbn [app]. symmetry.
    rewrite app_assoc. apply Permutation_cons_append.
  - destruct (is_active job st) eqn:A; [|reflexivity].
    cbn [waiting active finished]. unfold is_active in A.
    rewrite (drop_active_perm job (active st) A).
    rewrite <- app_assoc. apply Permutation_app_head. cbn [app].
    reflexivity.
Qed.

Lemma enqueued_app a b : enqueued (a ++ b) = enqueued a ++ enqueued b.
Proof.
  induction a as [|x a IH]; cbn; [reflexivity|].
  destruct x; cbn; now rewrite IH.
Qed.

Lemma jobs_fold acts : forall st,
  Permutation (jobs (fold_left step acts st)) (jobs st ++ enqueued acts).
Proof.
  induction acts as [|a acts IH]; intro st; cbn [fold_left].
  - cbn. now rewrite app_nil_r.
  - rewrite IH, jobs_step.
    change (a :: acts) with ([a] ++ acts). rewrite enqueued_app.
    now rewrite app_assoc.
Qed.

Lemma executing_le st : (executing st <= List.length (active st))%nat.
Proof. unfold executing. apply List.filter_length_le. Qed.

End AdmissionFacts.

(** C6.  In every state the dispatcher reaches, at most 10 jobs are being
    run, so at most 10 orders are in the building or submitted phase; every
    window of 60000 ms, wherever it ends, holds at most 100 job starts; the
    jobs that were enqueued are exactly, with multiplicity, those that wait,
    run or have finished; and an admission step either starts the job at the
    head of the queue, both gates being open, or leaves the state, and so
    the queue, as it is. *)
Theorem admission_bounds (acts : list Admission.Action) :
  let st := Admission.run acts in
  (List.length (Admission.active st) <= 10)%nat
  /\ (Admission.executing st <= 10)%nat
  /\ (forall t, Admission.recent_starts t (Admission.starts st) <= 100)%nat
  /\ Permutation (Admission.waiting st ++ map fst (Admission.active st)
                  ++ Admission.finished st)
                 (Admission.enqueued acts)
  /\ (Admission.step st Admission.Pull = st
      \/ Admission.concurrency_gate st = true
         /\ Admission.rate_gate st = true
         /\ exists job rest,
              Admission.waiting st = job :: rest
              /\ Admission.waiting (Admission.step st Admission.Pull) = rest
              /\ Admission.active (Admission.step st Admission.Pull)
                 = Admission.active st ++ [(job, Admission.Routing)]).
Proof.
  intro st. subst st. unfold Admission.run.
  destruct (AdmissionFacts.inv_fold acts AdmissionFacts.inv_initial) as [A P R].
  split; [exact A|]. split.
  - etransitivity; [apply AdmissionFacts.executing_le | exact A].
  - split; [exact R|]. split.
    + apply (AdmissionFacts.jobs_fold acts Admission.initial).
    + cbn [Admission.step].
      destruct (Admission.waiting _) as [|job rest] eqn:W; [now left|].
      destruct (Admission.concurrency_gate _); [|now left].
      destruct (Admission.rate_gate _); [|now left].
      right. split; [reflexivity|]. split; [reflexivity|].
      exists job, rest. auto.
Qed.


(** ** Sockets and subscriptions *)

Lemma lookup_update_same s f l :
  lookup_socket s (update_socket s f l) = option_map f (lookup_socket s l).
Proof.
  induction l as [|[s' x] l IH]; cbn; [reflexivity|].
  destruct (Nat.eqb s s') eqn:E; cbn; rewrite E; [reflexivity | exact IH].
Qed.

Lemma lookup_update_other s s' f l :
  s' <> s -> lookup_socket s' (update_socket s f l) = lookup_socket s' l.
Proof.
  intro N. induction l as [|[s'' x] l IH]; cbn; [reflexivity|].
  destruct (Nat.eqb s s'') eqn:E; cbn.
  - apply Nat.eqb_eq in E. subst s''.
    destruct (Nat.eqb_spec s' s); [contradiction | reflexivity].
  - destruct (Nat.eqb s' s''); [reflexivity | exact IH].
Qed.

Lemma is_open_update s s' f l :
  (forall x, is_open (f x) = is_open x) ->
  match lookup_socket s' (update_socket s f l) with
  | Some x => is_open x
  | None => false
  end
  = match lookup_socket s' l with
    | Some x => is_open x
    | None => false
    end.
Proof.
  intro H. destruct (Nat.eq_dec s' s) as [->|N].
  - rewrite lookup_update_same. destruct (lookup_socket s l); cbn; [apply H | reflexivity].
  - now rewrite lookup_update_other.
Qed.

(** Sending appends to the outbox of the socket and to no other. *)
Lemma sent_send s s' msg w :
  sent s (after (socket_send s' msg) w)
  = sent s w ++ (if Nat.eqb s' s
                 then match lookup_socket s (sockets w) with
                      | Some _ => [msg]
                      | None => []
                      end
                 else []).
Proof.
  unfold sent, socket_send, after. cbn.
  destruct (Nat.eqb_spec s' s) as [->|N].
  - rewrite lookup_update_same.
    destruct (lookup_socket s (sockets w)) as [x|]; reflexivity.
  - rewrite lookup_update_other by auto. now rewrite app_nil_r.
Qed.

Lemma open_send s s' msg w :
  socket_is_open s (after (socket_send s' msg) w) = socket_is_open s w.
Proof.
  unfold socket_is_open, socket_send, after. cbn.
  now apply is_open_update.
Qed.

Lemma socket_open_exists s w :
  socket_is_open s w = true -> exists x, lookup_socket s (sockets w) = Some x.
Proof.
  unfold socket_is_open. destruct (lookup_socket s (sockets w)) as [x|]; [|discriminate].
  intros _. now exists x.
Qed.

Section Delivery.

Variables (s : SocketId) (ev : Json).

Lemma run_listener_open l w :
  socket_is_open s (after (run_listener l ev) w) = socket_is_open s w.
Proof.
  unfold run_listener, after. rewrite bind_read.
  destruct (socket_is_open (h_socket l) w); [|reflexivity].
  apply open_send.
Qed.

Lemma run_listener_sent l w :
  sent s (after (run_listener l ev) w)
  = sent s w ++ (if Nat.eqb (h_socket l) s && socket_is_open s w
                 then [message_of ev l] else []).
Proof.
  unfold run_listener, after. rewrite bind_read.
  destruct (Nat.eqb_spec (h_socket l) s) as [E|N]; cbn [andb].
  - rewrite E. destruct (socket_is_open s w) eqn:O.
    + change (snd (socket_send ?a ?m ?x)) with (after (socket_send a m) x).
      rewrite sent_send, Nat.eqb_refl.
      destruct (socket_open_exists s w O) as (x & ->). reflexivity.
    + cbn. now rewrite app_nil_r.
  - destruct (socket_is_open (h_socket l) w).
    + change (snd (socket_send ?a ?m ?x)) with (after (socket_send a m) x).
      rewrite sent_send. destruct (Nat.eqb_spec (h_socket l) s); [contradiction|].
      reflexivity.
    + cbn. now rewrite app_nil_r.
Qed.

Lemma run_listeners_open ls : forall w,
  socket_is_open s (after (run_listeners ls ev) w) = socket_is_open s w.
Proof.
  induction ls as [|l ls IH]; intro w; cbn [run_listeners]; [reflexivity|].
  rewrite after_bind_total by typeclasses eauto.
  now rewrite IH, run_listener_open.
Qed.

Lemma run_listeners_sent ls : forall w,
  sent s (after (run_listeners ls ev) w)
  = sent s w ++ (if socket_is_open s w
                 then map (message_of ev) (filter (fun l => Nat.eqb (h_socket l) s) ls)
                 else []).
Proof.
  induction ls as [|l ls IH]; intro w; cbn [run_listeners].
  - cbn. destruct (socket_is_open s w); now rewrite app_nil_r.
  - rewrite after_bind_total by typeclasses eauto.
    rewrite IH, run_listener_open, run_listener_sent. cbn [filter].
    destruct (socket_is_open s w); rewrite ?andb_false_r, ?andb_true_r.
    + destruct (Nat.eqb (h_socket l) s); cbn [map app];
        now rewrite <- ?app_assoc, ?app_nil_r.
    + now rewrite !app_nil_r.
Qed.

End Delivery.

Lemma filter_filter {A} (p q : A -> bool) (l : list A) :
  filter q (filter p l) = filter (fun x => p x && q x) l.
Proof.
  induction l as [|x l IH]; cbn; [reflexivity|].
  destruct (p x); cbn; [|exact IH]. destruct (q x); now rewrite IH.
Qed.

(** Emitting forwards the event to the socket through each of its
    listeners for that name, and does nothing else to the socket. *)
Lemma emit_sent s name ev w :
  sent s (after (emit name ev) w) = sent s w ++ forwards s w name ev.
Proof.
  unfold emit, after. rewrite bind_modify, bind_read.
  change (snd (run_listeners ?ls ?e ?x)) with (after (run_listeners ls e) x).
  rewrite run_listeners_sent. unfold forwards. cbn [listeners record].
  change (socket_is_open s (record (EEmit name ev) w)) with (socket_is_open s w).
  change (sent s (record (EEmit name ev) w)) with (sent s w).
  now rewrite filter_filter.
Qed.

Lemma emit_open s name ev w :
  socket_is_open s (after (emit name ev) w) = socket_is_open s w.
Proof.
  unfold emit, after. rewrite bind_modify, bind_read.
  change (snd (run_listeners ?ls ?e ?x)) with (after (run_listeners ls e) x).
  now rewrite run_listeners_open.
Qed.


Section ChannelFrame.

Variables (s : SocketId) (w : World).

Lemma guarded_sent q l : sent s (after (guarded q l) w) = sent s w.
Proof. unfold sent. now rewrite guarded_sockets. Qed.

Lemma guarded_forwards q l name ev :
  forwards s (after (guarded q l) w) name ev = forwards s w name ev.
Proof. unfold forwards, socket_is_open. now rewrite guarded_sockets, guarded_listeners. Qed.

Lemma log_sent id e d : sent s (after (logRouting id e d) w) = sent s w.
Proof. reflexivity. Qed.

Lemma log_forwards id e d name ev :
  forwards s (after (logRouting id e d) w) name ev = forwards s w name ev.
Proof. reflexivity. Qed.

Lemma sleep_sent ms : sent s (after (sleep ms) w) = sent s w.
Proof. reflexivity. Qed.

Lemma sleep_forwards ms name ev :
  forwards s (after (sleep ms) w) name ev = forwards s w name ev.
Proof. reflexivity. Qed.

Lemma emit_forwards n e name ev :
  forwards s (after (emit n e) w) name ev = forwards s w name ev.
Proof. unfold forwards. now rewrite emit_open, emit_listeners. Qed.

Lemma record_sent e : sent s (record e w) = sent s w.
Proof. reflexivity. Qed.

Lemma record_forwards e name ev : forwards s (record e w) name ev = forwards s w name ev.
Proof. reflexivity. Qed.

End ChannelFrame.

Create Rewrite HintDb channel.

#[export] Hint Rewrite
  emit_sent guarded_sent log_sent sleep_sent record_sent
  emit_forwards guarded_forwards log_forwards sleep_forwards record_forwards : channel.

(** Evaluate a block of statements and collect what it sends. *)
Ltac channel :=
  unfold after at 1; run_effects;
  repeat match goal with
         | |- context [snd (?c ?x)] => change (snd (c x)) with (after c x)
         end;
  rewrite ?updateOrderStatus_eq, ?after_saveOrder;
  autorewrite with channel;
  rewrite <- ?app_assoc.

Lemma forward_db s w q l o : flat_map (forward_of s w) (db_effects q l o) = [].
Proof. destruct o as [|[] o]; reflexivity. Qed.

Section BlocksSend.

Variables (s : SocketId) (w : World).

Lemma prepare_sent d order :
  sent s (after (prepare d order) w)
  = sent s w ++ flat_map (forward_of s w) (routing_effects d order (now w) (db_outage w)).
Proof.
  unfold prepare, routing_effects. channel.
  rewrite !flat_map_app, !forward_db. cbn [flat_map forward_of log_entry app].
  now rewrite !app_nil_r.
Qed.

Lemma prepare_forwards d order name ev :
  forwards s (after (prepare d order) w) name ev = forwards s w name ev.
Proof. unfold prepare. channel. reflexivity. Qed.

Lemma confirm_sent d order res :
  sent s (after (confirm d order res) w)
  = sent s w ++ flat_map (forward_of s w)
                         (confirmed_effects d order res (now w) (db_outage w)).
Proof.
  unfold confirm, confirmed_effects. channel.
  rewrite !flat_map_app, !forward_db. cbn [flat_map forward_of log_entry app].
  now rewrite !app_nil_r.
Qed.

Lemma confirm_forwards d order res name ev :
  forwards s (after (confirm d order res) w) name ev = forwards s w name ev.
Proof. unfold confirm. channel. reflexivity. Qed.

Lemma report_sent id err line :
  sent s (after (report id err line) w)
  = sent s w ++ flat_map (forward_of s w)
                         (failed_effects id err line (now w) (db_outage w)).
Proof.
  unfold report, failed_effects. channel.
  rewrite !flat_map_app, !forward_db. cbn [flat_map forward_of log_entry app].
  now rewrite !app_nil_r.
Qed.

Lemma report_forwards id err line name ev :
  forwards s (after (report id err line) w) name ev = forwards s w name ev.
Proof. unfold report. channel. reflexivity. Qed.

End BlocksSend.

#[export] Hint Rewrite
  prepare_sent prepare_forwards confirm_sent confirm_forwards
  report_sent report_forwards : channel.

Lemma forward_of_ext s w1 w2 t :
  (forall name ev, forwards s w1 name ev = forwards s w2 name ev) ->
  flat_map (forward_of s w1) t = flat_map (forward_of s w2) t.
Proof.
  intro H. apply flat_map_ext. intros [name ev| | | | |]; cbn; auto.
Qed.

(** What a socket is sent during a run of the handler: the events of the
    run, each forwarded by the listeners the socket has for the order. *)
Lemma handler_sent s d job w :
  sent s (after (handler d job) w)
  = sent s w ++ flat_map (forward_of s w)
                         (handler_effects d (job_data job) (now w) (db_outage w)).
Proof.
  unfold after, handler_effects. rewrite handler_run.
  destruct (swap_of d (job_data job) (now w)); cbn [snd];
    autorewrite with channel; rewrite flat_map_app, <- ?app_assoc;
    rewrite (forward_of_ext s (after (prepare d (job_data job)) w) w)
      by (intros; apply prepare_forwards);
    autorewrite with frame; reflexivity.
Qed.

Lemma handler_forwards s d job w name ev :
  forwards s (after (handler d job) w) name ev = forwards s w name ev.
Proof.
  unfold after. rewrite handler_run.
  destruct (swap_of d (job_data job) (now w)); cbn [snd];
    autorewrite with channel; reflexivity.
Qed.


(** *** Registering a listener *)

Lemma forwards_none s w name ev :
  (forall l, In l (listeners w) -> h_socket l = s -> on_event l <> name) ->
  forwards s w name ev = [].
Proof.
  intro F. unfold forwards. destruct (socket_is_open s w); [|reflexivity].
  assert (E : filter (fun l => String.eqb (on_event l) name && Nat.eqb (h_socket l) s)
                     (listeners w) = []).
  { induction (listeners w) as [|l ls IH]; [reflexivity|]. cbn.
    destruct (Nat.eqb_spec (h_socket l) s) as [E|E].
    - destruct (String.eqb_spec (on_event l) name) as [E'|E'].
      + exfalso. apply (F l); [now left | exact E | exact E'].
      + cbn. apply IH. intros l' I. apply F. now right.
    - rewrite andb_false_r. apply IH. intros l' I. apply F. now right. }
  now rewrite E.
Qed.

Lemma forwards_unheard s w name ev :
  has_listener name w = false -> forwards s w name ev = [].
Proof.
  intro H. apply forwards_none. intros l I _ E.
  assert (T : has_listener name w = true).
  { apply existsb_exists. exists l. split; [exact I|]. now apply String.eqb_eq. }
  congruence.
Qed.

Lemma forwards_same s w w' name ev :
  socket_is_open s w' = socket_is_open s w -> listeners w' = listeners w ->
  forwards s w' name ev = forwards s w name ev.
Proof. intros O L. unfold forwards. now rewrite O, L. Qed.

Lemma channel_send s s' msg w :
  Views.channel_state s (after (socket_send s' msg) w) = Views.channel_state s w.
Proof.
  unfold Views.channel_state, socket_send, after. cbn.
  destruct (Nat.eq_dec s s') as [->|N].
  - rewrite lookup_update_same. now destruct (lookup_socket s' (sockets w)).
  - now rewrite lookup_update_other.
Qed.

Lemma channel_run_listener s l ev w :
  Views.channel_state s (after (run_listener l ev) w) = Views.channel_state s w.
Proof.
  unfold run_listener, after. rewrite bind_read.
  destruct (socket_is_open (h_socket l) w); [|reflexivity].
  apply channel_send.
Qed.

Lemma channel_run_listeners s ev ls : forall w,
  Views.channel_state s (after (run_listeners ls ev) w) = Views.channel_state s w.
Proof.
  induction ls as [|l ls IH]; intro w; cbn [run_listeners]; [reflexivity|].
  rewrite after_bind_total by typeclasses eauto.
  now rewrite IH, channel_run_listener.
Qed.

Lemma emit_channel s w name ev :
  Views.channel_state s (after (emit name ev) w) = Views.channel_state s w.
Proof.
  unfold emit, after. rewrite bind_modify, bind_read.
  change (snd (run_listeners ?ls ?e ?x)) with (after (run_listeners ls e) x).
  now rewrite channel_run_listeners.
Qed.

(** [on] announces the listener, if someone listens for that, and appends
    it. *)
Lemma on_run l w :
  after (on l) w
  = let w1 := if has_listener "newListener" w
              then after (emit "newListener" (JStr (on_event l))) w
              else w in
    set_listeners (listeners w1 ++ [l]) w1.
Proof.
  unfold on, after. rewrite bind_read.
  destruct (has_listener "newListener" w).
  - rewrite bind_total by typeclasses eauto. reflexivity.
  - reflexivity.
Qed.

#[export] Instance on_total l : Total (on l).
Proof.
  intro w. unfold on, result. rewrite bind_read.
  destruct (has_listener "newListener" w).
  - rewrite bind_total by typeclasses eauto. reflexivity.
  - reflexivity.
Qed.

Section OnFrame.

Variables (l : Listener) (w : World).

Lemma on_listeners : listeners (after (on l) w) = listeners w ++ [l].
Proof.
  rewrite on_run. cbv zeta. cbn [listeners set_listeners].
  destruct (has_listener "newListener" w); now rewrite ?emit_listeners.
Qed.

Lemma on_now : now (after (on l) w) = now w.
Proof.
  rewrite on_run. cbv zeta. cbn [now set_listeners].
  destruct (has_listener "newListener" w); now rewrite ?emit_now.
Qed.

Lemma on_db_outage : db_outage (after (on l) w) = db_outage w.
Proof.
  rewrite on_run. cbv zeta. cbn [db_outage set_listeners].
  destruct (has_listener "newListener" w); now rewrite ?emit_db_outage.
Qed.

Lemma on_open s : socket_is_open s (after (on l) w) = socket_is_open s w.
Proof.
  rewrite on_run. cbv zeta. unfold socket_is_open. cbn [sockets set_listeners].
  destruct (has_listener "newListener" w); [|reflexivity].
  apply emit_open.
Qed.

Lemma on_sent s :
  sent s (after (on l) w)
  = sent s w ++ forwards s w "newListener" (JStr (on_event l)).
Proof.
  rewrite on_run. cbv zeta. unfold sent at 1. cbn [sockets set_listeners].
  destruct (has_listener "newListener" w) eqn:H.
  - apply emit_sent.
  - rewrite forwards_unheard by exact H. now rewrite app_nil_r.
Qed.

Lemma on_channel s : Views.channel_state s (after (on l) w) = Views.channel_state s w.
Proof.
  rewrite on_run. cbv zeta. unfold Views.channel_state at 1. cbn [sockets set_listeners].
  destruct (has_listener "newListener" w); [|reflexivity].
  apply emit_channel.
Qed.

End OnFrame.

(** A subscription on a connection: the snapshot is sent, then the listener
    is registered, which the listeners for ["newListener"] are told of. *)
Lemma subscribe_run s data id x w :
  lookup_socket s (sockets w) = Some x ->
  get "orderId" data = Some (JStr id) -> id <> "" ->
  let w1 := after (ws_message s (Some data)) w in
  listeners w1 = listeners w ++ [listener_for s id]
  /\ sent s w1 = sent s w ++ pending_message id :: forwards s w "newListener" (JStr id)
  /\ Views.channel_state s w1
     = Some (is_open x, Some id, on_close x ++ [listener_for s id])
  /\ now w1 = now w
  /\ db_outage w1 = db_outage w.
Proof.
  intros L G N. cbv zeta.
  assert (T : truthy_str (Some id) = true).
  { cbn. now destruct (String.eqb_spec id ""). }
  unfold ws_message.
  destruct data; try discriminate. cbn [get] in G. cbn [get]. rewrite G, T.
  unfold after. rewrite !bind_modify.
  rewrite bind_total by typeclasses eauto.
  rewrite bind_total by typeclasses eauto.
  fold (listener_for s id) (pending_message id).
  set (wa := set_socket_of_order _ _).
  set (wb := after (socket_send s (pending_message id)) wa).
  set (wc := after (on (listener_for s id)) wb).
  cbn [snd modify].
  assert (La : lookup_socket s (sockets wa) = Some (set_subscribed id x)).
  { subst wa. cbn. now rewrite lookup_update_same, L. }
  assert (Oa : socket_is_open s wa = socket_is_open s w).
  { unfold socket_is_open. now rewrite La, L. }
  assert (Ob : socket_is_open s wb = socket_is_open s w).
  { subst wb. now rewrite open_send. }
  assert (Sb : sent s wb = sent s w ++ [pending_message id]).
  { subst wb. rewrite sent_send, Nat.eqb_refl, La. unfold sent. now rewrite La, L. }
  assert (Cb : Views.channel_state s wb = Some (is_open x, Some id, on_close x)).
  { subst wb. rewrite channel_send. unfold Views.channel_state. now rewrite La. }
  assert (Cc : Views.channel_state s wc = Some (is_open x, Some id, on_close x)).
  { subst wc. now rewrite on_channel. }
  split; [|split; [|split; [|split]]].
  - cbn [listeners set_sockets]. subst wc. now rewrite on_listeners.
  - unfold sent at 1. cbn [sockets set_sockets]. rewrite lookup_update_same.
    assert (Sc : sent s wc = sent s w ++ pending_message id
                                   :: forwards s w "newListener" (JStr id)).
    { subst wc. rewrite on_sent, Sb, <- app_assoc. cbn [app on_event listener_for].
      now rewrite (@forwards_same s w wb) by (exact Ob || reflexivity). }
    unfold sent in Sc at 1.
    destruct (lookup_socket s (sockets wc)); [exact Sc|].
    exact Sc.
  - unfold Views.channel_state in *. cbn [sockets set_sockets].
    rewrite lookup_update_same.
    destruct (lookup_socket s (sockets wc)) as [y|]; [|discriminate].
    cbn in Cc |- *. injection Cc as -> -> ->. reflexivity.
  - cbn [now set_sockets]. subst wc. now rewrite on_now.
  - cbn [db_outage set_sockets]. subst wc. now rewrite on_db_outage.
Qed.

Lemma filter_other_sockets s id (ls : list Listener) :
  (forall l, In l ls -> h_socket l <> s) ->
  filter (fun l => String.eqb (on_event l) id && Nat.eqb (h_socket l) s) ls = [].
Proof.
  induction ls as [|l ls IH]; intro F; [reflexivity|]. cbn.
  destruct (Nat.eqb_spec (h_socket l) s) as [E|E].
  - exfalso. apply (F l); [now left | exact E].
  - rewrite andb_false_r. apply IH. intros l' I. apply F. now right.
Qed.

Lemma forwards_subscribed s id ev w w1 :
  (forall l, In l (listeners w) -> h_socket l <> s) ->
  listeners w1 = listeners w ++ [listener_for s id] ->
  socket_is_open s w1 = true ->
  forwards s w1 id ev = [spread_with ev "orderId" (JStr id)].
Proof.
  intros F L O. unfold forwards. rewrite O, L, filter_app.
  rewrite (@filter_other_sockets s id (listeners w) F). cbn. now rewrite String.eqb_refl, Nat.eqb_refl.
Qed.

Lemma forwarded_events s id w t :
  (forall ev, forwards s w id ev = [spread_with ev "orderId" (JStr id)]) ->
  (forall name ev, In (EEmit name ev) t -> name = id) ->
  flat_map (forward_of s w) t
  = map (fun ev => spread_with ev "orderId" (JStr id)) (events id t).
Proof.
  intros F. induction t as [|e t IH]; intro N; [reflexivity|].
  cbn [flat_map events map]. fold (events id t).
  rewrite IH by (intros name ev I; apply (N name ev); now right).
  destruct e as [name ev| | | | |]; cbn [forward_of events_of app map]; try reflexivity.
  rewrite (N name ev (or_introl eq_refl)), String.eqb_refl, F. reflexivity.
Qed.

Lemma emits_db q l o name ev : ~ In (EEmit name ev) (db_effects q l o).
Proof. destruct o as [|[] o]; cbn; intuition discriminate. Qed.

Lemma handler_emits d order t o name ev :
  In (EEmit name ev) (handler_effects d order t o) -> name = orderId order.
Proof.
  unfold handler_effects, routing_effects, confirmed_effects, failed_effects, log_entry.
  destruct (swap_of d order t);
    rewrite !in_app_iff; cbn [In];
    intuition (try discriminate; try (now apply emits_db in H));
    match goal with
    | H : EEmit _ _ = EEmit _ _ |- _ => now injection H
    | H : In _ (db_effects _ _ _) |- _ => now apply emits_db in H
    end.
Qed.

Lemma handler_run_events d order t o :
  events (orderId order) (handler_effects d order t o) = run_events d order t.
Proof.
  unfold handler_effects, run_events. rewrite events_app, events_routing.
  destruct (swap_of d order t).
  - now rewrite events_failed.
  - now rewrite events_confirmed.
Qed.

(** The events of a run carry the order id already: forwarding them with
    the id of the subscription leaves them as they are. *)
Lemma run_events_carry_id d order t :
  map (fun ev => spread_with ev "orderId" (JStr (orderId order))) (run_events d order t)
  = run_events d order t.
Proof.
  unfold run_events. rewrite map_app. f_equal.
  destruct (swap_of d order t); reflexivity.
Qed.

(** C9, as the code has it.  A subscription to an order id on a new
    connection is answered at once with the pending snapshot, before the
    listener is registered, so before any event.  A run of the handler for
    that order then sends, in order, [routing], [building] with the venue
    and the price, [submitted] with the venue and then either [confirmed]
    with the transaction id, the executed price and the venue or [failed]
    with the error, each carrying the order id.  After the terminal status
    the connection is still open and the listener still registered: any
    event emitted later for the order is forwarded as well. *)
Theorem subscription_stream
        (s : SocketId) (data : Json) (id : string) (d : Draws) (job : Job) (w : World) :
  lookup_socket s (sockets w) = Some fresh_socket ->
  (forall l, In l (listeners w) -> h_socket l <> s) ->
  get "orderId" data = Some (JStr id) -> id <> "" ->
  orderId (job_data job) = id ->
  let w1 := after (ws_message s (Some data)) w in
  let w2 := after (handler d job) w1 in
  sent s w1 = [pending_message id]
  /\ sent s w2 = pending_message id :: run_events d (job_data job) (now w)
  /\ socket_is_open s w2 = true
  /\ In (listener_for s id) (listeners w2)
  /\ forall ev, sent s (after (emit id ev) w2)
                = sent s w2 ++ [spread_with ev "orderId" (JStr id)].
Proof.
  intros L F G N J. cbv zeta.
  destruct (subscribe_run s data w L G N) as (Ls & S1 & C1 & T & O).
  set (w1 := after (ws_message s (Some data)) w) in *.
  rewrite forwards_none in S1 by (intros l I E; now apply F in I).
  unfold sent in S1 at 2. rewrite L in S1. cbn [outbox fresh_socket app] in S1.
  assert (O1 : socket_is_open s w1 = true).
  { unfold socket_is_open. unfold Views.channel_state in C1.
    destruct (lookup_socket s (sockets w1)); [|discriminate].
    cbn in C1. now injection C1 as -> _ _. }
  assert (F1 : forall ev, forwards s w1 id ev = [spread_with ev "orderId" (JStr id)]).
  { intro ev. now apply forwards_subscribed with (w := w). }
  split; [exact S1|]. split; [|split; [|split]].
  - rewrite handler_sent, S1.
    rewrite (forwarded_events s w1 _ F1).
    + rewrite <- J, handler_run_events, run_events_carry_id, T. reflexivity.
    + intros name ev I. apply handler_emits in I. congruence.
  - assert (E : forwards s (after (handler d job) w1) id (JStr "")
                = forwards s w1 id (JStr "")) by apply handler_forwards.
    rewrite F1 in E. unfold forwards in E.
    destruct (socket_is_open s (after (handler d job) w1)); [reflexivity | discriminate].
  - rewrite handler_listeners, Ls. apply in_or_app. right. now left.
  - intro ev. rewrite emit_sent, handler_forwards. now rewrite F1.
Qed.


(** The sample connection subscribes and the sample order is run with
    draws for which the swap succeeds. *)
Lemma subscription_stream_witness :
  sent 7%nat (after (handler Sample.lucky Sample.job) Sample.subscribed)
  = pending_message "order-0"
    :: run_events Sample.lucky Sample.order 1000.
Proof.
  refine (proj1 (proj2 (@subscription_stream 7%nat Sample.subscribe "order-0"
                          Sample.lucky Sample.job Sample.world _ _ _ _ _))).
  - reflexivity.
  - intros l [].
  - reflexivity.
  - discriminate.
  - reflexivity.
Defined.

(** C9 as stated fails: in the sample run the connection is sent further
    messages after the terminal status [failed], [confirmed] among them, and
    after [confirmed] it is still open with its listener registered. *)
Lemma channel_outlives_terminal_status :
  statuses (sent 7%nat Sample.retried)
  = ["pending"; "routing"; "building"; "submitted"; "failed"; "failed";
     "routing"; "building"; "submitted"; "confirmed"]
  /\ ends_at_terminal (statuses (sent 7%nat Sample.retried)) = false
  /\ socket_is_open 7%nat Sample.retried = true
  /\ listeners Sample.retried = [listener_for 7%nat "order-0"].
Proof.
  split; [|split; [|split]]; vm_compute; reflexivity.
Qed.

(* ===================================================================== *)
(** * Further properties of the code *)
(* ===================================================================== *)

Import Reads Routes Views.

(** ** The routing log *)

Lemma getLogs_some id w :
  id <> "" ->
  getLogs (Some id) w = filter (fun l => String.eqb (l_orderId l) id) (logs w).
Proof.
  intro N. unfold getLogs, truthy_str.
  destruct (String.eqb_spec id ""); [contradiction | reflexivity].
Qed.

(** X1.  An entry logged for an order is returned last by a query for that
    order and by a query for all entries, with the time of logging and the
    event and data as given, and it is returned by no query for another
    order. *)
Theorem log_then_get (id ev : string) (d : option Json) (w : World) :
  id <> "" ->
  let entry := {| timestamp := now w; l_orderId := id; event := ev; data := d |} in
  let w' := after (logRouting id ev d) w in
  getLogs (Some id) w' = getLogs (Some id) w ++ [entry]
  /\ getLogs None w' = getLogs None w ++ [entry]
  /\ forall other, other <> id -> other <> "" ->
       getLogs (Some other) w' = getLogs (Some other) w.
Proof.
  intros N entry w'. subst w'. split; [|split].
  - rewrite !getLogs_some by exact N. rewrite log_logs, filter_app. cbn.
    now rewrite String.eqb_refl.
  - reflexivity.
  - intros other D O. rewrite !getLogs_some by exact O.
    rewrite log_logs, filter_app. cbn.
    destruct (String.eqb_spec id other) as [E|E]; [congruence|].
    now rewrite app_nil_r.
Qed.

(** The test "should log routing events with timestamp and orderId". *)
Lemma log_then_get_witness :
  getLogs (Some "order-1")
          (after (logRouting "order-1" "routing_started"
                             (Some (JObj [("dex", JStr "raydium")]))) Sample.world)
  = [{| timestamp := 1000; l_orderId := "order-1"; event := "routing_started";
        data := Some (JObj [("dex", JStr "raydium")]) |}].
Proof.
  refine (proj1 (@log_then_get "order-1" "routing_started"
                   (Some (JObj [("dex", JStr "raydium")])) Sample.world _)).
  discriminate.
Defined.

(** X2.  A query for a non-empty order id returns exactly the entries of
    that order, in the order in which they were logged; a query with the
    empty string, like a query without an id, returns the entries of all
    orders; and after [clearLogs] every query returns nothing. *)
Theorem getLogs_filters (id : string) (w : World) :
  id <> "" ->
  (forall entry, In entry (getLogs (Some id) w)
                 <-> In entry (logs w) /\ l_orderId entry = id)
  /\ (exists dropped, Permutation (getLogs (Some id) w ++ dropped) (logs w)
                      /\ Forall (fun l => l_orderId l <> id) dropped)
  /\ getLogs (Some "") w = logs w
  /\ getLogs None w = logs w
  /\ forall q, getLogs q (after clearLogs w) = [].
Proof.
  intro N. split; [|split; [|split; [|split]]].
  - intro entry. rewrite getLogs_some by exact N. rewrite filter_In.
    now rewrite String.eqb_eq.
  - rewrite getLogs_some by exact N.
    exists (filter (fun l => negb (String.eqb (l_orderId l) id)) (logs w)). split.
    + induction (logs w) as [|l ls IH]; [constructor|]. cbn.
      destruct (String.eqb (l_orderId l) id); cbn.
      * now constructor.
      * etransitivity; [apply Permutation_sym, Permutation_middle|]. now constructor.
    + apply Forall_forall. intros l I. apply filter_In in I as [_ I].
      apply negb_true_iff in I. now apply String.eqb_neq.
  - reflexivity.
  - reflexivity.
  - intro q. unfold getLogs. cbn. now destruct (truthy_str q).
Qed.

(** The test "should filter logs by orderId". *)
Lemma getLogs_filters_witness :
  In {| timestamp := 1000; l_orderId := "order-1"; event := "event-3"; data := None |}
     (getLogs (Some "order-1")
        (after (logRouting "order-1" "event-3" None)
           (after (logRouting "order-2" "event-2" None)
              (after (logRouting "order-1" "event-1" None) Sample.world)))).
Proof.
  apply (proj1 (@getLogs_filters "order-1" _ ltac:(discriminate))). split.
  - vm_compute. right. right. left. reflexivity.
  - reflexivity.
Defined.

(** ** Reading the orders table *)

Lemma getOrder_run id w :
  getOrder id w =
  if outage_now w
  then (Ok None, record (EConsoleError "Get order error:") (set_db_outage (tl (db_outage w)) w))
  else (Ok (row_of id (rows w)), set_db_outage (tl (db_outage w)) w).
Proof.
  unfold getOrder, try_catch, bind, pool_select.
  destruct (outage_now w); reflexivity.
Qed.

Lemma healthy_now w : healthy w -> outage_now w = false.
Proof. unfold healthy, outage_now. now intros ->. Qed.

Lemma guarded_healthy q l w : healthy w -> healthy (after (guarded q l) w).
Proof. unfold healthy. intro H. now rewrite guarded_db_outage, H. Qed.

Lemma guarded_rows_healthy q l w :
  healthy w -> rows (after (guarded q l) w) = run_query (now w) q (rows w).
Proof. intro H. now rewrite guarded_rows, healthy_now. Qed.

Lemma getOrder_healthy id w :
  healthy w -> result (getOrder id) w = Ok (row_of id (rows w)).
Proof. intro H. unfold result. now rewrite getOrder_run, healthy_now. Qed.

Lemma where_absent id table : has_order id table = false -> where_order_id id table = [].
Proof.
  unfold has_order, where_order_id. induction table as [|r table IH]; [reflexivity|].
  cbn. destruct (String.eqb (order_id r) id); [discriminate | exact IH].
Qed.

Lemma row_of_present id table :
  has_order id table = true -> exists r, row_of id table = Some r /\ order_id r = id.
Proof.
  unfold has_order, row_of, where_order_id.
  induction table as [|r table IH]; [discriminate|]. cbn.
  destruct (String.eqb_spec (order_id r) id) as [E|E]; [intros _; now exists r | exact IH].
Qed.

Lemma where_update id t oid st dex tx px err table :
  where_order_id id (run_query t (UpdateOrder oid st dex tx px err) table)
  = map (update_row t oid st dex tx px err) (where_order_id id table).
Proof.
  unfold where_order_id. cbn [run_query].
  induction table as [|r table IH]; [reflexivity|]. cbn.
  rewrite update_row_id. destruct (String.eqb (order_id r) id); cbn; now rewrite IH.
Qed.

Lemma row_of_update id t oid st dex tx px err table :
  row_of id (run_query t (UpdateOrder oid st dex tx px err) table)
  = option_map (update_row t oid st dex tx px err) (row_of id table).
Proof.
  unfold row_of. rewrite where_update. now destruct (where_order_id id table).
Qed.

Lemma update_row_other t oid st dex tx px err r :
  order_id r <> oid -> update_row t oid st dex tx px err r = r.
Proof.
  intro N. unfold update_row. now destruct (String.eqb_spec (order_id r) oid).
Qed.

Lemma where_ids id table : Forall (fun r => order_id r = id) (where_order_id id table).
Proof.
  apply Forall_forall. intros r I. apply filter_In in I as [_ E].
  now apply String.eqb_eq.
Qed.

Lemma row_of_id id table r : row_of id table = Some r -> order_id r = id.
Proof.
  unfold row_of. intro H. pose proof (where_ids id table) as F.
  destruct (where_order_id id table) as [|x l]; [discriminate|].
  injection H as <-. now inversion F.
Qed.

Lemma row_of_insert id order t table :
  row_of id (run_query t (insert_of order t) table)
  = if has_order (orderId order) table then row_of id table
    else if String.eqb (orderId order) id
         then match row_of id table with
              | Some r => Some r
              | None => Some (new_row order t)
              end
         else row_of id table.
Proof.
  unfold insert_of. cbn [run_query].
  destruct (has_order (orderId order) table) eqn:H; [reflexivity|].
  unfold row_of, where_order_id. rewrite filter_app. cbn [filter order_id].
  fold (where_order_id id table).
  destruct (String.eqb (orderId order) id).
  - destruct (where_order_id id table); reflexivity.
  - now rewrite app_nil_r.
Qed.

(** X3.  With the store accepting the statements: after [saveOrder] for an
    order that has no row, [getOrder] returns the order's fields with status
    [pending], no venue, transaction, price or error, the order's
    [createdAt] (the time of saving if it has none) and the time of saving
    as [updated_at]; for an order that has a row it returns that row as
    before; and the rows of other orders are found as before. *)
Theorem save_then_get (order : Order) (w : World) :
  healthy w ->
  let w1 := after (saveOrder order) w in
  (has_order (orderId order) (rows w) = false ->
   result (getOrder (orderId order)) w1
   = Ok (Some {| order_id := orderId order; token_in := tokenIn order;
                 token_out := tokenOut order; r_amount := amount order;
                 order_type := type order; status := "pending";
                 chosen_dex := None; tx_hash := None; executed_price := None;
                 error_message := None;
                 created_at := match createdAt order with
                               | Some c => c
                               | None => now w
                               end;
                 updated_at := now w |}))
  /\ (has_order (orderId order) (rows w) = true ->
      result (getOrder (orderId order)) w1 = result (getOrder (orderId order)) w)
  /\ forall other, other <> orderId order ->
       result (getOrder other) w1 = result (getOrder other) w.
Proof.
  intros H w1. subst w1.
  assert (H1 : healthy (after (saveOrder order) w)).
  { rewrite after_saveOrder. now apply guarded_healthy. }
  assert (R : rows (after (saveOrder order) w)
              = run_query (now w) (insert_of order (now w)) (rows w)).
  { rewrite after_saveOrder. now apply guarded_rows_healthy. }
  split; [|split].
  - intro A. rewrite getOrder_healthy by exact H1.
    rewrite R, row_of_insert, A, String.eqb_refl.
    unfold row_of. now rewrite (where_absent _ _ A).
  - intro P. rewrite !getOrder_healthy by assumption.
    now rewrite R, row_of_insert, P.
  - intros other D. rewrite !getOrder_healthy by assumption.
    rewrite R, row_of_insert.
    destruct (has_order (orderId order) (rows w)); [reflexivity|].
    destruct (String.eqb_spec (orderId order) other); [congruence | reflexivity].
Qed.

(** The sample order saved into the empty table. *)
Lemma save_then_get_witness :
  result (getOrder "order-0") (after (saveOrder Sample.order) Sample.world)
  = Ok (Some (new_row Sample.order 1000)).
Proof.
  refine (proj1 (@save_then_get Sample.order Sample.world _) _); reflexivity.
Defined.

(** X4.  [updateOrderStatus] for an order that has no row writes nothing:
    the table is as before and [getOrder] still finds no row; yet the call
    returns normally, and when the store accepts the statement it is
    recorded as a success and nothing is logged to the console: the status
    is lost silently. *)
Theorem update_without_row (id st : string) (data : option StatusData) (w : World) :
  has_order id (rows w) = false ->
  let w1 := after (updateOrderStatus id st data) w in
  rows w1 = rows w
  /\ result (updateOrderStatus id st data) w = Ok tt
  /\ result (getOrder id) w1 = Ok None
  /\ (outage_now w = false ->
      trace w1 = trace w ++ [EQuery (update_of id st data) true]).
Proof.
  intros A w1. subst w1.
  assert (R : rows (after (updateOrderStatus id st data) w) = rows w).
  { rewrite updateOrderStatus_eq, guarded_rows.
    destruct (outage_now w); [reflexivity|].
    unfold update_of. cbn [run_query].
    rewrite <- (map_id (rows w)) at 2. apply map_ext_in.
    intros r I. apply update_row_other. intro E.
    assert (P : has_order id (rows w) = true).
    { apply has_order_In. rewrite <- E. now apply in_map. }
    congruence. }
  split; [exact R|]. split; [apply total|]. split.
  - unfold result. rewrite getOrder_run, R.
    destruct (outage_now _); [reflexivity|]. cbn [fst].
    unfold row_of. now rewrite (where_absent _ _ A).
  - intro O. rewrite updateOrderStatus_eq, guarded_trace. unfold db_effects.
    unfold outage_now in O. destruct (db_outage w) as [|[] o]; try discriminate;
      reflexivity.
Qed.

(** A status written for the sample order before it was saved. *)
Lemma update_without_row_witness :
  rows (after (updateOrderStatus "order-0" "routing" None) Sample.world) = [].
Proof.
  refine (proj1 (@update_without_row "order-0" "routing" None Sample.world _)).
  reflexivity.
Defined.

(** X5.  With the store accepting the statements, after [updateOrderStatus]
    for an order that has a row [getOrder] returns that row with the new
    status and the time of the update as [updated_at]; a venue, transaction
    id or error that is given and not empty, and a price that is given,
    replace the stored one, and otherwise the stored one stays: no call
    clears a column.  The identifying columns and [created_at] are as
    before. *)
Theorem update_then_get (id st : string) (data : option StatusData) (r : Row) (w : World) :
  healthy w ->
  result (getOrder id) w = Ok (Some r) ->
  let d := match data with
           | Some d => d
           | None => no_data
           end in
  exists r',
    result (getOrder id) (after (updateOrderStatus id st data) w) = Ok (Some r')
    /\ status r' = st
    /\ updated_at r' = now w
    /\ identity r' = identity r
    /\ chosen_dex r' = or_else (if_truthy (chosenDex d)) (chosen_dex r)
    /\ tx_hash r' = or_else (if_truthy (d_txHash d)) (tx_hash r)
    /\ executed_price r' = or_else (d_executedPrice d) (executed_price r)
    /\ error_message r' = or_else (if_truthy (error d)) (error_message r).
Proof.
  intros H G d.
  rewrite getOrder_healthy in G by exact H. injection G as G.
  pose proof (row_of_id _ _ G) as I.
  assert (H1 : healthy (after (updateOrderStatus id st data) w)).
  { rewrite updateOrderStatus_eq. now apply guarded_healthy. }
  eexists. split.
  - rewrite getOrder_healthy by exact H1.
    rewrite updateOrderStatus_eq, guarded_rows_healthy by exact H.
    unfold update_of. rewrite row_of_update, G. reflexivity.
  - unfold update_row.
    destruct (String.eqb_spec (order_id r) id) as [_|N]; [|contradiction].
    cbn. repeat split; reflexivity.
Qed.

(** The sample order, saved and then moved to [building] on raydium. *)
Lemma update_then_get_witness :
  exists r',
    result (getOrder "order-0")
           (after (updateOrderStatus "order-0" "building"
                     (Some {| chosenDex := Some "raydium"; d_txHash := None;
                              d_executedPrice := None; error := None |}))
                  (after (saveOrder Sample.order) Sample.world))
    = Ok (Some r')
    /\ status r' = "building" /\ chosen_dex r' = Some "raydium".
Proof.
  destruct (@update_then_get "order-0" "building"
              (Some {| chosenDex := Some "raydium"; d_txHash := None;
                       d_executedPrice := None; error := None |})
              (new_row Sample.order 1000)
              (after (saveOrder Sample.order) Sample.world))
    as (r' & G & S & _ & _ & C & _).
  - reflexivity.
  - reflexivity.
  - exists r'. split; [exact G|]. split; [exact S | exact C].
Defined.

(** X6.  A store failure during [getOrder] is not told apart from a missing
    order: the call logs the error and returns [null], and the route answers
    404 "Order not found" although the order has a row.  With the store
    answering, the route answers 404 exactly when the order has no row, and
    otherwise sends the row.  Neither changes the table. *)
Theorem get_order_route (id : string) (w : World) :
  (outage_now w = true ->
   result (get_order id) w = Ok (OrderNotFound 404 "Order not found")
   /\ In (EConsoleError "Get order error:") (trace (after (get_order id) w)))
  /\ (outage_now w = false ->
      result (get_order id) w
      = match row_of id (rows w) with
        | Some r => Ok (OrderFound r)
        | None => Ok (OrderNotFound 404 "Order not found")
        end
      /\ (result (get_order id) w = Ok (OrderNotFound 404 "Order not found")
          <-> has_order id (rows w) = false))
  /\ rows (after (get_order id) w) = rows w.
Proof.
  unfold get_order, result, after, bind. rewrite getOrder_run.
  destruct (outage_now w) eqn:O.
  - split; [|split]; [| discriminate | reflexivity].
    intros _. split; [reflexivity|]. cbn. apply in_or_app. right. now left.
  - split; [discriminate|]. split; [|now destruct (row_of id (rows w))].
    intros _. split; [now destruct (row_of id (rows w))|].
    destruct (has_order id (rows w)) eqn:P.
    + destruct (row_of_present _ _ P) as (r & -> & _). cbn. split; discriminate.
    + unfold row_of. rewrite (where_absent _ _ P). cbn. tauto.
Qed.

(** The saved sample order is reported missing when the store fails. *)
Lemma get_order_route_witness :
  result (get_order "order-0")
         (with_database [new_row Sample.order 1000] [true] Sample.world)
  = Ok (OrderNotFound 404 "Order not found").
Proof.
  refine (proj1 (proj1 (@get_order_route "order-0"
            (with_database [new_row Sample.order 1000] [true] Sample.world)) _)).
  reflexivity.
Defined.

(** ** Listing the orders *)

Lemma insert_desc_perm r l : Permutation (insert_desc r l) (r :: l).
Proof.
  induction l as [|x l IH]; cbn; [reflexivity|].
  destruct (created_at x <=? created_at r)%N; [reflexivity|].
  rewrite IH. apply perm_swap.
Qed.

Lemma order_by_perm table : Permutation (order_by_created_at_desc table) table.
Proof.
  induction table as [|r table IH]; cbn; [constructor|].
  rewrite insert_desc_perm. now constructor.
Qed.

Lemma insert_desc_sorted r l :
  StronglySorted not_newer l -> StronglySorted not_newer (insert_desc r l).
Proof.
  induction 1 as [|x l S IH F]; cbn; [repeat constructor|].
  destruct (N.leb_spec (created_at x) (created_at r)) as [L|L].
  - constructor; [now constructor|]. constructor; [exact L|].
    eapply Forall_impl; [|exact F]. unfold not_newer. intros b B. lia.
  - constructor; [exact IH|].
    apply (Permutation_Forall (Permutation_sym (insert_desc_perm r l))).
    constructor; [unfold not_newer; lia | exact F].
Qed.

Lemma order_by_sorted table : StronglySorted not_newer (order_by_created_at_desc table).
Proof.
  induction table as [|r table IH]; cbn; [constructor|].
  now apply insert_desc_sorted.
Qed.

Lemma sorted_split {A} (R : A -> A -> Prop) (l1 l2 : list A) :
  StronglySorted R (l1 ++ l2) ->
  StronglySorted R l1 /\ forall a b, In a l1 -> In b l2 -> R a b.
Proof.
  induction l1 as [|x l1 IH]; cbn; intro S.
  - split; [constructor | intros a b []].
  - inversion S as [|? ? S' F]; subst. destruct (IH S') as [S1 C].
    apply Forall_app in F as [F1 F2]. split; [now constructor|].
    intros a b [<-|I] B; [|now apply C].
    rewrite Forall_forall in F2. now apply F2.
Qed.

Lemma getAllOrders_run limit w :
  getAllOrders limit w =
  if outage_now w
  then (Ok [], record (EConsoleError "Get all orders error:")
                      (set_db_outage (tl (db_outage w)) w))
  else (Ok (firstn (match limit with
                    | Some n => n
                    | None => 100%nat
                    end) (order_by_created_at_desc (rows w))),
        set_db_outage (tl (db_outage w)) w).
Proof.
  unfold getAllOrders, try_catch, pool_select.
  destruct (outage_now w); reflexivity.
Qed.

(** X7.  [getAllOrders] returns, when the store answers, the newest rows of
    the table, newest first: as many as the limit (100 when omitted) or all
    if there are fewer, each one a row of the table and none more often
    than the table has it, and every row left out is not newer than any row
    returned.  When the store fails it logs the error and returns the empty
    list.  The table is not changed. *)
Theorem list_recent_orders (limit : option nat) (w : World) :
  let n := match limit with
           | Some n => n
           | None => 100%nat
           end in
  (outage_now w = true ->
   result (getAllOrders limit) w = Ok []
   /\ In (EConsoleError "Get all orders error:") (trace (after (getAllOrders limit) w)))
  /\ (outage_now w = false ->
      exists listed rest,
        result (getAllOrders limit) w = Ok listed
        /\ Permutation (listed ++ rest) (rows w)
        /\ List.length listed = Nat.min n (List.length (rows w))
        /\ StronglySorted not_newer listed
        /\ forall a b, In a listed -> In b rest -> not_newer a b)
  /\ rows (after (getAllOrders limit) w) = rows w.
Proof.
  intro n. unfold result, after. rewrite getAllOrders_run. fold n.
  destruct (outage_now w).
  - split; [|split]; [| discriminate | reflexivity].
    intros _. split; [reflexivity|]. cbn. apply in_or_app. right. now left.
  - split; [discriminate|]. split; [|reflexivity]. intros _.
    set (sorted := order_by_created_at_desc (rows w)).
    exists (firstn n sorted), (skipn n sorted).
    pose proof (order_by_sorted (rows w)) as S. fold sorted in S.
    rewrite <- (firstn_skipn n sorted) in S. apply sorted_split in S as [S C].
    split; [reflexivity|]. split; [|split; [|split]].
    + rewrite firstn_skipn. apply order_by_perm.
    + rewrite length_firstn. unfold sorted.
      now rewrite (Permutation_length (order_by_perm (rows w))).
    + exact S.
    + exact C.
Qed.

(** A table of two orders, listed with the default limit. *)
Lemma list_recent_orders_witness :
  exists listed,
    result get_orders
           (with_database [new_row Sample.order 1000; new_row Sample.other_order 1200]
                          [] Sample.world)
    = Ok listed
    /\ List.length listed = 2%nat
    /\ StronglySorted not_newer listed.
Proof.
  destruct (@list_recent_orders None
              (with_database [new_row Sample.order 1000; new_row Sample.other_order 1200]
                             [] Sample.world))
    as (_ & L & _).
  destruct L as (listed & rest & R & _ & N & S & _); [reflexivity|].
  exists listed. split; [exact R|]. split; [exact N | exact S].
Defined.

(** ** What a run leaves in the table *)

(** With the store accepting every statement, evaluate the table that a
    block of statements leaves. *)
Ltac still_healthy H :=
  unfold healthy in *; autorewrite with frame; rewrite H; reflexivity.

Ltac table H :=
  unfold after at 1; run_effects;
  repeat match goal with
         | |- context [snd (?c ?x)] => change (snd (c x)) with (after c x)
         end;
  rewrite ?updateOrderStatus_eq, ?after_saveOrder;
  repeat first
    [ rewrite guarded_rows_healthy by still_healthy H
    | rewrite emit_rows
    | rewrite log_rows
    | rewrite sleep_rows ];
  autorewrite with frame.

Lemma prepare_rows d order w :
  healthy w ->
  rows (after (prepare d order) w)
  = apply_writes (firstn 5 (run_writes d order (now w))) (rows w).
Proof.
  intro H. unfold prepare. table H. reflexivity.
Qed.

Lemma prepare_healthy d order w : healthy w -> healthy (after (prepare d order) w).
Proof. unfold healthy. intro H. now rewrite prepare_db_outage, H. Qed.

Lemma confirm_rows d order res w :
  healthy w ->
  rows (after (confirm d order res) w)
  = run_query (now w)
      (update_of (orderId order) "confirmed"
         (Some {| chosenDex := None; d_txHash := Some (txHash res);
                  d_executedPrice := Some (executedPrice res); error := None |}))
      (rows w).
Proof. intro H. unfold confirm. table H. reflexivity. Qed.

Lemma report_rows id err line w :
  healthy w ->
  rows (after (report id err line) w)
  = run_query (now w) (update_of id "failed" (Some (error_data (error_text err))))
              (rows w).
Proof. intro H. unfold report. table H. reflexivity. Qed.

(** The table after a run is the table before it with the statements of
    the run applied in order. *)
Lemma handler_rows d job w :
  healthy w ->
  rows (after (handler d job) w)
  = apply_writes (run_writes d (job_data job) (now w)) (rows w).
Proof.
  intro H. unfold after. rewrite handler_run.
  pose proof (prepare_healthy d (job_data job) H) as H1.
  unfold run_writes.
  destruct (swap_of d (job_data job) (now w)) as [err|res]; cbn [snd].
  - rewrite report_rows by exact H1.
    rewrite prepare_rows, prepare_now by exact H. reflexivity.
  - rewrite confirm_rows by exact H1.
    rewrite prepare_rows, prepare_now by exact H. reflexivity.
Qed.

Lemma handler_healthy d job w : healthy w -> healthy (after (handler d job) w).
Proof. unfold healthy. intro H. now rewrite handler_db_outage, H. Qed.

Lemma dex_name_truthy v : if_truthy (Some (dex_name v)) = Some (dex_name v).
Proof. now destruct v. Qed.

Lemma error_text_truthy err : if_truthy (Some (error_text err)) = Some (error_text err).
Proof.
  unfold if_truthy, truthy_str, error_text.
  destruct (String.eqb_spec (message err) "") as [E|E]; [reflexivity|].
  now destruct (String.eqb_spec (message err) "").
Qed.

Lemma swap_hash_truthy d order t res :
  swap_of d order t = inr res -> if_truthy (Some (txHash res)) = Some (txHash res).
Proof.
  rewrite swap_of_cases. destruct (fails d); [discriminate|].
  intro E. injection E as <-. reflexivity.
Qed.

Lemma update_row_same t oid st dex tx px err r :
  order_id r = oid ->
  update_row t oid st dex tx px err r
  = {| order_id := order_id r; token_in := token_in r; token_out := token_out r;
       r_amount := r_amount r; order_type := order_type r;
       status := st;
       chosen_dex := or_else dex (chosen_dex r);
       tx_hash := or_else tx (tx_hash r);
       executed_price := or_else px (executed_price r);
       error_message := or_else err (error_message r);
       created_at := created_at r;
       updated_at := t |}.
Proof. intros <-. unfold update_row. now rewrite String.eqb_refl. Qed.

(** The row of the order after the statements of a run: the row it had, or
    the one inserted, finished. *)
Lemma row_of_run d order t table :
  row_of (orderId order) (apply_writes (run_writes d order t) table)
  = option_map (finish d order t)
               (row_of (orderId order) (run_query t (insert_of order t) table)).
Proof.
  unfold run_writes, apply_writes. cbn [fold_left fst snd].
  set (table1 := run_query t (insert_of order t) table).
  destruct (swap_of d order t) as [err|res] eqn:S;
    unfold update_of; cbn [chosenDex d_txHash d_executedPrice error no_data error_data];
    rewrite ?dex_name_truthy, ?error_text_truthy, ?(swap_hash_truthy _ _ _ S);
    rewrite !row_of_update;
    destruct (row_of (orderId order) table1) as [r|] eqn:R; cbn [option_map];
      try reflexivity;
    pose proof (row_of_id _ _ R) as I; f_equal;
    unfold finish; rewrite S;
    rewrite !update_row_same by (rewrite ?update_row_id; exact I);
    reflexivity.
Qed.

(** X8.  With the store accepting every statement, a run of the handler for
    an order that has no row leaves [getOrder] finding the order's fields
    with the chosen venue, the time the swap ended as [updated_at] and, if
    the swap succeeded, status [confirmed] with the transaction id and
    executed price of the result and no error; if the swap threw, status
    [failed] with the error message and no transaction id or price. *)
Theorem run_persists_outcome (d : Draws) (job : Job) (w : World) :
  healthy w ->
  has_order (orderId (job_data job)) (rows w) = false ->
  let order := job_data job in
  let stored := new_row order (now w) in
  result (getOrder (orderId order)) (after (handler d job) w)
  = Ok (Some
      match result (handler d job) w with
      | Ok res =>
          {| order_id := orderId order; token_in := tokenIn order;
             token_out := tokenOut order; r_amount := amount order;
             order_type := type order; status := "confirmed";
             chosen_dex := Some (dex_name (dex (chosen_of d order)));
             tx_hash := Some (txHash res);
             executed_price := Some (executedPrice res);
             error_message := None;
             created_at := created_at stored;
             updated_at := swap_time d (now w) |}
      | Throw err =>
          {| order_id := orderId order; token_in := tokenIn order;
             token_out := tokenOut order; r_amount := amount order;
             order_type := type order; status := "failed";
             chosen_dex := Some (dex_name (dex (chosen_of d order)));
             tx_hash := None; executed_price := None;
             error_message := Some (error_text err);
             created_at := created_at stored;
             updated_at := swap_time d (now w) |}
      end).
Proof.
  intros H A order stored. subst order stored.
  rewrite getOrder_healthy by now apply handler_healthy.
  rewrite handler_rows by exact H. rewrite row_of_run, row_of_insert, A.
  rewrite String.eqb_refl. unfold row_of at 1. rewrite (where_absent _ _ A).
  cbn [hd_error option_map]. rewrite handler_result. unfold finish.
  destruct (swap_of d (job_data job) (now w)); reflexivity.
Qed.

(** The sample order, run once with draws for which the swap succeeds. *)
Lemma run_persists_outcome_witness :
  result (getOrder "order-0") (after (handler Sample.lucky Sample.job) Sample.world)
  = Ok (Some {| order_id := "order-0"; token_in := "USDC"; token_out := "SOL";
                r_amount := 100; order_type := "market"; status := "confirmed";
                chosen_dex := Some "meteora"; tx_hash := Some "MOCK_TX_2xk_1234";
                executed_price := Some (99); error_message := None;
                created_at := 1000; updated_at := 3800 |}).
Proof.
  etransitivity;
    [exact (@run_persists_outcome Sample.lucky Sample.job Sample.world eq_refl eq_refl)|].
  vm_compute. reflexivity.
Defined.

(** X9.  With the store accepting every statement, a run of the handler for
    an order that already has a row (a retry) that ends [confirmed] leaves
    that row with status [confirmed] and the transaction id and price of the
    result, and with its [created_at] and its error message as they were: a
    confirmed order keeps the error of an attempt that failed before. *)
Theorem retry_keeps_error (d : Draws) (job : Job) (w : World) (r : Row) (res : SwapResult) :
  healthy w ->
  result (getOrder (orderId (job_data job))) w = Ok (Some r) ->
  result (handler d job) w = Ok res ->
  exists r',
    result (getOrder (orderId (job_data job))) (after (handler d job) w) = Ok (Some r')
    /\ status r' = "confirmed"
    /\ tx_hash r' = Some (txHash res)
    /\ executed_price r' = Some (executedPrice res)
    /\ error_message r' = error_message r
    /\ identity r' = identity r.
Proof.
  intros H G R.
  rewrite getOrder_healthy in G by exact H. injection G as G.
  assert (P : has_order (orderId (job_data job)) (rows w) = true).
  { apply has_order_In. rewrite <- (row_of_id _ _ G).
    apply in_map. unfold row_of in G.
    assert (I : In r (where_order_id (orderId (job_data job)) (rows w))).
    { destruct (where_order_id _ _); [discriminate|]. injection G as <-. now left. }
    now apply filter_In in I. }
  rewrite handler_result in R.
  destruct (swap_of d (job_data job) (now w)) as [err|res'] eqn:S; [discriminate|].
  injection R as ->.
  eexists. split.
  - rewrite getOrder_healthy by now apply handler_healthy.
    rewrite handler_rows by exact H. rewrite row_of_run, row_of_insert, P, G.
    reflexivity.
  - unfold finish. rewrite S. cbn. repeat split; reflexivity.
Qed.

(** The sample order fails its first attempt and is confirmed by the
    second: the stored order is confirmed and carries the error. *)
Lemma retry_keeps_error_witness :
  exists r',
    result (getOrder "order-0")
           (after (handler Sample.lucky Sample.job)
                  (after (handler Sample.unlucky Sample.job) Sample.world))
    = Ok (Some r')
    /\ status r' = "confirmed"
    /\ error_message r' = Some "Simulated network execution failure".
Proof.
  assert (H : healthy (after (handler Sample.unlucky Sample.job) Sample.world))
    by (vm_compute; reflexivity).
  assert (G : result (getOrder "order-0")
                     (after (handler Sample.unlucky Sample.job) Sample.world)
              = Ok (Some {| order_id := "order-0"; token_in := "USDC";
                            token_out := "SOL"; r_amount := 100;
                            order_type := "market"; status := "failed";
                            chosen_dex := Some "meteora"; tx_hash := None;
                            executed_price := None;
                            error_message := Some "Simulated network execution failure";
                            created_at := 1000; updated_at := 3800 |}))
    by (vm_compute; reflexivity).
  assert (R : result (handler Sample.lucky Sample.job)
                     (after (handler Sample.unlucky Sample.job) Sample.world)
              = Ok {| txHash := "MOCK_TX_53c_1234"; executedPrice := 99 |})
    by (vm_compute; reflexivity).
  destruct (@retry_keeps_error Sample.lucky Sample.job _ _ _ H G R)
    as (r' & G' & S & _ & _ & E & _).
  exists r'. split; [exact G'|]. split; [exact S | exact E].
Defined.

Lemma update_identity id st data w :
  map identity (rows (after (updateOrderStatus id st data) w)) = map identity (rows w).
Proof.
  rewrite updateOrderStatus_eq, guarded_rows. destruct (outage_now w); [reflexivity|].
  unfold update_of. apply run_query_update_identity.
Qed.

(** Evaluate what a block of statements leaves of the identifying columns. *)
Ltac identities :=
  unfold after at 1; run_effects;
  repeat match goal with
         | |- context [snd (?c ?x)] => change (snd (c x)) with (after c x)
         end;
  repeat first
    [ rewrite update_identity
    | rewrite emit_rows
    | rewrite log_rows
    | rewrite sleep_rows ].

Lemma prepare_identity d order w :
  map identity (rows (after (prepare d order) w))
  = map identity (rows (after (saveOrder order) w)).
Proof. unfold prepare. identities. reflexivity. Qed.

Lemma confirm_identity d order res w :
  map identity (rows (after (confirm d order res) w)) = map identity (rows w).
Proof. unfold confirm. identities. reflexivity. Qed.

Lemma report_identity id err line w :
  map identity (rows (after (report id err line) w)) = map identity (rows w).
Proof. unfold report. identities. reflexivity. Qed.

Lemma handler_identity d job w :
  map identity (rows (after (handler d job) w))
  = map identity (rows (after (saveOrder (job_data job)) w)).
Proof.
  unfold after at 1. rewrite handler_run.
  destruct (swap_of d (job_data job) (now w)); cbn [snd].
  - now rewrite report_identity, prepare_identity.
  - now rewrite confirm_identity, prepare_identity.
Qed.

Lemma identity_ids table : map order_id table = map (fun i => fst (fst (fst (fst (fst i))))) (map identity table).
Proof. rewrite map_map. reflexivity. Qed.

Lemma has_order_identity id a b :
  map identity a = map identity b -> has_order id a = has_order id b.
Proof.
  intro E.
  assert (I : map order_id a = map order_id b) by now rewrite !identity_ids, E.
  destruct (has_order id a) eqn:A, (has_order id b) eqn:B; try reflexivity.
  - apply has_order_In in A. rewrite I in A. apply has_order_In in A. congruence.
  - apply has_order_In in B. rewrite <- I in B. apply has_order_In in B. congruence.
Qed.

(** X10.  A run of the handler changes the identifying columns and
    [created_at] of no row and removes no row, whatever the store does: the
    only row it can add is the one [saveOrder] inserts at its start.  So
    when that insert is rejected for an order that has no row, the order has
    no row after the run either, whatever becomes of the later statements,
    and the events of the run are published as usual. *)
Theorem run_keeps_rows (d : Draws) (job : Job) (w : World) :
  let order := job_data job in
  let w' := after (handler d job) w in
  map identity (rows w') = map identity (rows (after (saveOrder order) w))
  /\ (forall r, In r (rows w) -> In (identity r) (map identity (rows w')))
  /\ (outage_now w = true ->
      has_order (orderId order) (rows w) = false ->
      has_order (orderId order) (rows w') = false
      /\ result (getOrder (orderId order)) w' = Ok None
      /\ events (orderId order) (trace w')
         = events (orderId order) (trace w) ++ run_events d order (now w)).
Proof.
  cbv zeta. pose proof (handler_identity d job w) as E.
  split; [exact E|]. split.
  - intros r I. rewrite E, after_saveOrder, guarded_rows.
    destruct (outage_now w); [now apply in_map|].
    unfold insert_of. cbn [run_query].
    destruct (has_order _ (rows w)); [now apply in_map|].
    rewrite map_app. apply in_or_app. left. now apply in_map.
  - intros O A.
    assert (A' : has_order (orderId (job_data job)) (rows (after (handler d job) w)) = false).
    { rewrite (has_order_identity _ _ _ E), after_saveOrder, guarded_rows, O. exact A. }
    split; [exact A'|]. split.
    + unfold result. rewrite getOrder_run.
      destruct (outage_now (after (handler d job) w)); [reflexivity|]. cbn [fst].
      unfold row_of. now rewrite (where_absent _ _ A').
    + now rewrite handler_events, handler_run_events.
Qed.

(** The sample order run while the store rejects the insert only. *)
Lemma run_keeps_rows_witness :
  has_order "order-0"
    (rows (after (handler Sample.lucky Sample.job)
                 (with_database [] [true] Sample.world)))
  = false.
Proof.
  destruct (@run_keeps_rows Sample.lucky Sample.job
              (with_database [] [true] Sample.world)) as (_ & _ & L).
  destruct L as (A & _); [reflexivity | reflexivity | exact A].
Defined.

(** ** Outcomes of a run *)

(** X11.  A run of the handler whose swap throws rethrows that error, the
    simulated network failure, after it has gone through [routing],
    [building] and [submitted] as a successful run does and then published
    [failed] with the error message and written status [failed]; it
    publishes no [confirmed]. *)
Theorem failed_run_sequence (d : Draws) (job : Job) (w : World) (err : JsError) :
  result (handler d job) w = Throw err ->
  let id := orderId (job_data job) in
  let chosen := chosen_of d (job_data job) in
  let w' := after (handler d job) w in
  err = network_failure
  /\ steps (trace w')
     = steps (trace w)
       ++ [Insert id; Persist id "pending";
           Publish id "routing"; Persist id "routing";
           Publish id "building"; Persist id "building";
           Publish id "submitted"; Persist id "submitted";
           Publish id "failed"; Persist id "failed"]
  /\ events id (trace w')
     = events id (trace w)
       ++ [status_only "routing" id;
           status_with "building" id
             [("dex", JStr (dex_name (dex chosen))); ("price", JNum (price chosen))];
           status_with "submitted" id [("dex", JStr (dex_name (dex chosen)))];
           status_with "failed" id
             [("error", JStr "Simulated network execution failure")]].
Proof.
  intro R. cbv zeta. rewrite handler_result in R.
  destruct (swap_of d (job_data job) (now w)) as [e|res] eqn:S; [|discriminate].
  injection R as ->.
  assert (E : err = network_failure).
  { rewrite swap_of_cases in S. destruct (fails d); [|discriminate]. now injection S. }
  split; [exact E|]. split.
  - rewrite handler_steps. unfold handler_effects. rewrite S.
    now rewrite steps_app, steps_routing, steps_failed.
  - rewrite handler_events. unfold handler_effects. rewrite S.
    rewrite events_app, events_routing, events_failed. now rewrite E.
Qed.

(** The sample order run with draws for which the swap throws. *)
Lemma failed_run_sequence_witness :
  steps (trace (after (handler Sample.unlucky Sample.job) Sample.world))
  = [Insert "order-0"; Persist "order-0" "pending";
     Publish "order-0" "routing"; Persist "order-0" "routing";
     Publish "order-0" "building"; Persist "order-0" "building";
     Publish "order-0" "submitted"; Persist "order-0" "submitted";
     Publish "order-0" "failed"; Persist "order-0" "failed"].
Proof.
  refine (proj1 (proj2 (@failed_run_sequence Sample.unlucky Sample.job Sample.world
                          network_failure _))).
  vm_compute. reflexivity.
Defined.

Lemma run_logs d order t o :
  flat_map log_of (handler_effects d order t o)
  = flat_map log_of (handler_effects d order t []).
Proof. apply view_handler; reflexivity. Qed.

(** X12.  A run of the handler appends five entries to the routing log, all
    for its order: "Starting DEX routing" at the start, "DEX comparison
    completed", "Building transaction" and "Transaction submitted to
    network" when the quotes have arrived, and "Transaction confirmed" or
    "Transaction failed" when the swap has ended; it removes or changes
    none. *)
Theorem run_log_entries (d : Draws) (job : Job) (w : World) :
  let id := orderId (job_data job) in
  let t := now w in
  exists added,
    logs (after (handler d job) w) = logs w ++ added
    /\ map (fun l => (timestamp l, l_orderId l, event l)) added
       = [(t, id, "Starting DEX routing");
          ((t + quote_wait d)%N, id, "DEX comparison completed");
          ((t + quote_wait d)%N, id, "Building transaction");
          ((t + quote_wait d)%N, id, "Transaction submitted to network");
          (swap_time d t, id,
           if fails d then "Transaction failed" else "Transaction confirmed")].
Proof.
  cbv zeta. eexists. split.
  - rewrite handler_logs, run_logs. reflexivity.
  - unfold handler_effects. rewrite swap_of_cases.
    destruct (fails d); reflexivity.
Qed.

(** ** Timers and quotes *)





(** The upper ends are reached by the largest draws: the sum is rounded to
    the nearest double, which is then 400 or 3000. *)
Lemma sleep_reaches_ends :
  unit_interval (1 - (1 # 2) ^ 53)
  /\ sleep_ms (fadd 200 (fmul (1 - (1 # 2) ^ 53) 200)) = 400%N
  /\ unit_interval (1 - (1 # 2) ^ 52)
  /\ sleep_ms (fadd 2000 (fmul (1 - (1 # 2) ^ 52) 1000)) = 3000%N.
Proof.
  split; [split; vm_compute; congruence|]. split; [vm_compute; reflexivity|].
  split; [split; vm_compute; congruence|]. vm_compute. reflexivity.
Qed.



Lemma meteora_price_ends :
  fl (lit (5 # 100)) = lit (5 # 100)
  /\ fl (basePrice * fl (lit (97 # 100))) = 97%Q
  /\ fl (basePrice * fl (lit (97 # 100) + lit (5 # 100))) = 102%Q.
Proof. repeat split; vm_compute; reflexivity. Qed.

Lemma meteora_price_bounds (p : Q) :
  unit_interval p ->
  (97 <= fmul basePrice (fadd (lit (97 # 100)) (fmul p (lit (5 # 100)))) <= 102)%Q.
Proof.
  intros [L U]. destruct meteora_price_ends as (E0 & E1 & E2).
  assert (Pa : (0 <= lit (97 # 100))%Q) by (vm_compute; congruence).
  assert (Pc : (0 <= lit (5 # 100))%Q) by (vm_compute; congruence).
  assert (Pk : (0 <= basePrice)%Q) by (vm_compute; congruence).
  assert (Pl : (0 <= fl (lit (97 # 100)))%Q) by (vm_compute; congruence).
  destruct (ramp_bounds Pa Pc E0 L (Qlt_le_weak _ _ U)) as [A B].
  destruct (scaled_bounds Pk Pl A B) as [C D].
  rewrite E1 in C. rewrite E2 in D. split; assumption.
Qed.

(** The ends are reached: raydium quotes 98 for the draw 0 and 102 for the
    largest draw but one, meteora 97 and 102. *)
Lemma quotes_reach_ends (tokenIn tokenOut : string) (amount : Q) :
  let lowest := {| q_sleep := 0; q_price := 0 |} in
  let highest := {| q_sleep := 0; q_price := 1 - (1 # 2) ^ 52 |} in
  unit_interval (q_price lowest) /\ unit_interval (q_price highest)
  /\ price (getRaydiumQuote lowest tokenIn tokenOut amount) = 98%Q
  /\ price (getRaydiumQuote highest tokenIn tokenOut amount) = 102%Q
  /\ price (getMeteoraQuote lowest tokenIn tokenOut amount) = 97%Q
  /\ price (getMeteoraQuote highest tokenIn tokenOut amount) = 102%Q.
Proof.
  cbv zeta. split; [split; vm_compute; congruence|].
  split; [split; vm_compute; congruence|].
  repeat split; vm_compute; reflexivity.
Qed.

(** X14.  Whatever the token pair and the amount, a raydium quote has a
    price between 98 and 102 and the fee 0.003, and a meteora quote a price
    between 97 and 102 and the fee 0.002, the ends included; so the raydium
    price is at most 5 above and at most 4 below the meteora price, and the
    price of the quote the handler chooses is between 98 and 102 and not
    below either price.  The quotes do not depend on the pair or the
    amount. *)
Theorem quote_bounds (dr dm : QuoteDraws) (tokenIn tokenOut : string) (amount : Q) :
  unit_interval (q_price dr) ->
  unit_interval (q_price dm) ->
  let rQ := getRaydiumQuote dr tokenIn tokenOut amount in
  let mQ := getMeteoraQuote dm tokenIn tokenOut amount in
  (dex rQ = raydium /\ fee rQ = lit (3 # 1000) /\ 98 <= price rQ <= 102)%Q
  /\ (dex mQ = meteora /\ fee mQ = lit (2 # 1000) /\ 97 <= price mQ <= 102)%Q
  /\ (- (4) <= price rQ - price mQ <= 5)%Q
  /\ (98 <= price (choose rQ mQ) <= 102)%Q
  /\ (price rQ <= price (choose rQ mQ) /\ price mQ <= price (choose rQ mQ))%Q
  /\ forall tokenIn' tokenOut' amount',
       getRaydiumQuote dr tokenIn' tokenOut' amount' = rQ
       /\ getMeteoraQuote dm tokenIn' tokenOut' amount' = mQ.
Proof.
  intros R M. cbv zeta.
  pose proof (simulated_price_bounds R) as [A1 A2].
  pose proof (meteora_price_bounds M) as [B1 B2].
  unfold choose, getRaydiumQuote, getMeteoraQuote. cbn [price dex fee].
  set (pr := fmul basePrice (fadd (lit (98 # 100)) (fmul (q_price dr) (lit (4 # 100))))) in *.
  set (pm := fmul basePrice (fadd (lit (97 # 100)) (fmul (q_price dm) (lit (5 # 100))))) in *.
  split; [|split; [|split; [|split; [|split]]]].
  - split; [reflexivity|]. split; [reflexivity|]. split; assumption.
  - split; [reflexivity|]. split; [reflexivity|]. split; assumption.
  - split; lra.
  - destruct (Qle_bool pm pr) eqn:E; cbn [price].
    + split; assumption.
    + assert (~ (pm <= pr)%Q).
      { intro H. apply Qle_bool_iff in H. congruence. }
      split; lra.
  - destruct (Qle_bool pm pr) eqn:E; cbn [price].
    + apply Qle_bool_iff in E. split; lra.
    + assert (~ (pm <= pr)%Q).
      { intro H. apply Qle_bool_iff in H. congruence. }
      split; lra.
  - intros. split; reflexivity.
Qed.

(** The quotes of the sample run: 100 from raydium, 100.75 from meteora. *)
Lemma quote_bounds_witness :
  (98 <= price (choose (getRaydiumQuote (rq Sample.lucky) "USDC" "SOL" 100)
                       (getMeteoraQuote (mq Sample.lucky) "USDC" "SOL" 100)) <= 102)%Q.
Proof.
  refine (proj1 (proj2 (proj2 (proj2
            (@quote_bounds (rq Sample.lucky) (mq Sample.lucky) "USDC" "SOL" 100 _ _)))));
    split; vm_compute; congruence.
Defined.

(** ** Subscriptions: payloads, duplicates, closing *)

Lemma ws_message_ignored s data w :
  data <> JNull -> ~ names_order data -> ws_message s (Some data) w = (Ok tt, w).
Proof.
  intros N I. unfold ws_message.
  destruct data as [| | | | | |fields]; try contradiction; try reflexivity.
  cbn [get] in *. unfold names_order in I. cbn [get] in I.
  destruct (assoc "orderId" fields) as [[| | | |id| |]|]; try reflexivity.
  destruct (String.eqb_spec id "") as [->|E]; [reflexivity|].
  exfalso. apply I. now exists id.
Qed.

(** X15.  A subscribe message that cannot be parsed, or that is JSON
    [null], is answered with one error message on the socket and subscribes
    to nothing; any other message whose [orderId] is not a non-empty string
    (a number, a missing field, the empty string, a message that is no
    object) is ignored without an answer: the process state is left exactly
    as it was. *)
Theorem subscribe_payloads (s : SocketId) (x : Socket) (w : World) :
  lookup_socket s (sockets w) = Some x ->
  (forall msg, msg = None \/ msg = Some JNull ->
     sent s (after (ws_message s msg) w) = sent s w ++ [invalid_payload]
     /\ listeners (after (ws_message s msg) w) = listeners w
     /\ channel_state s (after (ws_message s msg) w) = channel_state s w)
  /\ (forall data, data <> JNull -> ~ names_order data ->
        result (ws_message s (Some data)) w = Ok tt
        /\ after (ws_message s (Some data)) w = w).
Proof.
  intro L. split.
  - intros msg M.
    assert (E : ws_message s msg = socket_send s invalid_payload)
      by (destruct M as [->| ->]; reflexivity).
    rewrite E. split; [|split].
    + rewrite sent_send, Nat.eqb_refl, L. reflexivity.
    + reflexivity.
    + unfold channel_state, socket_send, after. cbn.
      rewrite lookup_update_same, L. reflexivity.
  - intros data N I. unfold result, after.
    now rewrite (ws_message_ignored s w N I).
Qed.

(** The sample connection sends something that is no JSON. *)
Lemma subscribe_payloads_witness :
  sent 7%nat (after (ws_message 7%nat None) Sample.world) = [invalid_payload].
Proof.
  refine (proj1 (proj1 (@subscribe_payloads 7%nat fresh_socket Sample.world _)
                   None _)).
  - reflexivity.
  - now left.
Defined.

(** *** What a run leaves of a socket *)

Section ChannelState.

Variables (s : SocketId) (w : World).

Lemma guarded_channel q l : channel_state s (after (guarded q l) w) = channel_state s w.
Proof. unfold channel_state. now rewrite guarded_sockets. Qed.

Lemma log_channel id e d : channel_state s (after (logRouting id e d) w) = channel_state s w.
Proof. reflexivity. Qed.

Lemma sleep_channel ms : channel_state s (after (sleep ms) w) = channel_state s w.
Proof. reflexivity. Qed.

End ChannelState.

(** Evaluate what a block of statements leaves of a socket. *)
Ltac socket_frame :=
  unfold after at 1; run_effects;
  repeat match goal with
         | |- context [snd (?c ?x)] => change (snd (c x)) with (after c x)
         end;
  rewrite ?updateOrderStatus_eq, ?after_saveOrder;
  repeat first
    [ rewrite emit_channel
    | rewrite guarded_channel
    | rewrite log_channel
    | rewrite sleep_channel ].

Lemma handler_channel s d job w :
  channel_state s (after (handler d job) w) = channel_state s w.
Proof.
  unfold after at 1. rewrite handler_run.
  destruct (swap_of d (job_data job) (now w)); cbn [snd].
  - unfold report. socket_frame. unfold prepare. socket_frame. reflexivity.
  - unfold confirm. socket_frame. unfold prepare. socket_frame. reflexivity.
Qed.

Lemma open_of_channel s w o i hs :
  channel_state s w = Some (o, i, hs) -> socket_is_open s w = o.
Proof.
  unfold channel_state, socket_is_open.
  destruct (lookup_socket s (sockets w)); cbn; [|discriminate]. congruence.
Qed.

(** *** Removing a listener and closing *)

Lemma closed_gets_nothing s name ev w :
  socket_is_open s w = false -> sent s (after (emit name ev) w) = sent s w.
Proof.
  intro C. rewrite emit_sent. unfold forwards. rewrite C. apply app_nil_r.
Qed.

Lemma remove_first_absent name h ls :
  existsb (fun l => String.eqb (on_event l) name && same_handler l h) ls = false ->
  remove_first name h ls = ls.
Proof.
  induction ls as [|l ls IH]; [reflexivity|]. cbn.
  destruct (String.eqb (on_event l) name && same_handler l h); [discriminate|].
  cbn. intro H. now rewrite IH.
Qed.

(** [off] removes the listener, if it is registered under the name, and
    tells the listeners for ["removeListener"] of it. *)
Lemma off_run name h w :
  after (off name h) w
  = if registered name h w
    then let w1 := set_listeners (remove_first name h (listeners w)) w in
         if has_listener "removeListener" w1
         then after (emit "removeListener" (JStr name)) w1
         else w1
    else w.
Proof.
  unfold off, after. rewrite bind_read.
  destruct (registered name h w); [|reflexivity].
  rewrite bind_modify, bind_read. cbv zeta.
  now destruct (has_listener "removeListener" _).
Qed.

#[export] Instance off_total name h : Total (off name h).
Proof.
  intro w. unfold off, result. rewrite bind_read.
  destruct (registered name h w); [|reflexivity].
  rewrite bind_modify, bind_read.
  destruct (has_listener "removeListener" _); [|reflexivity].
  apply (@total _ (emit_total _ _)).
Qed.

Section OffFrame.

Variables (name : string) (h : Listener) (s : SocketId) (w : World).

Lemma off_listeners :
  listeners (after (off name h) w) = remove_first name h (listeners w).
Proof.
  rewrite off_run. unfold registered.
  destruct (existsb _ (listeners w)) eqn:R.
  - cbv zeta. destruct (has_listener "removeListener" _); [|reflexivity].
    now rewrite emit_listeners.
  - now rewrite remove_first_absent.
Qed.

Lemma off_open : socket_is_open s (after (off name h) w) = socket_is_open s w.
Proof.
  rewrite off_run. destruct (registered name h w); [|reflexivity].
  cbv zeta. destruct (has_listener "removeListener" _); [|reflexivity].
  now rewrite emit_open.
Qed.

Lemma off_sent_closed :
  socket_is_open s w = false -> sent s (after (off name h) w) = sent s w.
Proof.
  intro C. rewrite off_run. destruct (registered name h w); [|reflexivity].
  cbv zeta. destruct (has_listener "removeListener" _); [|reflexivity].
  now rewrite closed_gets_nothing.
Qed.

End OffFrame.

Lemma run_close_listeners i hs : forall w,
  listeners (after (run_close (Some i) hs) w) = unsubscribe_all i hs (listeners w).
Proof.
  induction hs as [|h hs IH]; intro w; cbn [run_close]; [reflexivity|].
  rewrite after_bind_total by typeclasses eauto.
  unfold after at 1. rewrite bind_modify.
  change (snd (run_close ?a ?b ?x)) with (after (run_close a b) x).
  rewrite IH. cbn [listeners set_socket_of_order unsubscribe_all fold_left].
  now rewrite off_listeners.
Qed.

Lemma run_close_open s id hs : forall w,
  socket_is_open s (after (run_close id hs) w) = socket_is_open s w.
Proof.
  induction hs as [|h hs IH]; intro w; cbn [run_close]; [reflexivity|].
  destruct id as [i|]; [|apply IH].
  rewrite after_bind_total by typeclasses eauto.
  unfold after at 1. rewrite bind_modify.
  change (snd (run_close ?a ?b ?x)) with (after (run_close a b) x).
  rewrite IH. unfold socket_is_open at 1. cbn [sockets set_socket_of_order].
  apply off_open.
Qed.

Lemma run_close_sent s id hs : forall w,
  socket_is_open s w = false ->
  sent s (after (run_close id hs) w) = sent s w.
Proof.
  induction hs as [|h hs IH]; intros w C; cbn [run_close]; [reflexivity|].
  destruct id as [i|]; [|now apply IH].
  rewrite after_bind_total by typeclasses eauto.
  unfold after at 1. rewrite bind_modify.
  change (snd (run_close ?a ?b ?x)) with (after (run_close a b) x).
  rewrite IH.
  - unfold sent at 1. cbn [sockets set_socket_of_order]. now apply off_sent_closed.
  - unfold socket_is_open. cbn [sockets set_socket_of_order].
    fold (socket_is_open s (after (off i h) w)). now rewrite off_open.
Qed.

Lemma ws_close_run s open0 i hs w :
  channel_state s w = Some (open0, Some i, hs) ->
  listeners (after (ws_close s) w) = unsubscribe_all i hs (listeners w)
  /\ socket_is_open s (after (ws_close s) w) = false
  /\ sent s (after (ws_close s) w) = sent s w.
Proof.
  unfold channel_state. intro C.
  destruct (lookup_socket s (sockets w)) as [x|] eqn:L; [|discriminate].
  cbn in C. injection C as _ S H.
  unfold ws_close, after. rewrite bind_read, L, bind_modify, S, H.
  change (snd (run_close ?a ?b ?x)) with (after (run_close a b) x).
  set (w1 := set_sockets _ w).
  assert (C1 : socket_is_open s w1 = false).
  { unfold socket_is_open. subst w1. cbn. now rewrite lookup_update_same, L. }
  split; [|split].
  - now rewrite run_close_listeners.
  - now rewrite run_close_open.
  - rewrite run_close_sent by exact C1.
    unfold sent. subst w1. cbn. now rewrite lookup_update_same, L.
Qed.

Lemma remove_first_skip name h ls rest :
  (forall l, In l ls -> String.eqb (on_event l) name && same_handler l h = false) ->
  remove_first name h (ls ++ rest) = ls ++ remove_first name h rest.
Proof.
  induction ls as [|l ls IH]; intro F; [reflexivity|]. cbn.
  rewrite (F l (or_introl eq_refl)). f_equal. apply IH.
  intros l' I. apply F. now right.
Qed.

Lemma other_socket_no_match s name id (ls : list Listener) :
  (forall l, In l ls -> h_socket l <> s) ->
  forall l, In l ls ->
    String.eqb (on_event l) name && same_handler l (listener_for s id) = false.
Proof.
  intros F l I. unfold same_handler. cbn.
  destruct (Nat.eqb_spec (h_socket l) s) as [E|E]; [now apply F in I|].
  cbn. apply andb_false_r.
Qed.

Lemma remove_own_listener s id :
  remove_first id (listener_for s id) [listener_for s id] = [].
Proof.
  cbn. unfold same_handler. cbn. now rewrite String.eqb_refl, Nat.eqb_refl.
Qed.

Lemma closed_run_sends_nothing s d job w :
  socket_is_open s w = false -> sent s (after (handler d job) w) = sent s w.
Proof.
  intro C. rewrite handler_sent.
  assert (E : forall t, flat_map (forward_of s w) t = []).
  { induction t as [|[] t IH]; cbn; rewrite ?IH; try reflexivity.
    unfold forwards. now rewrite C. }
  rewrite E. apply app_nil_r.
Qed.

(** X16.  Closing a connection that subscribed once removes its listener
    and nothing else: the listeners are those registered before the
    subscription, also when orders were run in between, and what a later
    run emits no longer reaches the socket. *)
Theorem close_unsubscribes
        (s : SocketId) (data : Json) (id : string) (d : Draws) (job : Job) (w : World) :
  lookup_socket s (sockets w) = Some fresh_socket ->
  (forall l, In l (listeners w) -> h_socket l <> s) ->
  get "orderId" data = Some (JStr id) -> id <> "" ->
  let w1 := after (ws_message s (Some data)) w in
  let w2 := after (handler d job) w1 in
  let w3 := after (ws_close s) w2 in
  listeners w3 = listeners w
  /\ socket_is_open s w3 = false
  /\ sent s w3 = sent s w2
  /\ forall d' job', sent s (after (handler d' job') w3) = sent s w3.
Proof.
  intros L F G N. cbv zeta.
  destruct (subscribe_run s data w L G N) as (Ls & _ & C1 & _).
  set (w1 := after (ws_message s (Some data)) w) in *.
  assert (C2 : channel_state s (after (handler d job) w1)
               = Some (true, Some id, [listener_for s id])).
  { now rewrite handler_channel. }
  destruct (ws_close_run s _ C2) as (Lc & Oc & Sc).
  split; [|split; [exact Oc | split; [exact Sc|]]].
  - rewrite Lc, handler_listeners, Ls. cbn [unsubscribe_all fold_left].
    rewrite remove_first_skip by (now apply other_socket_no_match).
    rewrite remove_own_listener. apply app_nil_r.
  - intros d' job'. now apply closed_run_sends_nothing.
Qed.

(** The sample connection subscribes to the sample order, the order is
    run, and the connection is closed. *)
Lemma close_unsubscribes_witness :
  listeners (after (ws_close 7%nat)
               (after (handler Sample.lucky Sample.job) Sample.subscribed)) = [].
Proof.
  refine (proj1 (@close_unsubscribes 7%nat Sample.subscribe "order-0"
                   Sample.lucky Sample.job Sample.world _ _ _ _)).
  - reflexivity.
  - intros l [].
  - reflexivity.
  - discriminate.
Defined.

(** X17.  A connection that subscribes to two different orders and is then
    closed keeps its listener for the first: each of the two [close]
    handlers removes its own listener under the id subscribed last, so only
    the second is found.  The listener stays registered, though nothing is
    sent on the closed socket. *)
Theorem first_subscription_leaks
        (s : SocketId) (data1 data2 : Json) (id1 id2 : string) (w : World) :
  lookup_socket s (sockets w) = Some fresh_socket ->
  (forall l, In l (listeners w) -> h_socket l <> s) ->
  get "orderId" data1 = Some (JStr id1) -> id1 <> "" ->
  get "orderId" data2 = Some (JStr id2) -> id2 <> "" ->
  id1 <> id2 ->
  let w1 := after (ws_message s (Some data1)) w in
  let w2 := after (ws_message s (Some data2)) w1 in
  let w3 := after (ws_close s) w2 in
  listeners w2 = listeners w ++ [listener_for s id1; listener_for s id2]
  /\ listeners w3 = listeners w ++ [listener_for s id1]
  /\ forall d job, listeners (after (handler d job) w3) = listeners w3
                   /\ sent s (after (handler d job) w3) = sent s w3.
Proof.
  intros L F G1 N1 G2 N2 D. cbv zeta.
  destruct (subscribe_run s data1 w L G1 N1) as (Ls1 & _ & C1 & _).
  set (w1 := after (ws_message s (Some data1)) w) in *.
  assert (L1 : exists x1, lookup_socket s (sockets w1) = Some x1
                          /\ is_open x1 = true
                          /\ on_close x1 = [listener_for s id1]).
  { unfold channel_state in C1.
    destruct (lookup_socket s (sockets w1)) as [x1|]; [|discriminate].
    cbn in C1. injection C1 as O _ H. now exists x1. }
  destruct L1 as (x1 & L1 & O1 & H1).
  destruct (subscribe_run s data2 w1 L1 G2 N2) as (Ls2 & _ & C2 & _).
  set (w2 := after (ws_message s (Some data2)) w1) in *.
  rewrite O1, H1 in C2. cbn [app] in C2.
  destruct (ws_close_run s _ C2) as (Lc & Oc & Sc).
  assert (E2 : listeners w2 = listeners w ++ [listener_for s id1; listener_for s id2]).
  { rewrite Ls2, Ls1, <- app_assoc. reflexivity. }
  split; [exact E2|]. split.
  - rewrite Lc, E2. cbn [unsubscribe_all fold_left].
    rewrite remove_first_skip by (now apply other_socket_no_match).
    assert (K : remove_first id2 (listener_for s id1)
                             [listener_for s id1; listener_for s id2]
                = [listener_for s id1; listener_for s id2]).
    { cbn. unfold same_handler. cbn.
      destruct (String.eqb_spec id1 id2) as [E|_]; [contradiction|]. cbn.
      rewrite String.eqb_refl, Nat.eqb_refl. cbn.
      destruct (String.eqb_spec id2 id1) as [E|_]; [now symmetry in E|]. reflexivity. }
    rewrite K.
    rewrite remove_first_skip by (now apply other_socket_no_match).
    cbn. unfold same_handler. cbn.
    destruct (String.eqb_spec id1 id2) as [E|_]; [contradiction|]. cbn.
    now rewrite String.eqb_refl, Nat.eqb_refl.
  - intros d job. split; [apply handler_listeners|].
    now apply closed_run_sends_nothing.
Qed.

(** The sample connection subscribes to ["order-0"], then to ["order-1"],
    and is closed. *)
Lemma first_subscription_leaks_witness :
  listeners (after (ws_close 7%nat)
               (after (ws_message 7%nat
                         (Some (JObj [("orderId", JStr "order-1")])))
                      Sample.subscribed))
  = [listener_for 7%nat "order-0"].
Proof.
  refine (proj1 (proj2 (@first_subscription_leaks 7%nat Sample.subscribe
                          (JObj [("orderId", JStr "order-1")])
                          "order-0" "order-1" Sample.world _ _ _ _ _ _ _))).
  - reflexivity.
  - intros l [].
  - reflexivity.
  - discriminate.
  - reflexivity.
  - discriminate.
  - discriminate.
Defined.

(** X18.  Subscribing twice to the same order on one connection registers
    two listeners: the snapshot is sent twice, every event emitted for the
    order afterwards reaches the socket twice, and closing removes both
    listeners.  Between the two snapshots and the events the socket is sent
    nothing, with one exception: a client that subscribes to the name
    ["newListener"] is sent, at its second subscription, one more message,
    because the emitter announces the second listener to the first. *)
Theorem double_subscription
        (s : SocketId) (data : Json) (id : string) (w : World) :
  lookup_socket s (sockets w) = Some fresh_socket ->
  (forall l, In l (listeners w) -> h_socket l <> s) ->
  get "orderId" data = Some (JStr id) -> id <> "" ->
  let w1 := after (ws_message s (Some data)) w in
  let w2 := after (ws_message s (Some data)) w1 in
  sent s w2 = [pending_message id; pending_message id] ++ announced id
  /\ listeners w2 = listeners w ++ [listener_for s id; listener_for s id]
  /\ (forall ev, sent s (after (emit id ev) w2)
                 = sent s w2 ++ [spread_with ev "orderId" (JStr id);
                                 spread_with ev "orderId" (JStr id)])
  /\ listeners (after (ws_close s) w2) = listeners w.
Proof.
  intros L F G N. cbv zeta.
  destruct (subscribe_run s data w L G N) as (Ls1 & S1 & C1 & _).
  set (w1 := after (ws_message s (Some data)) w) in *.
  rewrite forwards_none in S1 by (intros l I E; now apply F in I).
  unfold sent in S1 at 2. rewrite L in S1. cbn [outbox fresh_socket app] in S1.
  assert (L1 : exists x1, lookup_socket s (sockets w1) = Some x1
                          /\ is_open x1 = true
                          /\ on_close x1 = [listener_for s id]).
  { unfold channel_state in C1.
    destruct (lookup_socket s (sockets w1)) as [x1|]; [|discriminate].
    cbn in C1. injection C1 as O _ H. now exists x1. }
  destruct L1 as (x1 & L1 & O1 & H1).
  destruct (subscribe_run s data w1 L1 G N) as (Ls2 & S2 & C2 & _).
  set (w2 := after (ws_message s (Some data)) w1) in *.
  rewrite O1, H1 in C2. cbn [app] in C2.
  assert (E2 : listeners w2 = listeners w ++ [listener_for s id; listener_for s id]).
  { rewrite Ls2, Ls1, <- app_assoc. reflexivity. }
  assert (O1' : socket_is_open s w1 = true).
  { unfold socket_is_open. now rewrite L1. }
  split; [|split; [exact E2 | split]].
  - rewrite S2, S1. cbn [app]. do 2 f_equal.
    unfold forwards, announced. rewrite O1', Ls1, filter_app.
    rewrite (@filter_other_sockets s "newListener" (listeners w) F).
    cbn. rewrite Nat.eqb_refl, andb_true_r.
    now destruct (String.eqb id "newListener").
  - intro ev. rewrite emit_sent. f_equal. unfold forwards.
    rewrite (open_of_channel s w2 C2), E2, filter_app.
    rewrite (@filter_other_sockets s id (listeners w) F). cbn.
    now rewrite String.eqb_refl, Nat.eqb_refl.
  - destruct (ws_close_run s _ C2) as (Lc & _).
    rewrite Lc, E2. cbn [unsubscribe_all fold_left].
    rewrite remove_first_skip by (now apply other_socket_no_match).
    assert (K : remove_first id (listener_for s id)
                             [listener_for s id; listener_for s id]
                = [listener_for s id]).
    { cbn. unfold same_handler. cbn. now rewrite String.eqb_refl, Nat.eqb_refl. }
    rewrite K.
    rewrite remove_first_skip by (now apply other_socket_no_match).
    rewrite remove_own_listener. apply app_nil_r.
Qed.

(** The sample connection subscribes to the sample order twice. *)
Lemma double_subscription_witness :
  sent 7%nat (after (ws_message 7%nat (Some Sample.subscribe)) Sample.subscribed)
  = [pending_message "order-0"; pending_message "order-0"].
Proof.
  refine (proj1 (@double_subscription 7%nat Sample.subscribe "order-0"
                   Sample.world _ _ _ _)).
  - reflexivity.
  - intros l [].
  - reflexivity.
  - discriminate.
Defined.

(** A connection that subscribes twice to the name ["newListener"]: the
    third message spells the name. *)
Lemma newListener_is_announced :
  let data := JObj [("orderId", JStr "newListener")] in
  sent 7%nat (after (ws_message 7%nat (Some data))
                (after (ws_message 7%nat (Some data)) Sample.world))
  = [pending_message "newListener"; pending_message "newListener";
     JObj [("0", JStr "n"); ("1", JStr "e"); ("2", JStr "w"); ("3", JStr "L");
           ("4", JStr "i"); ("5", JStr "s"); ("6", JStr "t"); ("7", JStr "e");
           ("8", JStr "n"); ("9", JStr "e"); ("10", JStr "r");
           ("orderId", JStr "newListener")]].
Proof. vm_compute. reflexivity. Qed.

(** X19.  A run of the handler sends nothing to a socket that has no
    listener registered under the id of the order that is run: the events
    of an order reach its subscribers only. *)
Theorem run_reaches_subscribers_only (s : SocketId) (d : Draws) (job : Job) (w : World) :
  (forall l, In l (listeners w) -> h_socket l = s ->
             on_event l <> orderId (job_data job)) ->
  sent s (after (handler d job) w) = sent s w.
Proof.
  intro F. rewrite handler_sent.
  assert (E : forall t, (forall name ev, In (EEmit name ev) t -> name = orderId (job_data job)) ->
                        flat_map (forward_of s w) t = []).
  { induction t as [|e t IH]; intro N; [reflexivity|]. cbn [flat_map].
    rewrite IH by (intros name ev I; apply (N name ev); now right).
    destruct e as [name ev| | | | |]; try reflexivity. cbn [forward_of].
    rewrite (N name ev (or_introl eq_refl)), forwards_none by exact F. reflexivity. }
  rewrite E; [apply app_nil_r|]. intros name ev. apply handler_emits.
Qed.

(** The sample connection is subscribed to ["order-0"]; another order is
    run. *)
Lemma run_reaches_subscribers_only_witness :
  sent 7%nat (after (handler Sample.lucky
                       {| job_data := {| orderId := "order-9"; tokenIn := "SOL";
                                         tokenOut := "USDC"; amount := 1;
                                         type := "market"; createdAt := None |};
                          job_name := "exec";
                          opts := opts Sample.job |})
                    Sample.subscribed)
  = [pending_message "order-0"].
Proof.
  etransitivity.
  - apply run_reaches_subscribers_only.
    intros l [<-|[]] _. discriminate.
  - vm_compute. reflexivity.
Defined.
